(** * Rubik's cube core (core.cpp / core.h): sticker state, move parsing,
      animation stepping and transform queries.

    The C++ [float] is IEEE-754 binary32 with round-to-nearest-even, each
    operation rounded on its own; it is embedded with the Standard
    Library's executable specification [SpecFloat] at precision 24 and
    exponent bound 128.  The C++ [int] is embedded as [Z]; all integers that
    occur are far from the 32-bit bounds except in the float-to-int cast,
    whose out-of-range case is written out.  [std::string] is [string],
    [std::vector] is [list]. *)

From Stdlib Require Import ZArith List String Ascii Bool Lia Permutation.
From Stdlib Require Import Floats.SpecFloat.
Import ListNotations.

Open Scope Z_scope.

(** ** binary32 arithmetic *)

Module F32.

Definition float := spec_float.

Definition prec : Z := 24.
Definition emax : Z := 128.

Definition fadd : float -> float -> float := SFadd prec emax.
Definition fsub : float -> float -> float := SFsub prec emax.
Definition fmul : float -> float -> float := SFmul prec emax.
Definition fdiv : float -> float -> float := SFdiv prec emax.
Definition fsqrt : float -> float := SFsqrt prec emax.
Definition fneg : float -> float := SFopp.
Definition fabs : float -> float := SFabs.

(** The comparison operators of C++ on floats: false on NaN. *)
Definition flt (a b : float) : bool := SFltb a b.
Definition fle (a b : float) : bool := SFleb a b.
Definition fgt (a b : float) : bool := SFltb b a.
Definition fge (a b : float) : bool := SFleb b a.
Definition feqb (a b : float) : bool := SFeqb a b.

(** A float that the format can hold (canonical mantissa and exponent). *)
Definition valid (x : float) : bool := valid_binary prec emax x.

Definition is_finite (x : float) : bool :=
  match x with
  | S754_zero _ | S754_finite _ _ _ => true
  | _ => false
  end.

Definition is_zero (x : float) : bool :=
  match x with
  | S754_zero _ => true
  | _ => false
  end.

(** Decoding of the 32-bit pattern of a float; constants below are given by
    their bit patterns. *)
Definition of_bits (b : Z) : float :=
  let s := Z.testbit b 31 in
  let e := Z.land (Z.shiftr b 23) 255 in
  let m := Z.land b 8388607 in
  if e =? 0 then
    match m with
    | Zpos p => S754_finite s p (-149)
    | _ => S754_zero s
    end
  else if e =? 255 then
    (if m =? 0 then S754_infinity s else S754_nan)
  else
    match m + 8388608 with
    | Zpos p => S754_finite s p (e - 150)
    | _ => S754_nan
    end.

(** [(float)i] for an [int] i. *)
Definition of_int (i : Z) : float := binary_normalize prec emax i 0 false.

(** [std::round]: to the nearest integer, halfway cases away from zero. *)
Definition roundf (x : float) : float :=
  match x with
  | S754_finite s m e =>
      if 0 <=? e then x
      else
        let k := - e in
        let q := Z.shiftr (Zpos m) k in
        let r := Z.land (Zpos m) (Z.ones k) in
        let n := if Z.shiftl 1 (k - 1) <=? r then q + 1 else q in
        if n =? 0 then S754_zero s
        else binary_normalize prec emax (if s then - n else n) 0 s
  | _ => x
  end.

Definition INT_MIN : Z := - 2147483648.
Definition INT_MAX : Z := 2147483647.

(** [(int)x]: truncation toward zero.  For a NaN, an infinity or a value
    outside the range of [int] the conversion instruction of x86-64
    (cvttss2si) yields INT_MIN; ISO C++ leaves that case undefined. *)
Definition to_int (x : float) : Z :=
  match x with
  | S754_zero _ => 0
  | S754_finite s m e =>
      let a := if 0 <=? e then Z.shiftl (Zpos m) e else Z.shiftr (Zpos m) (- e) in
      let v := if s then - a else a in
      if (INT_MIN <=? v) && (v <=? INT_MAX) then v else INT_MIN
  | _ => INT_MIN
  end.

(** Neighbours of a float in the binary32 order. *)
Definition fsucc : float -> float := SFsucc prec emax.
Definition fpred : float -> float := SFpred prec emax.

Fixpoint iter_float (f : float -> float) (n : nat) (x : float) : list float :=
  match n with
  | O => []
  | S n' => f x :: iter_float f n' (f x)
  end.

(** The floats at most [k] units in the last place away from [x]. *)
Definition ulp_ball (k : nat) (x : float) : list float :=
  rev (iter_float fpred k x) ++ x :: iter_float fsucc k x.

Definition fzero : float := S754_zero false.
Definition fone : float := Eval cbv in of_int 1.
Definition ftwo : float := Eval cbv in of_int 2.
Definition fhalf : float := Eval cbv in of_bits 0x3f000000.

End F32.

Import F32.

(** ** The C math library

    [sinf], [cosf] and [acosf] are not specified by IEEE 754; the program
    is parametrised by them.  Theorems that depend on their values assume an
    accuracy of a few units in the last place at the arguments the program
    passes. *)

Record libm : Type := Libm {
  sinf : float -> float;
  cosf : float -> float;
  acosf : float -> float
}.

(** ** The part of GLM the core uses (scalar code paths) *)

Module glm.

Record vec3 : Type := Vec3 { x3 : float; y3 : float; z3 : float }.
Record ivec3 : Type := IVec3 { ix : Z; iy : Z; iz : Z }.
Record vec4 : Type := Vec4 { x4 : float; y4 : float; z4 : float; w4 : float }.
(** [qua]: scalar part [qw], vector part [qx qy qz]. *)
Record quat : Type := Quat { qw : float; qx : float; qy : float; qz : float }.
(** [mat4] is column-major: [col0 .. col3]. *)
Record mat4 : Type := Mat4 { col0 : vec4; col1 : vec4; col2 : vec4; col3 : vec4 }.

(** [glm::vec3(s)], [glm::vec3(ivec3)] *)
Definition vec3_splat (s : float) : vec3 := Vec3 s s s.
Definition vec3_of_ivec3 (v : ivec3) : vec3 :=
  Vec3 (of_int (ix v)) (of_int (iy v)) (of_int (iz v)).

Definition v3_add (a b : vec3) : vec3 :=
  Vec3 (fadd (x3 a) (x3 b)) (fadd (y3 a) (y3 b)) (fadd (z3 a) (z3 b)).
Definition v3_mul (a b : vec3) : vec3 :=
  Vec3 (fmul (x3 a) (x3 b)) (fmul (y3 a) (y3 b)) (fmul (z3 a) (z3 b)).
Definition v3_scale (a : vec3) (s : float) : vec3 :=
  Vec3 (fmul (x3 a) s) (fmul (y3 a) s) (fmul (z3 a) s).
Definition v3_neg (a : vec3) : vec3 := Vec3 (fneg (x3 a)) (fneg (y3 a)) (fneg (z3 a)).

Definition v4_add (a b : vec4) : vec4 :=
  Vec4 (fadd (x4 a) (x4 b)) (fadd (y4 a) (y4 b)) (fadd (z4 a) (z4 b)) (fadd (w4 a) (w4 b)).
Definition v4_scale (a : vec4) (s : float) : vec4 :=
  Vec4 (fmul (x4 a) s) (fmul (y4 a) s) (fmul (z4 a) s) (fmul (w4 a) s).

(** [glm::dot]: [tmp = a * b; tmp.x + tmp.y + tmp.z] *)
Definition dot (a b : vec3) : float :=
  let tmp := v3_mul a b in fadd (fadd (x3 tmp) (y3 tmp)) (z3 tmp).

Definition cross (a b : vec3) : vec3 :=
  Vec3 (fsub (fmul (y3 a) (z3 b)) (fmul (y3 b) (z3 a)))
       (fsub (fmul (z3 a) (x3 b)) (fmul (z3 b) (x3 a)))
       (fsub (fmul (x3 a) (y3 b)) (fmul (x3 b) (y3 a))).

Definition inversesqrt (s : float) : float := fdiv fone (fsqrt s).
Definition length3 (v : vec3) : float := fsqrt (dot v v).
Definition normalize (v : vec3) : vec3 := v3_scale v (inversesqrt (dot v v)).

(** [glm::min], [glm::max], [glm::clamp] on scalars *)
Definition fmin (a b : float) : float := if flt b a then b else a.
Definition fmax (a b : float) : float := if flt a b then b else a.
Definition clamp (v lo hi : float) : float := fmin (fmax v lo) hi.

(** [glm::radians]: multiplication by the float nearest to pi/180. *)
Definition deg2rad : float := Eval cbv in of_bits 0x3c8efa35.
Definition radians (degrees : float) : float := fmul degrees deg2rad.

(** [glm::pi<float>()] *)
Definition pi : float := Eval cbv in of_bits 0x40490fdb.

(** [glm::round] on a vec3 *)
Definition round3 (v : vec3) : vec3 := Vec3 (roundf (x3 v)) (roundf (y3 v)) (roundf (z3 v)).

Definition quat_identity : quat := Quat fone fzero fzero fzero.

(** The quaternion with scalar part [c] and vector part [v * s]. *)
Definition quat_of_sin_cos (s c : float) (v : vec3) : quat :=
  let vs := v3_scale v s in Quat c (x3 vs) (y3 vs) (z3 vs).

(** [glm::angleAxis(angle, v)] *)
Definition angleAxis (L : libm) (angle : float) (v : vec3) : quat :=
  let a := angle in
  let s := sinf L (fmul a fhalf) in
  quat_of_sin_cos s (cosf L (fmul a fhalf)) v.

(** [q * v]: rotation of a vector by a quaternion *)
Definition quat_rotate (q : quat) (v : vec3) : vec3 :=
  let QuatVector := Vec3 (qx q) (qy q) (qz q) in
  let uv := cross QuatVector v in
  let uuv := cross QuatVector uv in
  v3_add v (v3_scale (v3_add (v3_scale uv (qw q)) uuv) ftwo).

(** [glm::toMat4(q)], through [mat3_cast] *)
Definition toMat4 (q : quat) : mat4 :=
  let qxx := fmul (qx q) (qx q) in
  let qyy := fmul (qy q) (qy q) in
  let qzz := fmul (qz q) (qz q) in
  let qxz := fmul (qx q) (qz q) in
  let qxy := fmul (qx q) (qy q) in
  let qyz := fmul (qy q) (qz q) in
  let qwx := fmul (qw q) (qx q) in
  let qwy := fmul (qw q) (qy q) in
  let qwz := fmul (qw q) (qz q) in
  Mat4
    (Vec4 (fsub fone (fmul ftwo (fadd qyy qzz)))
          (fmul ftwo (fadd qxy qwz))
          (fmul ftwo (fsub qxz qwy))
          fzero)
    (Vec4 (fmul ftwo (fsub qxy qwz))
          (fsub fone (fmul ftwo (fadd qxx qzz)))
          (fmul ftwo (fadd qyz qwx))
          fzero)
    (Vec4 (fmul ftwo (fadd qxz qwy))
          (fmul ftwo (fsub qyz qwx))
          (fsub fone (fmul ftwo (fadd qxx qyy)))
          fzero)
    (Vec4 fzero fzero fzero fone).

(** [glm::mat4(1.0f)] *)
Definition mat4_identity : mat4 :=
  Mat4 (Vec4 fone fzero fzero fzero) (Vec4 fzero fone fzero fzero)
       (Vec4 fzero fzero fone fzero) (Vec4 fzero fzero fzero fone).

(** [glm::translate(m, v)]:
    [Result[3] = m[0] * v[0] + m[1] * v[1] + m[2] * v[2] + m[3]] *)
Definition translate (m : mat4) (v : vec3) : mat4 :=
  Mat4 (col0 m) (col1 m) (col2 m)
       (v4_add (v4_add (v4_add (v4_scale (col0 m) (x3 v)) (v4_scale (col1 m) (y3 v)))
                       (v4_scale (col2 m) (z3 v)))
               (col3 m)).

(** [glm::scale(m, v)] *)
Definition scale (m : mat4) (v : vec3) : mat4 :=
  Mat4 (v4_scale (col0 m) (x3 v)) (v4_scale (col1 m) (y3 v))
       (v4_scale (col2 m) (z3 v)) (col3 m).

(** One column of [m1 * m2]:
    [SrcA0 * SrcB[0] + SrcA1 * SrcB[1] + SrcA2 * SrcB[2] + SrcA3 * SrcB[3]] *)
Definition mat4_mul_col (m1 : mat4) (b : vec4) : vec4 :=
  v4_add (v4_add (v4_add (v4_scale (col0 m1) (x4 b)) (v4_scale (col1 m1) (y4 b)))
                 (v4_scale (col2 m1) (z4 b)))
         (v4_scale (col3 m1) (w4 b)).

Definition mat4_mul (m1 m2 : mat4) : mat4 :=
  Mat4 (mat4_mul_col m1 (col0 m2)) (mat4_mul_col m1 (col1 m2))
       (mat4_mul_col m1 (col2 m2)) (mat4_mul_col m1 (col3 m2)).

(** [operator==] on vec4 and mat4 (component-wise float comparison) *)
Definition vec4_eqb (a b : vec4) : bool :=
  feqb (x4 a) (x4 b) && feqb (y4 a) (y4 b) && feqb (z4 a) (z4 b) && feqb (w4 a) (w4 b).
Definition mat4_eqb (a b : mat4) : bool :=
  vec4_eqb (col0 a) (col0 b) && vec4_eqb (col1 a) (col1 b) &&
  vec4_eqb (col2 a) (col2 b) && vec4_eqb (col3 a) (col3 b).

Definition ivec3_eqb (a b : ivec3) : bool :=
  (ix a =? ix b) && (iy a =? iy b) && (iz a =? iz b).

End glm.

Import glm.

(** ** Characters and strings of the C library, in the "C" locale *)

Definition char_code (c : ascii) : Z := Z.of_N (N_of_ascii c).

Definition isspace (c : ascii) : bool :=
  let n := char_code c in (n =? 32) || ((9 <=? n) && (n <=? 13)).

Definition toupper (c : ascii) : ascii :=
  let n := char_code c in
  if (97 <=? n) && (n <=? 122) then ascii_of_N (Z.to_N (n - 32)) else c.

(** [strchr(s, c)]: index of the first occurrence of [c]; the terminating
    NUL of [s] counts as part of the string. *)
Fixpoint strchr (s : string) (c : ascii) : option nat :=
  match s with
  | EmptyString => if Ascii.eqb c Ascii.zero then Some O else None
  | String a s' =>
      if Ascii.eqb a c then Some O
      else option_map S (strchr s' c)
  end.

(** [s[i]] of [std::string]: the NUL character at [i = s.size()]. *)
Definition char_at (s : string) (i : nat) : ascii :=
  match String.get i s with
  | Some c => c
  | None => Ascii.zero
  end.

Definition size (s : string) : Z := Z.of_nat (String.length s).

(** ** The core *)

Record Sticker : Type := mkSticker {
  cubePos : ivec3;     (* each component in {-1,0,1} *)
  normal : ivec3;      (* one of axis unit vectors *)
  color : vec3;
  baseModel : mat4     (* model transform when idle *)
}.

Record Anim : Type := mkAnim {
  active : bool;
  axis : vec3;
  layer : Z;           (* -1, 0, +1 for the layer coordinate along axis *)
  targetAngle : float; (* degrees (+-90 or 180) *)
  currentAngle : float;
  speedDeg : float     (* deg per second *)
}.

Record Core : Type := mkCore {
  m_cubieSize : float;
  m_gap : float;
  m_spacing : float;
  m_anim : Anim;
  m_queue : list string;
  m_stickers : list Sticker
}.

Definition set_anim (c : Core) (a : Anim) : Core :=
  mkCore (m_cubieSize c) (m_gap c) (m_spacing c) a (m_queue c) (m_stickers c).
Definition set_queue (c : Core) (q : list string) : Core :=
  mkCore (m_cubieSize c) (m_gap c) (m_spacing c) (m_anim c) q (m_stickers c).
Definition set_stickers (c : Core) (st : list Sticker) : Core :=
  mkCore (m_cubieSize c) (m_gap c) (m_spacing c) (m_anim c) (m_queue c) st.

Definition FACE_ORDER : list ascii := ["U"; "R"; "F"; "D"; "L"; "B"]%char.

(** Float literals of core.cpp, by bit pattern. *)
Definition f_0_001 : float := Eval cbv in of_bits 0x3a83126f. (* 0.001f, 1e-3f *)
Definition f_1em4 : float := Eval cbv in of_bits 0x38d1b717.  (* 1e-4f *)
Definition f_0_92 : float := Eval cbv in of_bits 0x3f6b851f.
Definition f_0_8 : float := Eval cbv in of_bits 0x3f4ccccd.
Definition f_0_05 : float := Eval cbv in of_bits 0x3d4ccccd.
Definition f_0_7 : float := Eval cbv in of_bits 0x3f333333.
Definition f_0_15 : float := Eval cbv in of_bits 0x3e19999a.
Definition f_0_9 : float := Eval cbv in of_bits 0x3f666666.
Definition f_0_2 : float := Eval cbv in of_bits 0x3e4ccccd.
Definition f_90 : float := Eval cbv in of_int 90.
Definition f_180 : float := Eval cbv in of_int 180.
Definition f_m90 : float := Eval cbv in fneg (of_int 90).

Definition faceToColor (face : ascii) : vec3 :=
  if Ascii.eqb face "U" then Vec3 fone fone fone
  else if Ascii.eqb face "D" then Vec3 fone fone fzero
  else if Ascii.eqb face "F" then Vec3 f_0_8 f_0_05 f_0_05
  else if Ascii.eqb face "B" then Vec3 fone fhalf fzero
  else if Ascii.eqb face "R" then Vec3 f_0_05 f_0_7 f_0_05
  else if Ascii.eqb face "L" then Vec3 f_0_05 f_0_15 f_0_9
  else vec3_splat f_0_2.

(** The loop of [parseMove] that copies the characters that are not white
    space. *)
Definition stripSpaces (move : string) : string :=
  string_of_list_ascii
    (filter (fun c => negb (isspace c)) (list_ascii_of_string move)).

(** [parseMove]: [Some (face, amount, prime)] for a [true] return.  The
    three out-parameters are read by the callers only after [true]. *)
Definition parseMove (move : string) : option (ascii * Z * bool) :=
  if (size move =? 0) then None
  else
    let s := stripSpaces move in
    let face := toupper (char_at s 0) in
    match strchr "UDLRFB" face with
    | None => None
    | Some _ =>
        let amount := 1 in
        let prime := false in
        let '(amount, prime) :=
          if 2 <=? size s then
            if Ascii.eqb (char_at s 1) "2" then (2, prime)
            else if Ascii.eqb (char_at s 1) "'" then (amount, true)
            else (amount, prime)
          else (amount, prime) in
        let prime :=
          if 3 <=? size s then
            if Ascii.eqb (char_at s 1) "2" && Ascii.eqb (char_at s 2) "'"
            then true else prime
          else prime in
        Some (face, amount, prime)
    end.

Section WithLibm.

Variable L : libm.

Definition rebuildBaseModel (c : Core) (s : Sticker) : Sticker :=
  let pos := v3_scale (vec3_of_ivec3 (cubePos s)) (m_spacing c) in
  let offset := fadd (fmul fhalf (m_cubieSize c)) f_0_001 in
  let pos := v3_add pos (v3_scale (vec3_of_ivec3 (normal s)) offset) in
  let zDir := Vec3 fzero fzero fone in
  let n := normalize (vec3_of_ivec3 (normal s)) in
  let q :=
    if flt (length3 (cross zDir n)) f_1em4 then
      if fgt (dot zDir n) fzero then quat_identity
      else angleAxis L pi (Vec3 fzero fone fzero)
    else
      let angle := acosf L (clamp (dot zDir n) (fneg fone) fone) in
      let axis := normalize (cross zDir n) in
      angleAxis L angle axis in
  let stickerScale := fmul (m_cubieSize c) f_0_92 in
  let M := mat4_mul (mat4_mul (translate mat4_identity pos) (toMat4 q))
                    (scale mat4_identity (Vec3 stickerScale stickerScale fone)) in
  mkSticker (cubePos s) (normal s) (color s) M.

(** The sticker that one pass of the inner loops of [buildInitialStickers]
    pushes, for face [face] and grid cell [(a, b)]. *)
Definition initialSticker (c : Core) (face : ascii) (a b : Z) : Sticker :=
  let normal := IVec3 0 0 0 in
  let fixCoord := 0 in
  let '(normal, fixCoord) :=
    if Ascii.eqb face "U" then (IVec3 0 1 0, 1) else (normal, fixCoord) in
  let '(normal, fixCoord) :=
    if Ascii.eqb face "D" then (IVec3 0 (-1) 0, -1) else (normal, fixCoord) in
  let '(normal, fixCoord) :=
    if Ascii.eqb face "F" then (IVec3 0 0 1, 1) else (normal, fixCoord) in
  let '(normal, fixCoord) :=
    if Ascii.eqb face "B" then (IVec3 0 0 (-1), -1) else (normal, fixCoord) in
  let '(normal, fixCoord) :=
    if Ascii.eqb face "R" then (IVec3 1 0 0, 1) else (normal, fixCoord) in
  let '(normal, fixCoord) :=
    if Ascii.eqb face "L" then (IVec3 (-1) 0 0, -1) else (normal, fixCoord) in
  let pos :=
    if Ascii.eqb face "U" || Ascii.eqb face "D" then IVec3 a fixCoord (- b)
    else if Ascii.eqb face "F" || Ascii.eqb face "B" then IVec3 a (- b) fixCoord
    else IVec3 fixCoord (- b) a in
  rebuildBaseModel c (mkSticker pos normal (faceToColor face) mat4_identity).

Definition buildInitialStickers (c : Core) : Core :=
  set_stickers c
    (flat_map (fun face =>
       flat_map (fun a => map (fun b => initialSticker c face a b) [-1; 0; 1])
                [-1; 0; 1])
       FACE_ORDER).

(** [Core::Core] *)
Definition construct (cubieSize gap animSpeedDegPerSec : float) : Core :=
  buildInitialStickers
    (mkCore cubieSize gap (fadd cubieSize gap)
            (mkAnim false (vec3_splat fzero) 0 fzero fzero animSpeedDegPerSec)
            [] []).

(** The coordinate of a sticker along the rotation axis, as both
    [applyRotationDiscrete] and [getStickerModelMatrices] select it. *)
Definition axisCoord (ax : vec3) (p : ivec3) : Z :=
  if fgt (fabs (x3 ax)) fhalf then ix p
  else if fgt (fabs (y3 ax)) fhalf then iy p
  else iz p.

Definition ivec3_of_rounded (v : vec3) : ivec3 :=
  IVec3 (to_int (x3 v)) (to_int (y3 v)) (to_int (z3 v)).

(** The body of the first loop of [applyRotationDiscrete]. *)
Definition rotateSticker (q : quat) (ax : vec3) (lay : Z) (s : Sticker) : Sticker :=
  let coord := axisCoord ax (cubePos s) in
  if negb (coord =? lay) then s
  else
    let p := vec3_of_ivec3 (cubePos s) in
    let p2 := round3 (quat_rotate q p) in
    let n := vec3_of_ivec3 (normal s) in
    let n2 := round3 (quat_rotate q n) in
    mkSticker (ivec3_of_rounded p2) (ivec3_of_rounded n2) (color s) (baseModel s).

Definition applyRotationDiscrete (c : Core) (ax : vec3) (lay : Z) (angleDeg : float)
  : Core :=
  let a := normalize ax in
  let rad := radians angleDeg in
  let q := angleAxis L rad a in
  let c1 := set_stickers c (map (rotateSticker q ax lay) (m_stickers c)) in
  set_stickers c1 (map (rebuildBaseModel c1) (m_stickers c1)).

(** The face-to-(axis, layer) mapping at the head of [startParsedMove]. *)
Definition faceAxisLayer (face : ascii) : vec3 * Z :=
  let axis := vec3_splat fzero in
  let layer := 0 in
  let '(axis, layer) :=
    if Ascii.eqb face "U" then (Vec3 fzero fone fzero, 1) else (axis, layer) in
  let '(axis, layer) :=
    if Ascii.eqb face "D" then (Vec3 fzero fone fzero, -1) else (axis, layer) in
  let '(axis, layer) :=
    if Ascii.eqb face "F" then (Vec3 fzero fzero fone, 1) else (axis, layer) in
  let '(axis, layer) :=
    if Ascii.eqb face "B" then (Vec3 fzero fzero fone, -1) else (axis, layer) in
  let '(axis, layer) :=
    if Ascii.eqb face "R" then (Vec3 fone fzero fzero, 1) else (axis, layer) in
  let '(axis, layer) :=
    if Ascii.eqb face "L" then (Vec3 fone fzero fzero, -1) else (axis, layer) in
  (axis, layer).

(** The total angle that [startParsedMove] determines. *)
Definition moveAngle (amount : Z) (prime : bool) : float :=
  let angle := fmul f_90 (of_int amount) in
  let angle := if prime then fneg angle else angle in
  let angle := if amount =? 2 then fmul f_180 (if prime then fone else fone) else angle in
  angle.

Definition startParsedMove (c : Core) (face : ascii) (amount : Z) (prime : bool)
  : Core :=
  let '(axis, layer) := faceAxisLayer face in
  let angle := moveAngle amount prime in
  set_anim c (mkAnim true axis layer angle fzero (speedDeg (m_anim c))).

Definition startNextInQueue (c : Core) : Core :=
  if active (m_anim c) then c
  else
    match m_queue c with
    | [] => c
    | mv :: rest =>
        let c := set_queue c rest in
        match parseMove mv with
        | None => c
        | Some (face, amount, prime) => startParsedMove c face amount prime
        end
    end.

(** The angle that [update] computes before its completion test. *)
Definition advancedAngle (a : Anim) (deltaSeconds : float) : float :=
  let step := fmul (speedDeg a) deltaSeconds in
  let remaining := fabs (fsub (targetAngle a) (currentAngle a)) in
  let take := fmin step remaining in
  fadd (currentAngle a)
       (fmul (if fge (targetAngle a) fzero then fone else fneg fone) take).

(** The completion test of [update], on the advanced angle. *)
Definition animationDone (a : Anim) (newAngle : float) : bool :=
  let remaining := fabs (fsub (targetAngle a) (currentAngle a)) in
  flt (fabs (fsub (fabs newAngle) (fabs (targetAngle a)))) f_0_001
  || fle remaining f_1em4.

Definition set_currentAngle (a : Anim) (v : float) : Anim :=
  mkAnim (active a) (axis a) (layer a) (targetAngle a) v (speedDeg a).
Definition set_active (a : Anim) (b : bool) : Anim :=
  mkAnim b (axis a) (layer a) (targetAngle a) (currentAngle a) (speedDeg a).

Definition update (c : Core) (deltaSeconds : float) : Core :=
  if active (m_anim c) then
    let newAngle := advancedAngle (m_anim c) deltaSeconds in
    if animationDone (m_anim c) newAngle then
      let finalAngle := targetAngle (m_anim c) in
      let c1 := applyRotationDiscrete
                  (set_anim c (set_currentAngle (m_anim c) newAngle))
                  (axis (m_anim c)) (layer (m_anim c)) finalAngle in
      let c2 := set_anim c1 (set_active (m_anim c1) false) in
      let c3 := set_anim c2 (set_currentAngle (m_anim c2) fzero) in
      startNextInQueue c3
    else set_anim c (set_currentAngle (m_anim c) newAngle)
  else
    match m_queue c with
    | [] => c
    | _ :: _ => startNextInQueue c
    end.

Definition queueMove (c : Core) (move : string) : bool * Core :=
  match parseMove move with
  | None => (false, c)
  | Some _ => (true, set_queue c (m_queue c ++ [move]))
  end.

Definition startMoveImmediate (c : Core) (move : string) : bool * Core :=
  let c := set_queue c [] in
  match parseMove move with
  | None => (false, c)
  | Some (face, amount, prime) => (true, startParsedMove c face amount prime)
  end.

Definition isAnimating (c : Core) : bool := active (m_anim c).

Definition clearQueue (c : Core) : Core := set_queue c [].

(** The transform of one sticker in [getStickerModelMatrices]. *)
Definition stickerModelMatrix (c : Core) (s : Sticker) : mat4 :=
  let anim := active (m_anim c) in
  let q_anim := quat_identity in
  let axisCenter := vec3_splat fzero in
  let '(q_anim, axisCenter) :=
    if anim then
      let curAngle := currentAngle (m_anim c) in
      let rad := radians curAngle in
      let a := normalize (axis (m_anim c)) in
      (angleAxis L rad a,
       v3_scale (v3_scale (axis (m_anim c)) (of_int (layer (m_anim c)))) (m_spacing c))
    else (q_anim, axisCenter) in
  if negb anim then baseModel s
  else
    let coord := axisCoord (axis (m_anim c)) (cubePos s) in
    if negb (coord =? layer (m_anim c)) then baseModel s
    else
      let T1 := translate mat4_identity axisCenter in
      let R := toMat4 q_anim in
      let T2 := translate mat4_identity (v3_neg axisCenter) in
      mat4_mul (mat4_mul (mat4_mul T1 R) T2) (baseModel s).

Definition getStickerModelMatrices (c : Core) : list mat4 :=
  map (stickerModelMatrix c) (m_stickers c).

Definition getStickerColors (c : Core) : list vec3 :=
  map color (m_stickers c).

End WithLibm.

(** ** A concrete math library

    Correctly rounded values of [sinf], [cosf] and [acosf] at the arguments
    that the core passes for quarter and half turns and for an angle of
    zero; NaN at every other argument. *)

Definition float_same (a b : float) : bool :=
  match a, b with
  | S754_zero s, S754_zero t => Bool.eqb s t
  | S754_infinity s, S754_infinity t => Bool.eqb s t
  | S754_nan, S754_nan => true
  | S754_finite s m e, S754_finite t n f => Bool.eqb s t && Pos.eqb m n && (e =? f)
  | _, _ => false
  end.

Fixpoint table_lookup (t : list (Z * Z)) (a : float) : float :=
  match t with
  | [] => S754_nan
  | (k, v) :: t' => if float_same a (of_bits k) then of_bits v else table_lookup t' a
  end.

Definition libm_table : libm :=
  Libm
    (table_lookup [(0x3f490fdb, 0x3f3504f3); (0xbf490fdb, 0xbf3504f3);
                   (0x3fc90fdb, 0x3f800000); (0x00000000, 0x00000000)])
    (table_lookup [(0x3f490fdb, 0x3f3504f3); (0xbf490fdb, 0x3f3504f3);
                   (0x3fc90fdb, 0xb33bbd2e); (0x00000000, 0x3f800000)])
    (table_lookup [(0x00000000, 0x3fc90fdb); (0x80000000, 0x3fc90fdb)]).

Definition core0 : Core :=
  construct libm_table (of_bits 0x3f666666) (of_bits 0x3cf5c28f) (of_bits 0x44340000).

(** ** Operations of the public interface, as a transition system *)

Inductive Op : Type :=
| OpUpdate (deltaSeconds : float)
| OpQueueMove (move : string)
| OpStartMoveImmediate (move : string)
| OpClearQueue.

Definition step (L : libm) (c : Core) (o : Op) : Core :=
  match o with
  | OpUpdate dt => update L c dt
  | OpQueueMove mv => snd (queueMove c mv)
  | OpStartMoveImmediate mv => snd (startMoveImmediate c mv)
  | OpClearQueue => clearQueue c
  end.

Definition run (L : libm) (c : Core) (ops : list Op) : Core :=
  fold_left (step L) ops c.

(** ** Notions of the specification *)

(** The move grammar of the specification: [UDLRFB]('|2)? *)
Definition isFaceLetter (a : ascii) : bool :=
  existsb (Ascii.eqb a) ["U"; "D"; "L"; "R"; "F"; "B"]%char.

Definition matchesMovePattern (s : string) : bool :=
  match s with
  | String f EmptyString => isFaceLetter f
  | String f (String m EmptyString) =>
      isFaceLetter f && (Ascii.eqb m "'" || Ascii.eqb m "2")
  | _ => false
  end.

(** A face letter in either case. *)
Definition isFaceLetterAnyCase (a : ascii) : bool :=
  existsb (Ascii.eqb a)
    ["U"; "D"; "L"; "R"; "F"; "B"; "u"; "d"; "l"; "r"; "f"; "b"]%char.

(** White space of the specification: blank, tab, line feed, vertical tab,
    form feed, carriage return. *)
Definition isBlank (a : ascii) : bool :=
  existsb (Ascii.eqb a) [" "; "009"; "010"; "011"; "012"; "013"]%char.

(** The first character of a string that is not white space. *)
Fixpoint firstNonBlank (s : string) : option ascii :=
  match s with
  | EmptyString => None
  | String a s' => if isBlank a then firstNonBlank s' else Some a
  end.

(** The colour table of the specification. *)
Definition white : vec3 := Eval cbv in Vec3 (of_bits 0x3f800000) (of_bits 0x3f800000) (of_bits 0x3f800000).
Definition yellow : vec3 := Eval cbv in Vec3 (of_bits 0x3f800000) (of_bits 0x3f800000) (of_bits 0).
Definition red : vec3 := Eval cbv in Vec3 (of_bits 0x3f4ccccd) (of_bits 0x3d4ccccd) (of_bits 0x3d4ccccd).
Definition orange : vec3 := Eval cbv in Vec3 (of_bits 0x3f800000) (of_bits 0x3f000000) (of_bits 0).
Definition green : vec3 := Eval cbv in Vec3 (of_bits 0x3d4ccccd) (of_bits 0x3f333333) (of_bits 0x3d4ccccd).
Definition blue : vec3 := Eval cbv in Vec3 (of_bits 0x3d4ccccd) (of_bits 0x3e19999a) (of_bits 0x3f666666).

(** The core of the running example, with the move "R" queued. *)
Definition core0_queued_R : Core := snd (queueMove core0 "R").

(** A string all of whose characters are white space. *)
Definition allBlank (s : string) : bool := forallb isBlank (list_ascii_of_string s).

Definition zero3 : vec3 := Vec3 fzero fzero fzero.
Definition nan3 : vec3 := Vec3 S754_nan S754_nan S754_nan.

(** ** Accuracy assumed of the math library

    Half the angle of a quarter turn, of a reverse quarter turn and of a half
    turn, as [angleAxis] computes it from [radians] of 90, -90 and 180. *)
Definition half_of (angleDeg : float) : float := fmul (radians angleDeg) fhalf.

(** The correctly rounded sine and cosine at those three arguments. *)
Definition sin_half_90 : float := Eval cbv in of_bits 0x3f3504f3.
Definition cos_half_90 : float := Eval cbv in of_bits 0x3f3504f3.
Definition sin_half_m90 : float := Eval cbv in of_bits 0xbf3504f3.
Definition cos_half_m90 : float := Eval cbv in of_bits 0x3f3504f3.
Definition sin_half_180 : float := Eval cbv in of_bits 0x3f800000.
Definition cos_half_180 : float := Eval cbv in of_bits 0xb33bbd2e.

(** Tolerance, in units in the last place. *)
Definition libm_ulps : nat := 4.

(** [sinf] and [cosf] are within [libm_ulps] units in the last place of the
    correctly rounded value at the half angles of the three turns, and exact
    at zero. *)
Definition libm_accurate (L : libm) : Prop :=
  In (sinf L (half_of f_90)) (ulp_ball libm_ulps sin_half_90) /\
  In (cosf L (half_of f_90)) (ulp_ball libm_ulps cos_half_90) /\
  In (sinf L (half_of f_m90)) (ulp_ball libm_ulps sin_half_m90) /\
  In (cosf L (half_of f_m90)) (ulp_ball libm_ulps cos_half_m90) /\
  In (sinf L (half_of f_180)) (ulp_ball libm_ulps sin_half_180) /\
  In (cosf L (half_of f_180)) (ulp_ball libm_ulps cos_half_180) /\
  sinf L fzero = fzero /\
  cosf L fzero = fone.

(** ** The turns on integer vectors

    What the quaternion rotation followed by rounding amounts to for a
    quarter turn about a coordinate axis. *)

(** The index of the coordinate that [axisCoord] selects. *)
Definition axisIndex (ax : vec3) : nat :=
  if fgt (fabs (x3 ax)) fhalf then 0%nat
  else if fgt (fabs (y3 ax)) fhalf then 1%nat
  else 2%nat.

(** A counter-clockwise quarter turn about the x, y or z axis. *)
Definition quarterTurn (i : nat) (p : ivec3) : ivec3 :=
  match i with
  | O => IVec3 (ix p) (- iz p) (iy p)
  | S O => IVec3 (iz p) (iy p) (- ix p)
  | _ => IVec3 (- iy p) (ix p) (iz p)
  end.

(** The number of quarter turns of a target angle: 1 for 90, 2 for 180 and
    3 for -90. *)
Definition quarterTurns (angleDeg : float) : nat :=
  if float_same angleDeg f_90 then 1%nat
  else if float_same angleDeg f_180 then 2%nat
  else 3%nat.

Definition turnVector (ax : vec3) (angleDeg : float) (p : ivec3) : ivec3 :=
  Nat.iter (quarterTurns angleDeg) (quarterTurn (axisIndex ax)) p.

(** The position and orientation of a sticker. *)
Definition place : Type := (ivec3 * ivec3)%type.
Definition placeOf (s : Sticker) : place := (cubePos s, normal s).

Definition turnPlace (ax : vec3) (lay : Z) (angleDeg : float) (pl : place) : place :=
  if axisCoord ax (fst pl) =? lay
  then (turnVector ax angleDeg (fst pl), turnVector ax angleDeg (snd pl))
  else pl.

(** The three axes and the three target angles of valid moves. *)
Definition unitAxes : list vec3 :=
  [Vec3 fone fzero fzero; Vec3 fzero fone fzero; Vec3 fzero fzero fone].
Definition turnAngles : list float := [f_90; f_m90; f_180].

(** The 27 integer vectors with components in {-1,0,1}. *)
Definition smallVectors : list ivec3 :=
  flat_map (fun a => flat_map (fun b => map (fun c => IVec3 a b c) [-1; 0; 1])
                              [-1; 0; 1]) [-1; 0; 1].

Definition ivec3_small (v : ivec3) : bool := existsb (ivec3_eqb v) smallVectors.

(** A sticker as the data model describes it: components in {-1,0,1}. *)
Definition placeSmall (pl : place) : bool :=
  ivec3_small (fst pl) && ivec3_small (snd pl).
Definition stickerSmall (s : Sticker) : bool := placeSmall (placeOf s).

(** The rounded rotation by the quaternion built from a sine [s] and a
    cosine [c] agrees with [turnVector] on the three axes and the 27
    vectors. *)
Definition rotationExact (angleDeg s c : float) : bool :=
  forallb (fun ax =>
    forallb (fun v =>
      ivec3_eqb
        (ivec3_of_rounded
           (round3 (quat_rotate (quat_of_sin_cos s c (normalize ax)) (vec3_of_ivec3 v))))
        (turnVector ax angleDeg v))
      smallVectors)
    unitAxes.

Definition rotationExactBall (angleDeg sref cref : float) : bool :=
  forallb (fun s => forallb (fun c => rotationExact angleDeg s c)
                            (ulp_ball libm_ulps cref))
          (ulp_ball libm_ulps sref).

(** ** The partition of the stickers by normal direction *)

Definition sixDirections : list ivec3 :=
  [IVec3 1 0 0; IVec3 (-1) 0 0; IVec3 0 1 0; IVec3 0 (-1) 0; IVec3 0 0 1; IVec3 0 0 (-1)].

(** The number of stickers whose normal is [d]. *)
Definition normalCount (d : ivec3) (st : list Sticker) : nat :=
  List.length (filter (fun s => ivec3_eqb (normal s) d) st).

(** 54 stickers, 9 for each of the six directions. *)
Definition partitioned (st : list Sticker) : Prop :=
  List.length st = 54%nat /\
  forall d, In d sixDirections -> normalCount d st = 9%nat.

(** The places of the 54 stickers that [buildInitialStickers] creates (they
    do not depend on the geometry parameters). *)
Definition initialPlaces : list place :=
  Eval vm_compute in map placeOf (m_stickers core0).

(** A parsed move (face, amount, prime) with a face letter and amount 1 or
    2, and the discrete mutation that completes it. *)
Definition ParsedMove : Type := (ascii * Z * bool)%type.

Definition validMove (m : ParsedMove) : bool :=
  let '(face, amount, _) := m in
  isFaceLetter face && ((amount =? 1) || (amount =? 2)).

Definition completeMove (L : libm) (c : Core) (m : ParsedMove) : Core :=
  let '(face, amount, prime) := m in
  applyRotationDiscrete L c (fst (faceAxisLayer face)) (snd (faceAxisLayer face))
                        (moveAngle amount prime).

(** A symbol that [parseMove] rejects or parses with a face letter (not with
    the NUL character). *)
Definition properSymbol (move : string) : bool :=
  match parseMove move with
  | Some (face, _, _) => isFaceLetter face
  | None => true
  end.

Definition properOp (o : Op) : bool :=
  match o with
  | OpQueueMove mv | OpStartMoveImmediate mv => properSymbol mv
  | _ => true
  end.

(** The animation state of a valid move. *)
Definition validAnim (a : Anim) : Prop :=
  In (axis a) unitAxes /\ In (layer a) [1; -1] /\ In (targetAngle a) turnAngles.

(** ** A checker for permutations of lists of places *)

Definition place_eqb (a b : place) : bool :=
  ivec3_eqb (fst a) (fst b) && ivec3_eqb (snd a) (snd b).

Fixpoint removeFirst (a : place) (l : list place) : option (list place) :=
  match l with
  | [] => None
  | b :: l' =>
      if place_eqb a b then Some l'
      else option_map (cons b) (removeFirst a l')
  end.

Fixpoint permutationb (l1 l2 : list place) : bool :=
  match l1 with
  | [] => match l2 with [] => true | _ => false end
  | a :: l1' =>
      match removeFirst a l2 with
      | Some l2' => permutationb l1' l2'
      | None => false
      end
  end.

(** Every turn of a valid move permutes the initial places. *)
Definition turnsPermuteInitialPlaces : bool :=
  forallb (fun ax =>
    forallb (fun lay =>
      forallb (fun ang =>
        permutationb (map (turnPlace ax lay ang) initialPlaces) initialPlaces)
        turnAngles)
      [1; -1])
    unitAxes.

(** ** Invariant of the core under valid moves *)

(** The stickers occupy the 54 initial places, in some order. *)
Definition placesInvariant (st : list Sticker) : Prop :=
  Permutation (map placeOf st) initialPlaces.

Definition coreInvariant (c : Core) : Prop :=
  placesInvariant (m_stickers c) /\
  (active (m_anim c) = true -> validAnim (m_anim c)) /\
  forallb properSymbol (m_queue c) = true.

(** ** Notions for reasoning about binary32 rounding *)

(** The state of the right shift of [SpecFloat] after [j] steps on the
    mantissa [n]: the remaining mantissa, the round bit and the sticky bit
    account for the bits shifted out. *)
Definition shr_ok (n j : Z) (r : shr_record) : Prop :=
  0 <= shr_m r /\
  exists t, 0 <= t < 2 ^ j /\
    2 * n = 2 * shr_m r * 2 ^ j + (if shr_r r then 2 ^ j else 0) + t /\
    (shr_s r = true <-> 0 < t).

(** The float with sign [s], mantissa [R] and exponent [e], where a
    mantissa of 2^24 is renormalised and a too large exponent gives an
    infinity. *)
Definition pack (s : bool) (R e : Z) : float :=
  match R with
  | Z0 => S754_zero s
  | Zpos m =>
      if Zpos m =? 16777216 then
        (if e + 1 <=? 104 then S754_finite s 8388608 (e + 1) else S754_infinity s)
      else if e <=? 104 then S754_finite s m e else S754_infinity s
  | Zneg _ => S754_nan
  end.

(** The second half of [binary_round_aux]: renormalisation of a rounded
    mantissa and the overflow test. *)
Definition finish (s : bool) (R e : Z) : float :=
  let '(mrs, e'') := shr_fexp prec emax R e loc_Exact in
  match shr_m mrs with
  | Z0 => S754_zero s
  | Zpos m => if e'' <=? emax - prec then S754_finite s m e'' else S754_infinity s
  | Zneg _ => S754_nan
  end.

(** Values: a finite float is an integer multiple of 2^-149; [p2 a] is
    2^a in that unit. *)
Definition p2 (a : Z) : Z := 2 ^ (a + 149).

(** The magnitude of a finite float, in units of 2^-149. *)
Definition Fmag (x : float) : Z :=
  match x with
  | S754_finite _ m e => Zpos m * p2 e
  | _ => 0
  end.

(** [r] is the float of sign [s] nearest to the magnitude [X] (in units
    of 2^-149), ties to the even mantissa: [E] is the binary exponent of
    [X] and [R] the mantissa of the result at exponent max (E - 24) (-149). *)
Definition rounds_to (s : bool) (X : Z) (r : float) : Prop :=
  exists E R,
    -148 <= E /\ 2 ^ (E + 148) <= X < 2 ^ (E + 149) /\
    0 <= R <= 16777216 /\
    Z.abs (2 * (R * p2 (Z.max (E - 24) (-149)) - X)) <= p2 (Z.max (E - 24) (-149)) /\
    (Z.abs (2 * (R * p2 (Z.max (E - 24) (-149)) - X)) = p2 (Z.max (E - 24) (-149)) ->
     Z.even R = true) /\
    (0 < R < 16777216 ->
     fexp prec emax (Zdigits2 R + Z.max (E - 24) (-149)) = Z.max (E - 24) (-149)) /\
    r = pack s R (Z.max (E - 24) (-149)).

(** Floats that are zero or positive and finite. *)
Definition nonneg_finite (x : float) : bool :=
  match x with
  | S754_zero _ => true
  | S754_finite false _ _ => true
  | _ => false
  end.

(** A target angle: finite, normal, with an even mantissa. *)
Definition target_ok (t : float) : Prop :=
  exists s mt et,
    t = S754_finite s mt et /\ valid t = true /\ 8388608 < Zpos mt /\
    Z.even (Zpos mt) = true /\ et <= 103.

(** The sign bit of a float. *)
Definition float_sign (x : float) : bool :=
  match x with
  | S754_zero s | S754_infinity s | S754_finite s _ _ => s
  | S754_nan => false
  end.

(** The current angle lies between zero and the target. *)
Definition angle_ok (t c : float) : Prop :=
  valid c = true /\ Fmag c <= Fmag t /\
  (is_zero c = true \/ exists m e, c = S754_finite (float_sign t) m e).

(** The step: zero, positive or plus infinity. *)
Definition step_ok (step : float) : Prop :=
  valid step = true /\
  (nonneg_finite step = true \/ step = S754_infinity false).

(** ** Invariant of the animation angle *)

(** A float that is finite and not negative: a speed or an elapsed time. *)
Definition finiteNonneg (x : float) : bool := valid x && nonneg_finite x.

Definition opTimeOk (o : Op) : bool :=
  match o with
  | OpUpdate dt => finiteNonneg dt
  | _ => true
  end.

(** While an animation is active its target is one of 90, -90 and 180 and
    the current angle lies between zero and the target. *)
Definition angleInvariant (c : Core) : Prop :=
  active (m_anim c) = true ->
  In (targetAngle (m_anim c)) turnAngles /\
  angle_ok (targetAngle (m_anim c)) (currentAngle (m_anim c)).

(** The state in which [update] leaves the core when the animation
    completes, before it looks at the queue. *)
Definition finishedCore (L : libm) (c : Core) : Core :=
  let a := m_anim c in
  set_anim (applyRotationDiscrete L c (axis a) (layer a) (targetAngle a))
           (mkAnim false (axis a) (layer a) (targetAngle a) fzero (speedDeg a)).

(** A core constructed with a negative animation speed, the move "R" started
    and two ticks of one second. *)
Definition core_negative_speed : Core :=
  update libm_table
    (update libm_table
       (snd (startMoveImmediate
               (construct libm_table (of_bits 0x3f666666) (of_bits 0x3cf5c28f)
                          (fneg (of_int 60)))
               "R"))
       fone)
    fone.

(** ** Matrices up to the sign of zero

    [glm::mat4] values are compared with [==] on floats, which identifies
    the two zeros.  The relations below are used to follow the product
    [T1 * R * T2 * baseModel] of [getStickerModelMatrices]. *)

(** Equality of floats up to the sign of zero. *)
Definition feq (a b : float) : Prop :=
  a = b \/ (is_zero a = true /\ is_zero b = true).

(** A finite float in canonical form. *)
Definition okf (a : float) : Prop := valid a = true /\ is_finite a = true.

Definition v4_feq (a b : vec4) : Prop :=
  feq (x4 a) (x4 b) /\ feq (y4 a) (y4 b) /\ feq (z4 a) (z4 b) /\ feq (w4 a) (w4 b).
Definition m4_feq (a b : mat4) : Prop :=
  v4_feq (col0 a) (col0 b) /\ v4_feq (col1 a) (col1 b) /\
  v4_feq (col2 a) (col2 b) /\ v4_feq (col3 a) (col3 b).
Definition v4_ok (a : vec4) : Prop := okf (x4 a) /\ okf (y4 a) /\ okf (z4 a) /\ okf (w4 a).
Definition m4_ok (a : mat4) : Prop :=
  v4_ok (col0 a) /\ v4_ok (col1 a) /\ v4_ok (col2 a) /\ v4_ok (col3 a).
Definition v3_ok (a : vec3) : Prop := okf (x3 a) /\ okf (y3 a) /\ okf (z3 a).

(** The translation matrix that [glm::translate] aims at. *)
Definition translation (v : vec3) : mat4 :=
  Mat4 (Vec4 fone fzero fzero fzero) (Vec4 fzero fone fzero fzero)
       (Vec4 fzero fzero fone fzero) (Vec4 (x3 v) (y3 v) (z3 v) fone).

(** The sum of four products, as [mat4_mul_col] forms each component. *)
Definition dot4 (a0 a1 a2 a3 b0 b1 b2 b3 : float) : float :=
  fadd (fadd (fadd (fmul a0 b0) (fmul a1 b1)) (fmul a2 b2)) (fmul a3 b3).

(** The matrix all of whose entries are NaN. *)
Definition nan4 : vec4 := Vec4 S754_nan S754_nan S754_nan S754_nan.
Definition mat4_nan : mat4 := Mat4 nan4 nan4 nan4 nan4.

(** [Core core(0.9f, 0.03f, 720.0f); core.queueMove(" "); core.update(0.0f);]
    for a math library [L]. *)
Definition blankStarted (L : libm) : Core :=
  update L (snd (queueMove (construct L (of_bits 0x3f666666) (of_bits 0x3cf5c28f)
                                      (of_bits 0x44340000)) " ")) fzero.

(** The stickers of the slice z = 0, the ones that [getStickerModelMatrices]
    selects when the axis of the animation is the zero vector and its layer
    is 0. *)
Definition middleSlice (c : Core) : list Sticker :=
  filter (fun s => iz (cubePos s) =? 0) (m_stickers c).

(** [Core core(0.9f, 0.03f, 720.0f); core.startMoveImmediate("R");] *)
Definition core0_started_R : Core := snd (startMoveImmediate core0 "R").


(** ** Notions for the algebra of the turns *)

(** [n] quarter turns of the places of layer [lay] about [ax]. *)
Definition turnPlaceN (ax : vec3) (lay : Z) (n : nat) (pl : place) : place :=
  if axisCoord ax (fst pl) =? lay
  then (Nat.iter n (quarterTurn (axisIndex ax)) (fst pl),
        Nat.iter n (quarterTurn (axisIndex ax)) (snd pl))
  else pl.

(** The places of the stickers of a core. *)
Definition places (c : Core) : list place := map placeOf (m_stickers c).

(** The base model of every sticker is the one that [rebuildBaseModel]
    computes from its position and normal. *)
Definition inSync (L : libm) (c : Core) : Prop :=
  Forall (fun s => rebuildBaseModel L c s = s) (m_stickers c).

(** The number of stickers whose position or normal differs between two
    sticker lists. *)
Definition movedCount (st st' : list Sticker) : nat :=
  List.length (filter (fun p => negb (place_eqb (placeOf (fst p)) (placeOf (snd p))))
                      (combine st st')).

(** ** Notions for the invariants of the reachable states *)

(** [parseMove] returns true. *)
Definition parses (move : string) : bool :=
  match parseMove move with
  | Some _ => true
  | None => false
  end.

(** The axis and layer that [startParsedMove] can set: those of the six
    faces, and the zero axis with layer 0 of any other face character. *)
Definition facePairs : list (vec3 * Z) :=
  [(Vec3 fzero fone fzero, 1); (Vec3 fzero fone fzero, -1);
   (Vec3 fzero fzero fone, 1); (Vec3 fzero fzero fone, -1);
   (Vec3 fone fzero fzero, 1); (Vec3 fone fzero fzero, -1);
   (Vec3 fzero fzero fzero, 0)].

(** The shape of the animation state: idle at angle zero, or active with
    the target angle, axis and layer of some parsed move. *)
Definition animShape (a : Anim) : Prop :=
  (active a = false -> currentAngle a = fzero) /\
  (active a = true ->
   In (targetAngle a) turnAngles /\ In (axis a, layer a) facePairs).

(** What every operation keeps, for a core constructed with the given
    parameters. *)
Definition reachInvariant (L : libm) (cubieSize gap speed : float) (c : Core) : Prop :=
  (m_cubieSize c = cubieSize /\ m_gap c = gap /\ m_spacing c = fadd cubieSize gap /\
   speedDeg (m_anim c) = speed) /\
  (List.length (m_stickers c) = 54%nat /\ inSync L c) /\
  forallb parses (m_queue c) = true /\
  animShape (m_anim c).

(** ** Notions for the geometry of the stickers *)

Definition idot (a b : ivec3) : Z := ix a * ix b + iy a * iy b + iz a * iz b.

(** A place on the surface of the 3x3x3 cube, facing outward: the normal is
    one of the six directions, the position has components in {-1,0,1} and
    its coordinate along the normal is the outer one. *)
Definition outward (pl : place) : bool :=
  existsb (ivec3_eqb (snd pl)) sixDirections && ivec3_small (fst pl)
  && (idot (fst pl) (snd pl) =? 1).

Fixpoint nodupb (l : list place) : bool :=
  match l with
  | [] => true
  | a :: l' => negb (existsb (place_eqb a) l') && nodupb l'
  end.

(** The first three characters of a string. *)
Definition prefix3 (s : string) : string := substring 0 3 s.

(** The colour that [faceToColor] returns for a character that is not a
    face letter. *)
Definition grey : vec3 := Eval cbv in vec3_splat (of_bits 0x3e4ccccd).

(** ** The key callback and the loop of main.cpp *)

(** Constants of GLFW/glfw3.h. *)
Definition GLFW_PRESS : Z := 1.
Definition GLFW_MOD_SHIFT : Z := 0x0001.
Definition GLFW_MOD_CONTROL : Z := 0x0002.
Definition GLFW_KEY_SPACE : Z := 32.
Definition GLFW_KEY_B : Z := 66.
Definition GLFW_KEY_D : Z := 68.
Definition GLFW_KEY_F : Z := 70.
Definition GLFW_KEY_L : Z := 76.
Definition GLFW_KEY_R : Z := 82.
Definition GLFW_KEY_U : Z := 85.
Definition GLFW_KEY_ESCAPE : Z := 256.

(** What [keyCallback] reads and writes: the [Core] behind the user pointer
    of the window ([None] for a null pointer), the close flag of the window
    and the lines written to [std::cout]. *)
Record Window : Type := mkWindow {
  userPointer : option Core;
  shouldClose : bool;
  cout : list string
}.

(** The string that the lambda [push] builds. *)
Definition pushMove (face : ascii) (prime dbl : bool) : string :=
  let move := EmptyString in
  let move := (move ++ String face EmptyString)%string in
  let move := if dbl then (move ++ "2")%string else move in
  let move := if prime && negb dbl then (move ++ "'")%string else move in
  move.

(** The lambda [push] of [keyCallback]; the result of [queueMove] is not
    looked at. *)
Definition push (w : Window) (core : Core) (prime dbl : bool) (face : ascii) : Window :=
  let move := pushMove face prime dbl in
  let core := snd (queueMove core move) in
  mkWindow (Some core) (shouldClose w) (cout w ++ [("Queued move: " ++ move)%string]).

Definition keyCallback (w : Window) (key scancode action mods : Z) : Window :=
  if negb (action =? GLFW_PRESS) then w
  else
    match userPointer w with
    | None => w
    | Some core =>
        let prime := negb (Z.land mods GLFW_MOD_SHIFT =? 0) in
        let dbl := negb (Z.land mods GLFW_MOD_CONTROL =? 0) in
        if key =? GLFW_KEY_U then push w core prime dbl "U"
        else if key =? GLFW_KEY_D then push w core prime dbl "D"
        else if key =? GLFW_KEY_L then push w core prime dbl "L"
        else if key =? GLFW_KEY_R then push w core prime dbl "R"
        else if key =? GLFW_KEY_F then push w core prime dbl "F"
        else if key =? GLFW_KEY_B then push w core prime dbl "B"
        else if key =? GLFW_KEY_SPACE then
          mkWindow (Some (clearQueue core)) (shouldClose w) (cout w)
        else if key =? GLFW_KEY_ESCAPE then
          mkWindow (Some core) true (cout w)
        else w
    end.

(** What happens to the core in the loop of [main]: a frame calls
    [core.update(dt)], and [glfwPollEvents] delivers key events to
    [keyCallback]. *)
Inductive Event : Type :=
| EvFrame (dt : float)
| EvKey (key scancode action mods : Z).

Definition appStep (L : libm) (w : Window) (ev : Event) : Window :=
  match ev with
  | EvFrame dt =>
      match userPointer w with
      | Some core => mkWindow (Some (update L core dt)) (shouldClose w) (cout w)
      | None => w
      end
  | EvKey key scancode action mods => keyCallback w key scancode action mods
  end.

(** The window of [main] when its loop starts: the user pointer is the
    address of [Core core(0.9f, 0.03f, 720.0f)]. *)
Definition mainWindow (L : libm) : Window :=
  mkWindow (Some (construct L (of_bits 0x3f666666) (of_bits 0x3cf5c28f)
                            (of_bits 0x44340000)))
           false [].

(** A matrix whose sixteen entries are finite floats in canonical form. *)
Definition okfb (a : float) : bool := valid a && is_finite a.
Definition v4_okb (a : vec4) : bool :=
  okfb (x4 a) && okfb (y4 a) && okfb (z4 a) && okfb (w4 a).
Definition m4_okb (a : mat4) : bool :=
  v4_okb (col0 a) && v4_okb (col1 a) && v4_okb (col2 a) && v4_okb (col3 a).

(** ** Notions for the termination of an animation *)

(** [n] calls of [update] with the same time step. *)
Definition ticks (L : libm) (deltaSeconds : float) (n : nat) (c : Core) : Core :=
  Nat.iter n (fun c => update L c deltaSeconds) c.

(** The float 2^-16. *)
Definition f_2em16 : float := Eval cbv in of_bits 0x37800000.

(** ** Notions for the playback of queued moves *)

(** The face, amount and direction that [parseMove] returns for a move. *)
Definition parsedOf (move : string) : ParsedMove :=
  match parseMove move with
  | Some p => p
  | None => (Ascii.zero, 1, false)
  end.

(** The discrete mutations of a list of moves, in order. *)
Definition playMoves (L : libm) (c : Core) (moves : list string) : Core :=
  fold_left (fun c mv => completeMove L c (parsedOf mv)) moves c.

(** Two cores with the same stickers and the same geometry. *)
Definition sameBody (c d : Core) : Prop :=
  m_stickers c = m_stickers d /\ m_spacing c = m_spacing d /\
  m_cubieSize c = m_cubieSize d.

(** ** Notions for the base model *)

(** The position that [rebuildBaseModel] gives a sticker: its cubie's
    centre, moved along the normal to just outside the cubie's surface. *)
Definition stickerPos (c : Core) (s : Sticker) : vec3 :=
  let pos := v3_scale (vec3_of_ivec3 (cubePos s)) (m_spacing c) in
  let offset := fadd (fmul fhalf (m_cubieSize c)) f_0_001 in
  v3_add pos (v3_scale (vec3_of_ivec3 (normal s)) offset).

(** The quaternion that [rebuildBaseModel] chooses to turn the z direction
    to the sticker's normal. *)
Definition stickerQuat (L : libm) (s : Sticker) : quat :=
  let zDir := Vec3 fzero fzero fone in
  let n := normalize (vec3_of_ivec3 (normal s)) in
  if flt (length3 (cross zDir n)) f_1em4 then
    if fgt (dot zDir n) fzero then quat_identity
    else angleAxis L pi (Vec3 fzero fone fzero)
  else
    let angle := acosf L (clamp (dot zDir n) (fneg fone) fone) in
    let axis := normalize (cross zDir n) in
    angleAxis L angle axis.

Definition v3_okb (a : vec3) : bool := okfb (x3 a) && okfb (y3 a) && okfb (z3 a).

(** The stickers that [getStickerModelMatrices] animates: those whose
    coordinate along the axis of the animation is its layer. *)
Definition animatedStickers (c : Core) : list Sticker :=
  filter (fun s => axisCoord (axis (m_anim c)) (cubePos s) =? layer (m_anim c))
         (m_stickers c).

(** * Properties *)

(** ** Sanity checks of the binary32 layer *)

Example of_int_90 : of_int 90 = of_bits 0x42b40000.
Proof. reflexivity. Qed.

Example ulp_ball_one :
  ulp_ball 1 fone = [of_bits 0x3f7fffff; of_bits 0x3f800000; of_bits 0x3f800001].
Proof. vm_compute. reflexivity. Qed.

Example roundf_examples :
  roundf (of_bits 0x3f000000) = fone /\
  roundf (of_bits 0x3effffff) = fzero /\
  roundf (of_bits 0xbf7fffff) = fneg fone /\
  to_int (of_bits 0xc0200000) = -2.
Proof. vm_compute. repeat split. Qed.


(** ** Frame lemmas of the setters *)

Lemma startParsedMove_frame (c : Core) (face : ascii) (amount : Z) (prime : bool) :
  m_queue (startParsedMove c face amount prime) = m_queue c /\
  m_stickers (startParsedMove c face amount prime) = m_stickers c /\
  m_spacing (startParsedMove c face amount prime) = m_spacing c /\
  m_cubieSize (startParsedMove c face amount prime) = m_cubieSize c /\
  m_gap (startParsedMove c face amount prime) = m_gap c.
Proof.
  unfold startParsedMove.
  destruct (faceAxisLayer face); cbn; repeat split.
Qed.

Lemma startNextInQueue_stickers (c : Core) :
  m_stickers (startNextInQueue c) = m_stickers c.
Proof.
  unfold startNextInQueue.
  destruct (active (m_anim c)); [reflexivity|].
  destruct (m_queue c) as [|mv rest]; [reflexivity|].
  destruct (parseMove mv) as [[[face amount] prime]|]; [|reflexivity].
  now rewrite (proj1 (proj2 (startParsedMove_frame _ _ _ _))).
Qed.

(** ** clearQueue *)

(** C10.  [clearQueue] empties the move queue and leaves the animation
    state, every sticker and the geometry parameters as they are; a tick
    after it performs the same sticker mutation and the same angle advance
    as a tick without it, so a move that is animating runs to completion. *)
Theorem clearQueue_frame (L : libm) (c : Core) (dt : float) :
  m_queue (clearQueue c) = [] /\
  m_anim (clearQueue c) = m_anim c /\
  m_stickers (clearQueue c) = m_stickers c /\
  m_cubieSize (clearQueue c) = m_cubieSize c /\
  m_gap (clearQueue c) = m_gap c /\
  m_spacing (clearQueue c) = m_spacing c /\
  m_stickers (update L (clearQueue c) dt) = m_stickers (update L c dt) /\
  m_anim (update L (clearQueue c) dt) =
    (if active (m_anim c) then
       if animationDone (m_anim c) (advancedAngle (m_anim c) dt)
       then mkAnim false (axis (m_anim c)) (layer (m_anim c))
                   (targetAngle (m_anim c)) fzero (speedDeg (m_anim c))
       else set_currentAngle (m_anim c) (advancedAngle (m_anim c) dt)
     else m_anim c).
Proof.
  repeat split; try reflexivity.
  - unfold update.
    change (m_anim (clearQueue c)) with (m_anim c).
    change (m_queue (clearQueue c)) with (@nil string).
    destruct (active (m_anim c)) eqn:Ha.
    + destruct (animationDone (m_anim c) (advancedAngle (m_anim c) dt)).
      * now rewrite !startNextInQueue_stickers.
      * reflexivity.
    + destruct (m_queue c); [reflexivity|].
      now rewrite startNextInQueue_stickers.
  - unfold update.
    change (m_anim (clearQueue c)) with (m_anim c).
    change (m_queue (clearQueue c)) with (@nil string).
    destruct (active (m_anim c)) eqn:Ha; [|reflexivity].
    destruct (animationDone (m_anim c) (advancedAngle (m_anim c) dt)); [|reflexivity].
    unfold startNextInQueue. reflexivity.
Qed.

Lemma startParsedMove_anim (c : Core) (face : ascii) (amount : Z) (prime : bool) :
  m_anim (startParsedMove c face amount prime) =
  mkAnim true (fst (faceAxisLayer face)) (snd (faceAxisLayer face))
         (moveAngle amount prime) fzero (speedDeg (m_anim c)).
Proof.
  unfold startParsedMove. now destruct (faceAxisLayer face).
Qed.

(** ** startMoveImmediate on a symbol that does not parse *)

Lemma startMoveImmediate_None (c : Core) (move : string) :
  parseMove move = None -> startMoveImmediate c move = (false, clearQueue c).
Proof.
  intros H. unfold startMoveImmediate. now rewrite H.
Qed.

(** C1, as stated, fails: with "R" in the queue, [startMoveImmediate] on the
    unparseable symbol "X" returns false and has emptied the queue. *)
Lemma startMoveImmediate_unparseable_counterexample :
  parseMove "X" = None /\
  fst (startMoveImmediate core0_queued_R "X") = false /\
  m_queue core0_queued_R = ["R"%string] /\
  m_queue (snd (startMoveImmediate core0_queued_R "X")) = [] /\
  snd (startMoveImmediate core0_queued_R "X") <> core0_queued_R.
Proof.
  assert (Hp : parseMove "X" = None) by reflexivity.
  rewrite (startMoveImmediate_None core0_queued_R "X" Hp).
  repeat split.
  intros Heq. apply (f_equal m_queue) in Heq. discriminate Heq.
Qed.

(** C1, amended.  For every symbol that does not parse,
    [startMoveImmediate] returns false, leaves the animation state, every
    sticker and the geometry parameters unchanged, and leaves the move queue
    empty. *)
Theorem startMoveImmediate_unparseable (c : Core) (move : string) :
  parseMove move = None ->
  fst (startMoveImmediate c move) = false /\
  m_queue (snd (startMoveImmediate c move)) = [] /\
  m_anim (snd (startMoveImmediate c move)) = m_anim c /\
  m_stickers (snd (startMoveImmediate c move)) = m_stickers c /\
  m_cubieSize (snd (startMoveImmediate c move)) = m_cubieSize c /\
  m_gap (snd (startMoveImmediate c move)) = m_gap c /\
  m_spacing (snd (startMoveImmediate c move)) = m_spacing c.
Proof.
  intros H. rewrite (startMoveImmediate_None c move H). repeat split.
Qed.

Lemma startMoveImmediate_unparseable_witness :
  parseMove "X" = None /\
  fst (startMoveImmediate core0_queued_R "X") = false /\
  m_queue (snd (startMoveImmediate core0_queued_R "X")) = [] /\
  m_anim (snd (startMoveImmediate core0_queued_R "X")) = m_anim core0_queued_R /\
  m_stickers (snd (startMoveImmediate core0_queued_R "X")) = m_stickers core0_queued_R /\
  m_cubieSize (snd (startMoveImmediate core0_queued_R "X")) = m_cubieSize core0_queued_R /\
  m_gap (snd (startMoveImmediate core0_queued_R "X")) = m_gap core0_queued_R /\
  m_spacing (snd (startMoveImmediate core0_queued_R "X")) = m_spacing core0_queued_R.
Proof.
  split; [reflexivity|].
  apply (startMoveImmediate_unparseable core0_queued_R "X"). reflexivity.
Defined.

(** ** parseMove and queueMove *)

Ltac ascii_cases a := destruct a as [[] [] [] [] [] [] [] []].

Lemma isspace_isBlank (a : ascii) : isspace a = isBlank a.
Proof. ascii_cases a; reflexivity. Qed.

Lemma stripSpaces_cons (a : ascii) (s : string) :
  stripSpaces (String a s) =
  if isBlank a then stripSpaces s else String a (stripSpaces s).
Proof.
  unfold stripSpaces. cbn [list_ascii_of_string filter].
  rewrite isspace_isBlank. now destruct (isBlank a).
Qed.

Lemma char_at_stripSpaces (s : string) :
  char_at (stripSpaces s) 0 =
  match firstNonBlank s with Some a => a | None => Ascii.zero end.
Proof.
  induction s as [|a s IH]; [reflexivity|].
  rewrite stripSpaces_cons. cbn [firstNonBlank].
  destruct (isBlank a); [exact IH | reflexivity].
Qed.

Lemma parseMove_reject_empty : parseMove "" = None.
Proof. reflexivity. Qed.

Lemma size_nonempty (a : ascii) (s : string) : (size (String a s) =? 0) = false.
Proof. unfold size. cbn [String.length]. apply Z.eqb_neq. lia. Qed.

Lemma parseMove_reject (move : string) :
  strchr "UDLRFB" (toupper (char_at (stripSpaces move) 0)) = None ->
  parseMove move = None.
Proof.
  intros H. unfold parseMove. rewrite H. now destruct (size move =? 0).
Qed.

Lemma parseMove_accept (a : ascii) (s : string) :
  strchr "UDLRFB" (toupper (char_at (stripSpaces (String a s)) 0)) <> None ->
  exists amount prime,
    parseMove (String a s) =
    Some (toupper (char_at (stripSpaces (String a s)) 0), amount, prime).
Proof.
  intros H. unfold parseMove. rewrite size_nonempty.
  destruct (strchr "UDLRFB" (toupper (char_at (stripSpaces (String a s)) 0)));
    [|congruence].
  repeat match goal with |- context [if ?b then _ else _] => destruct b end;
    eexists; eexists; reflexivity.
Qed.

Lemma face_letter_found (a : ascii) :
  isFaceLetterAnyCase a = true -> strchr "UDLRFB" (toupper a) <> None.
Proof. ascii_cases a; cbv; congruence. Qed.

Lemma other_char_not_found (a : ascii) :
  isFaceLetterAnyCase a = false -> a <> Ascii.zero ->
  strchr "UDLRFB" (toupper a) = None.
Proof. ascii_cases a; cbv; congruence. Qed.

Lemma isFaceLetter_any_case (a : ascii) :
  isFaceLetter a = true -> isFaceLetterAnyCase a = true /\ isBlank a = false.
Proof. ascii_cases a; cbv; intuition congruence. Qed.

Lemma matchesMovePattern_first (s : string) :
  matchesMovePattern s = true ->
  exists a, firstNonBlank s = Some a /\ isFaceLetterAnyCase a = true.
Proof.
  destruct s as [|f s]; [discriminate|].
  intros H. exists f.
  assert (Hf : isFaceLetter f = true).
  { cbn [matchesMovePattern] in H. destruct s as [|m [|? ?]];
      [exact H | | discriminate].
    now apply andb_true_iff in H. }
  apply isFaceLetter_any_case in Hf. destruct Hf as [Hf Hb].
  cbn [firstNonBlank]. now rewrite Hb.
Qed.

Lemma queueMove_accepts (c : Core) (move : string) (a : ascii) :
  firstNonBlank move = Some a -> isFaceLetterAnyCase a = true ->
  queueMove c move = (true, set_queue c (m_queue c ++ [move])).
Proof.
  intros Hfirst Hface.
  destruct move as [|b s]; [discriminate|].
  destruct (parseMove_accept b s) as (amount & prime & Hp).
  - rewrite char_at_stripSpaces, Hfirst. now apply face_letter_found.
  - unfold queueMove. now rewrite Hp.
Qed.

(** C2, as stated, fails: "R2'" does not match [UDLRFB]('|2)?, and so do
    "u" and "U3", yet [queueMove] returns true and the queue grows by one. *)
Lemma queueMove_pattern_counterexample :
  matchesMovePattern "R2'" = false /\
  fst (queueMove core0 "R2'") = true /\
  List.length (m_queue (snd (queueMove core0 "R2'"))) = S (List.length (m_queue core0)) /\
  matchesMovePattern "u" = false /\ fst (queueMove core0 "u") = true /\
  matchesMovePattern "U3" = false /\ fst (queueMove core0 "U3") = true.
Proof. repeat split. Qed.

(** C2, amended.  If the first character of the string that is not white
    space is one of the letters U, D, L, R, F, B in either case (every string
    matching [UDLRFB]('|2)? is of this kind), [queueMove] returns true and
    appends the string to the queue, whose length grows by exactly 1.  If the
    string is empty, or its first character that is not white space is
    neither NUL nor one of those letters, [queueMove] returns false and the
    core, its queue included, is unchanged. *)
Theorem queueMove_spec (c : Core) (move : string) :
  (matchesMovePattern move = true ->
     queueMove c move = (true, set_queue c (m_queue c ++ [move]))) /\
  (forall a, firstNonBlank move = Some a -> isFaceLetterAnyCase a = true ->
     queueMove c move = (true, set_queue c (m_queue c ++ [move])) /\
     List.length (m_queue (snd (queueMove c move))) = S (List.length (m_queue c))) /\
  (move = EmptyString -> queueMove c move = (false, c)) /\
  (forall a, firstNonBlank move = Some a -> isFaceLetterAnyCase a = false ->
     a <> Ascii.zero -> queueMove c move = (false, c)).
Proof.
  repeat split.
  - intros H. destruct (matchesMovePattern_first move H) as (a & Ha & Hf).
    now apply (queueMove_accepts c move a).
  - now apply (queueMove_accepts c move a).
  - rewrite (queueMove_accepts c move a) by assumption.
    cbn [snd set_queue m_queue]. rewrite length_app. cbn. lia.
  - intros ->. reflexivity.
  - intros a Hfirst Hface Hnul. unfold queueMove.
    rewrite parseMove_reject; [reflexivity|].
    rewrite char_at_stripSpaces, Hfirst. now apply other_char_not_found.
Qed.

Lemma queueMove_spec_witness :
  (matchesMovePattern "R'" = true /\
   queueMove core0 "R'" = (true, set_queue core0 (m_queue core0 ++ ["R'"%string]))) /\
  (firstNonBlank " u2" = Some "u"%char /\ isFaceLetterAnyCase "u" = true /\
   queueMove core0 " u2" = (true, set_queue core0 (m_queue core0 ++ [" u2"%string])) /\
   List.length (m_queue (snd (queueMove core0 " u2"))) = S (List.length (m_queue core0))) /\
  queueMove core0 "" = (false, core0) /\
  (firstNonBlank " X" = Some "X"%char /\ isFaceLetterAnyCase "X" = false /\
   "X"%char <> Ascii.zero /\ queueMove core0 " X" = (false, core0)).
Proof.
  split; [|split; [|split]].
  - split; [reflexivity|].
    apply (proj1 (queueMove_spec core0 "R'")). reflexivity.
  - split; [reflexivity|]. split; [reflexivity|].
    apply (proj1 (proj2 (queueMove_spec core0 " u2")) "u"%char); reflexivity.
  - apply (proj1 (proj2 (proj2 (queueMove_spec core0 "")))). reflexivity.
  - split; [reflexivity|]. split; [reflexivity|]. split; [discriminate|].
    apply (proj2 (proj2 (proj2 (queueMove_spec core0 " X"))) "X"%char);
      [reflexivity | reflexivity | discriminate].
Defined.

(** ** Symbols of quarter and half turns *)

Lemma parseMove_face_symbols (face : ascii) :
  In face FACE_ORDER ->
  parseMove (String face "") = Some (face, 1, false) /\
  parseMove (String face "'") = Some (face, 1, true) /\
  parseMove (String face "2") = Some (face, 2, false) /\
  parseMove (String face "2'") = Some (face, 2, true).
Proof.
  intros H. cbn in H.
  repeat (destruct H as [<- | H]; [repeat split|]). contradiction.
Qed.

Lemma moveAngle_values :
  moveAngle 1 false = of_int 90 /\ moveAngle 1 true = fneg (of_int 90) /\
  moveAngle 2 false = of_int 180 /\ moveAngle 2 true = of_int 180.
Proof. repeat split. Qed.

Lemma startMoveImmediate_Some (c : Core) (move : string) face amount prime :
  parseMove move = Some (face, amount, prime) ->
  startMoveImmediate c move = (true, startParsedMove (clearQueue c) face amount prime).
Proof.
  intros H. unfold startMoveImmediate. now rewrite H.
Qed.

Lemma update_idle_singleton (L : libm) (c : Core) (move : string) (dt : float)
      face amount prime :
  active (m_anim c) = false -> m_queue c = [] ->
  parseMove move = Some (face, amount, prime) ->
  update L (snd (queueMove c move)) dt = startParsedMove c face amount prime.
Proof.
  intros Ha Hq Hp. unfold queueMove. rewrite Hp. cbn [snd].
  unfold update. cbn [m_anim set_queue]. rewrite Ha, Hq. cbn [app m_queue].
  unfold startNextInQueue. cbn [m_anim m_queue set_queue]. rewrite Ha, Hp.
  destruct c; cbn in *. now subst.
Qed.

(** C6.  For every face letter X of U, D, L, R, F, B the symbols "X2" and
    "X2'" are both accepted and both start an animation whose target angle
    is +180 degrees: the prime flag is parsed on "X2'" and has no effect on
    the angle.  "X" gives +90 and "X'" gives -90.  This holds for a move
    started by [startMoveImmediate] and for a move taken from the queue by
    [update] on an idle core. *)
Theorem double_turn_angle (L : libm) (c : Core) (dt : float) (face : ascii) :
  In face FACE_ORDER ->
  let started (sym : string) := snd (startMoveImmediate c sym) in
  let dequeued (sym : string) := update L (snd (queueMove (clearQueue c) sym)) dt in
  let starts (sym : string) (angle : float) :=
    fst (startMoveImmediate c sym) = true /\
    fst (queueMove c sym) = true /\
    active (m_anim (started sym)) = true /\
    targetAngle (m_anim (started sym)) = angle /\
    (active (m_anim c) = false ->
     active (m_anim (dequeued sym)) = true /\
     targetAngle (m_anim (dequeued sym)) = angle) in
  parseMove (String face "2") = Some (face, 2, false) /\
  parseMove (String face "2'") = Some (face, 2, true) /\
  starts (String face "2") (of_int 180) /\
  starts (String face "2'") (of_int 180) /\
  starts (String face "") (of_int 90) /\
  starts (String face "'") (fneg (of_int 90)).
Proof.
  intros Hface started dequeued starts.
  destruct (parseMove_face_symbols face Hface) as (P1 & P1' & P2 & P2').
  destruct moveAngle_values as (A1 & A1' & A2 & A2').
  assert (Hgen : forall sym amount prime angle,
             parseMove sym = Some (face, amount, prime) ->
             moveAngle amount prime = angle -> starts sym angle).
  { intros sym amount prime angle Hp Hang. unfold starts, started, dequeued.
    rewrite (startMoveImmediate_Some c sym face amount prime Hp).
    cbn [fst snd]. rewrite startParsedMove_anim. cbn [active targetAngle].
    unfold queueMove at 1. rewrite Hp. cbn [fst].
    repeat split; try assumption.
    - rewrite (update_idle_singleton L (clearQueue c) sym dt face amount prime);
        [| assumption | reflexivity | assumption].
      now rewrite startParsedMove_anim.
    - rewrite (update_idle_singleton L (clearQueue c) sym dt face amount prime);
        [| assumption | reflexivity | assumption].
      now rewrite startParsedMove_anim. }
  repeat split; try assumption; eapply Hgen; eassumption.
Qed.

Lemma double_turn_angle_witness :
  In "R"%char FACE_ORDER /\
  targetAngle (m_anim (snd (startMoveImmediate core0 "R2'"))) = of_int 180 /\
  targetAngle (m_anim (snd (startMoveImmediate core0 "R2"))) = of_int 180 /\
  targetAngle (m_anim (snd (startMoveImmediate core0 "R"))) = of_int 90 /\
  targetAngle (m_anim (snd (startMoveImmediate core0 "R'"))) = fneg (of_int 90).
Proof.
  assert (H : In "R"%char FACE_ORDER) by (cbn; tauto).
  split; [exact H|].
  pose proof (double_turn_angle libm_table core0 fzero "R"%char H) as T.
  cbv zeta in T.
  destruct T as (_ & _ & T2 & T2' & T1 & T1').
  exact (conj (proj1 (proj2 (proj2 (proj2 T2'))))
          (conj (proj1 (proj2 (proj2 (proj2 T2))))
             (conj (proj1 (proj2 (proj2 (proj2 T1))))
                (proj1 (proj2 (proj2 (proj2 T1'))))))).
Defined.

(** ** A string of white space *)

Lemma stripSpaces_allBlank (s : string) :
  allBlank s = true -> stripSpaces s = EmptyString.
Proof.
  induction s as [|a s IH]; [reflexivity|].
  unfold allBlank. cbn [list_ascii_of_string forallb].
  intros H. apply andb_true_iff in H. destruct H as [Ha Hs].
  rewrite stripSpaces_cons, Ha. now apply IH.
Qed.

Lemma parseMove_allBlank (move : string) :
  move <> EmptyString -> allBlank move = true ->
  parseMove move = Some (Ascii.zero, 1, false).
Proof.
  intros Hne Hb. destruct move as [|a s]; [congruence|].
  unfold parseMove. rewrite size_nonempty.
  rewrite (stripSpaces_allBlank _ Hb). reflexivity.
Qed.

(** C9.  A non-empty string of white space is accepted as a move:
    [parseMove] strips it to the empty string, reads the NUL character at
    index 0, finds it in "UDLRFB" at the position of the terminator and
    succeeds with amount 1 and no prime; [queueMove] returns true and appends
    the string.  When that move is taken from the queue, the animation
    becomes active with the zero vector as axis, layer 0 and target 90;
    [applyRotationDiscrete] and [getStickerModelMatrices] then normalise
    that axis, which gives a vector of three NaN. *)
Theorem blank_move_accepted (L : libm) (c : Core) (move : string) :
  move <> EmptyString -> allBlank move = true ->
  stripSpaces move = EmptyString /\
  char_at EmptyString 0 = Ascii.zero /\
  toupper Ascii.zero = Ascii.zero /\
  strchr "UDLRFB" Ascii.zero = Some 6%nat /\
  parseMove move = Some (Ascii.zero, 1, false) /\
  queueMove c move = (true, set_queue c (m_queue c ++ [move])) /\
  (forall rest, active (m_anim c) = false ->
     m_anim (startNextInQueue (set_queue c (move :: rest))) =
       mkAnim true zero3 0 (of_int 90) fzero (speedDeg (m_anim c)) /\
     m_queue (startNextInQueue (set_queue c (move :: rest))) = rest) /\
  normalize zero3 = nan3 /\
  (forall angleDeg,
     applyRotationDiscrete L c zero3 0 angleDeg =
       let q := angleAxis L (radians angleDeg) nan3 in
       let c1 := set_stickers c (map (rotateSticker q zero3 0) (m_stickers c)) in
       set_stickers c1 (map (rebuildBaseModel L c1) (m_stickers c1))) /\
  (forall s, active (m_anim c) = true -> axis (m_anim c) = zero3 ->
     layer (m_anim c) = 0 -> iz (cubePos s) = 0 ->
     stickerModelMatrix L c s =
       let centre := v3_scale (v3_scale zero3 (of_int 0)) (m_spacing c) in
       mat4_mul
         (mat4_mul
            (mat4_mul (translate mat4_identity centre)
                      (toMat4 (angleAxis L (radians (currentAngle (m_anim c))) nan3)))
            (translate mat4_identity (v3_neg centre)))
         (baseModel s)).
Proof.
  intros Hne Hb.
  pose proof (parseMove_allBlank move Hne Hb) as Hp.
  split; [now apply stripSpaces_allBlank|].
  do 3 (split; [reflexivity|]).
  split; [exact Hp|].
  split; [unfold queueMove; now rewrite Hp|].
  split.
  { intros rest Ha. unfold startNextInQueue.
    cbn [m_anim m_queue set_queue]. rewrite Ha, Hp.
    rewrite startParsedMove_anim.
    now rewrite (proj1 (startParsedMove_frame _ _ _ _)). }
  split; [reflexivity|].
  split; [reflexivity|].
  intros s Ha Hax Hl Hz. unfold stickerModelMatrix.
  rewrite Ha, Hax, Hl. cbn [negb].
  replace (axisCoord zero3 (cubePos s)) with (iz (cubePos s)) by reflexivity.
  rewrite Hz. reflexivity.
Qed.

Lemma blank_move_accepted_witness :
  " "%string <> EmptyString /\ allBlank " " = true /\
  parseMove " " = Some (Ascii.zero, 1, false) /\
  queueMove core0 " " = (true, set_queue core0 (m_queue core0 ++ [" "%string])).
Proof.
  assert (H1 : " "%string <> EmptyString) by discriminate.
  assert (H2 : allBlank " " = true) by reflexivity.
  pose proof (blank_move_accepted libm_table core0 " " H1 H2) as T.
  exact (conj H1 (conj H2
           (conj (proj1 (proj2 (proj2 (proj2 (proj2 T)))))
                 (proj1 (proj2 (proj2 (proj2 (proj2 (proj2 T))))))))).
Defined.

(** ** Colours *)

Lemma rebuildBaseModel_fields (L : libm) (c : Core) (s : Sticker) :
  cubePos (rebuildBaseModel L c s) = cubePos s /\
  normal (rebuildBaseModel L c s) = normal s /\
  color (rebuildBaseModel L c s) = color s.
Proof. repeat split. Qed.

Lemma rotateSticker_color (q : quat) (ax : vec3) (lay : Z) (s : Sticker) :
  color (rotateSticker q ax lay s) = color s.
Proof.
  unfold rotateSticker. now destruct (negb (axisCoord ax (cubePos s) =? lay)).
Qed.

Lemma applyRotationDiscrete_colors (L : libm) (c : Core) ax lay angleDeg :
  map color (m_stickers (applyRotationDiscrete L c ax lay angleDeg)) =
  map color (m_stickers c).
Proof.
  unfold applyRotationDiscrete. cbn [m_stickers set_stickers].
  rewrite !map_map. apply map_ext. intros s.
  cbn [color rebuildBaseModel]. apply rotateSticker_color.
Qed.

Lemma applyRotationDiscrete_frame (L : libm) (c : Core) ax lay angleDeg :
  m_anim (applyRotationDiscrete L c ax lay angleDeg) = m_anim c /\
  m_queue (applyRotationDiscrete L c ax lay angleDeg) = m_queue c /\
  m_spacing (applyRotationDiscrete L c ax lay angleDeg) = m_spacing c /\
  m_cubieSize (applyRotationDiscrete L c ax lay angleDeg) = m_cubieSize c /\
  m_gap (applyRotationDiscrete L c ax lay angleDeg) = m_gap c.
Proof. repeat split. Qed.

Lemma update_colors (L : libm) (c : Core) (dt : float) :
  map color (m_stickers (update L c dt)) = map color (m_stickers c).
Proof.
  unfold update.
  destruct (active (m_anim c)).
  - destruct (animationDone (m_anim c) (advancedAngle (m_anim c) dt)); [|reflexivity].
    rewrite startNextInQueue_stickers. cbn [m_stickers set_anim].
    now rewrite applyRotationDiscrete_colors.
  - destruct (m_queue c); [reflexivity|].
    now rewrite startNextInQueue_stickers.
Qed.

Lemma step_colors (L : libm) (c : Core) (o : Op) :
  map color (m_stickers (step L c o)) = map color (m_stickers c).
Proof.
  destruct o as [dt | mv | mv |]; cbn [step].
  - apply update_colors.
  - unfold queueMove. now destruct (parseMove mv).
  - unfold startMoveImmediate.
    destruct (parseMove mv) as [[[face amount] prime]|]; [|reflexivity].
    cbn [snd]. now rewrite (proj1 (proj2 (startParsedMove_frame _ _ _ _))).
  - reflexivity.
Qed.

Lemma run_colors (L : libm) (ops : list Op) (c : Core) :
  getStickerColors (run L c ops) = getStickerColors c.
Proof.
  unfold run, getStickerColors. revert c.
  induction ops as [|o ops IH]; intros c; [reflexivity|].
  cbn [fold_left]. rewrite IH. apply step_colors.
Qed.

Lemma construct_colors (L : libm) (cubieSize gap speed : float) :
  getStickerColors (construct L cubieSize gap speed) =
  flat_map (fun face => repeat (faceToColor face) 9) FACE_ORDER.
Proof. reflexivity. Qed.

(** C7.  After every sequence of operations on a constructed core,
    [getStickerColors] returns the 54 colours it returns right after
    construction: nine times the colour of each of the faces U, R, F, D, L,
    B in this order, where U is white, R green, F red, D yellow, L blue and
    B orange. *)
Theorem colors_never_change (L : libm) (cubieSize gap speed : float)
        (ops : list Op) :
  getStickerColors (run L (construct L cubieSize gap speed) ops) =
    getStickerColors (construct L cubieSize gap speed) /\
  getStickerColors (run L (construct L cubieSize gap speed) ops) =
    repeat white 9 ++ repeat green 9 ++ repeat red 9 ++
    repeat yellow 9 ++ repeat blue 9 ++ repeat orange 9 /\
  List.length (getStickerColors (run L (construct L cubieSize gap speed) ops)) = 54%nat /\
  faceToColor "U" = white /\ faceToColor "R" = green /\ faceToColor "F" = red /\
  faceToColor "D" = yellow /\ faceToColor "L" = blue /\ faceToColor "B" = orange.
Proof.
  rewrite run_colors, construct_colors. repeat split.
Qed.

(** ** The rounded quaternion rotation is the exact integer turn *)

Lemma ivec3_eqb_eq (a b : ivec3) : ivec3_eqb a b = true <-> a = b.
Proof.
  destruct a as [a1 a2 a3], b as [b1 b2 b3]. unfold ivec3_eqb. cbn.
  rewrite !andb_true_iff, !Z.eqb_eq. split.
  - intros [[-> ->] ->]. reflexivity.
  - intros H. injection H as -> -> ->. auto.
Qed.

Lemma ivec3_small_In (v : ivec3) : ivec3_small v = true <-> In v smallVectors.
Proof.
  unfold ivec3_small. rewrite existsb_exists. split.
  - intros (w & Hw & He). apply ivec3_eqb_eq in He. now subst.
  - intros H. exists v. split; [assumption | now apply ivec3_eqb_eq].
Qed.

Lemma rotationExactBall_90 : rotationExactBall f_90 sin_half_90 cos_half_90 = true.
Proof. vm_compute. reflexivity. Qed.

Lemma rotationExactBall_m90 : rotationExactBall f_m90 sin_half_m90 cos_half_m90 = true.
Proof. vm_compute. reflexivity. Qed.

Lemma rotationExactBall_180 : rotationExactBall f_180 sin_half_180 cos_half_180 = true.
Proof. vm_compute. reflexivity. Qed.

Lemma rotationExactBall_use (angleDeg sref cref s c : float) (ax : vec3) (v : ivec3) :
  rotationExactBall angleDeg sref cref = true ->
  In s (ulp_ball libm_ulps sref) -> In c (ulp_ball libm_ulps cref) ->
  In ax unitAxes -> In v smallVectors ->
  ivec3_of_rounded
    (round3 (quat_rotate (quat_of_sin_cos s c (normalize ax)) (vec3_of_ivec3 v))) =
  turnVector ax angleDeg v.
Proof.
  unfold rotationExactBall, rotationExact. intros H Hs Hc Hax Hv.
  rewrite forallb_forall in H. specialize (H s Hs).
  rewrite forallb_forall in H. specialize (H c Hc).
  rewrite forallb_forall in H. specialize (H ax Hax).
  rewrite forallb_forall in H. specialize (H v Hv).
  now apply ivec3_eqb_eq.
Qed.

Lemma rotate_exact (L : libm) (ax : vec3) (angleDeg : float) (v : ivec3) :
  libm_accurate L -> In ax unitAxes -> In angleDeg turnAngles ->
  In v smallVectors ->
  ivec3_of_rounded
    (round3 (quat_rotate (angleAxis L (radians angleDeg) (normalize ax))
                         (vec3_of_ivec3 v))) =
  turnVector ax angleDeg v.
Proof.
  intros (Hs90 & Hc90 & Hsm & Hcm & Hs180 & Hc180 & _) Hax Hang Hv.
  unfold angleAxis. fold (half_of angleDeg).
  destruct Hang as [<- | [<- | [<- | []]]].
  - now apply (rotationExactBall_use f_90 sin_half_90 cos_half_90);
      [apply rotationExactBall_90 | ..].
  - now apply (rotationExactBall_use f_m90 sin_half_m90 cos_half_m90);
      [apply rotationExactBall_m90 | ..].
  - now apply (rotationExactBall_use f_180 sin_half_180 cos_half_180);
      [apply rotationExactBall_180 | ..].
Qed.

Lemma stickerSmall_In (s : Sticker) :
  stickerSmall s = true ->
  In (cubePos s) smallVectors /\ In (normal s) smallVectors.
Proof.
  unfold stickerSmall, placeSmall, placeOf. cbn [fst snd].
  rewrite andb_true_iff, !ivec3_small_In. tauto.
Qed.

Lemma rotateSticker_place (L : libm) (ax : vec3) (lay : Z) (angleDeg : float)
      (s : Sticker) :
  libm_accurate L -> In ax unitAxes -> In angleDeg turnAngles ->
  stickerSmall s = true ->
  placeOf (rotateSticker (angleAxis L (radians angleDeg) (normalize ax)) ax lay s) =
  turnPlace ax lay angleDeg (placeOf s).
Proof.
  intros HL Hax Hang Hs. apply stickerSmall_In in Hs. destruct Hs as [Hp Hn].
  unfold rotateSticker, turnPlace, placeOf. cbn [fst snd].
  destruct (axisCoord ax (cubePos s) =? lay); cbn [negb cubePos normal];
    [|reflexivity].
  now rewrite !rotate_exact.
Qed.

Lemma applyRotationDiscrete_places (L : libm) (c : Core) (ax : vec3) (lay : Z)
      (angleDeg : float) :
  libm_accurate L -> In ax unitAxes -> In angleDeg turnAngles ->
  forallb stickerSmall (m_stickers c) = true ->
  map placeOf (m_stickers (applyRotationDiscrete L c ax lay angleDeg)) =
  map (turnPlace ax lay angleDeg) (map placeOf (m_stickers c)).
Proof.
  intros HL Hax Hang Hs. unfold applyRotationDiscrete.
  cbn [m_stickers set_stickers]. rewrite !map_map.
  apply map_ext_in. intros s Hin.
  rewrite forallb_forall in Hs.
  change (placeOf (rebuildBaseModel L _ ?t)) with (placeOf t).
  now apply rotateSticker_place; [| | | apply Hs].
Qed.

(** ** Quarter turns on integer vectors *)

Lemma quarterTurn_four (i : nat) (p : ivec3) :
  quarterTurn i (quarterTurn i (quarterTurn i (quarterTurn i p))) = p.
Proof.
  destruct p as [a b c]. destruct i as [|[|i]]; cbn; f_equal; lia.
Qed.

Lemma axisCoord_index (ax : vec3) (p : ivec3) :
  axisCoord ax p =
  match axisIndex ax with O => ix p | S O => iy p | _ => iz p end.
Proof.
  unfold axisCoord, axisIndex.
  destruct (fgt (fabs (x3 ax)) fhalf); [reflexivity|].
  now destruct (fgt (fabs (y3 ax)) fhalf).
Qed.

Lemma axisCoord_quarterTurn (ax : vec3) (p : ivec3) :
  axisCoord ax (quarterTurn (axisIndex ax) p) = axisCoord ax p.
Proof.
  rewrite !axisCoord_index. now destruct (axisIndex ax) as [|[|i]].
Qed.

Lemma axisCoord_turnVector (ax : vec3) (angleDeg : float) (p : ivec3) :
  axisCoord ax (turnVector ax angleDeg p) = axisCoord ax p.
Proof.
  unfold turnVector. induction (quarterTurns angleDeg) as [|n IH]; [reflexivity|].
  rewrite Nat.iter_succ. now rewrite axisCoord_quarterTurn.
Qed.

Lemma quarterTurn_small (i : nat) (v : ivec3) :
  ivec3_small v = true -> ivec3_small (quarterTurn i v) = true.
Proof.
  intros H. apply ivec3_small_In in H. cbn in H.
  destruct i as [|[|i]];
    repeat (destruct H as [<- | H]; [reflexivity|]); contradiction.
Qed.

Lemma turnVector_small (ax : vec3) (angleDeg : float) (v : ivec3) :
  ivec3_small v = true -> ivec3_small (turnVector ax angleDeg v) = true.
Proof.
  intros H. unfold turnVector.
  induction (quarterTurns angleDeg) as [|n IH]; [exact H|].
  rewrite Nat.iter_succ. now apply quarterTurn_small.
Qed.

Lemma turnPlace_small (ax : vec3) (lay : Z) (angleDeg : float) (pl : place) :
  placeSmall pl = true -> placeSmall (turnPlace ax lay angleDeg pl) = true.
Proof.
  unfold placeSmall, turnPlace. intros H.
  destruct (axisCoord ax (fst pl) =? lay); [|exact H].
  apply andb_true_iff in H. destruct H as [H1 H2]. cbn [fst snd].
  now rewrite !turnVector_small.
Qed.

Lemma turnVector_quarter_four (ax : vec3) (angleDeg : float) (p : ivec3) :
  In angleDeg [f_90; f_m90] ->
  turnVector ax angleDeg
    (turnVector ax angleDeg (turnVector ax angleDeg (turnVector ax angleDeg p))) = p.
Proof.
  intros [<- | [<- | []]]; unfold turnVector;
    change (quarterTurns f_90) with 1%nat; change (quarterTurns f_m90) with 3%nat;
    cbn; now rewrite !quarterTurn_four.
Qed.

Lemma turnPlace_quarter_four (ax : vec3) (lay : Z) (angleDeg : float) (pl : place) :
  In angleDeg [f_90; f_m90] ->
  turnPlace ax lay angleDeg
    (turnPlace ax lay angleDeg (turnPlace ax lay angleDeg (turnPlace ax lay angleDeg pl)))
  = pl.
Proof.
  intros Hang. destruct pl as [p n]. unfold turnPlace. cbn [fst snd].
  destruct (axisCoord ax p =? lay) eqn:E; cbn [fst snd].
  - rewrite !axisCoord_turnVector, E. cbn [fst snd].
    rewrite !axisCoord_turnVector, E. cbn [fst snd].
    rewrite !axisCoord_turnVector, E. cbn [fst snd].
    now rewrite !turnVector_quarter_four.
  - repeat (rewrite E; cbn [fst snd]). reflexivity.
Qed.

Lemma faceAxisLayer_valid (face : ascii) :
  In face FACE_ORDER ->
  In (fst (faceAxisLayer face)) unitAxes /\
  (snd (faceAxisLayer face) = 1 \/ snd (faceAxisLayer face) = -1).
Proof.
  intros H. cbn in H.
  repeat (destruct H as [<- | H]; [cbn; tauto|]). contradiction.
Qed.

Lemma moveAngle_valid (amount : Z) (prime : bool) :
  amount = 1 \/ amount = 2 -> In (moveAngle amount prime) turnAngles.
Proof.
  intros [-> | ->]; destruct prime; cbn; tauto.
Qed.

Lemma forallb_stickerSmall (st : list Sticker) :
  forallb stickerSmall st = forallb placeSmall (map placeOf st).
Proof.
  induction st as [|s st IH]; [reflexivity|]. cbn. now rewrite IH.
Qed.

Lemma applyRotationDiscrete_small (L : libm) (c : Core) (ax : vec3) (lay : Z)
      (angleDeg : float) :
  libm_accurate L -> In ax unitAxes -> In angleDeg turnAngles ->
  forallb stickerSmall (m_stickers c) = true ->
  forallb stickerSmall (m_stickers (applyRotationDiscrete L c ax lay angleDeg)) = true.
Proof.
  intros HL Hax Hang Hs.
  rewrite forallb_stickerSmall, applyRotationDiscrete_places by assumption.
  rewrite forallb_stickerSmall in Hs.
  rewrite forallb_forall in *. intros pl Hin.
  apply in_map_iff in Hin. destruct Hin as (pl0 & <- & Hin0).
  apply turnPlace_small. now apply Hs.
Qed.

(** C4.  For every cube state whose stickers have components in {-1,0,1},
    every face and either sign, four successive discrete mutations by the
    same quarter turn (the mutation that completes the moves "X" or "X'")
    leave every sticker's cubePos and normal as they were before the first
    turn. *)
Theorem four_quarter_turns_identity (L : libm) (c : Core) (face : ascii)
        (prime : bool) :
  libm_accurate L -> In face FACE_ORDER ->
  forallb stickerSmall (m_stickers c) = true ->
  let turn (c : Core) :=
    applyRotationDiscrete L c (fst (faceAxisLayer face)) (snd (faceAxisLayer face))
                          (moveAngle 1 prime) in
  map cubePos (m_stickers (turn (turn (turn (turn c))))) = map cubePos (m_stickers c) /\
  map normal (m_stickers (turn (turn (turn (turn c))))) = map normal (m_stickers c).
Proof.
  intros HL Hface Hs turn.
  destruct (faceAxisLayer_valid face Hface) as [Hax _].
  assert (Hang : In (moveAngle 1 prime) turnAngles) by (apply moveAngle_valid; auto).
  assert (Hq : In (moveAngle 1 prime) [f_90; f_m90]) by (destruct prime; cbn; tauto).
  assert (Hs1 : forallb stickerSmall (m_stickers (turn c)) = true)
    by now apply applyRotationDiscrete_small.
  assert (Hs2 : forallb stickerSmall (m_stickers (turn (turn c))) = true)
    by now apply applyRotationDiscrete_small.
  assert (Hs3 : forallb stickerSmall (m_stickers (turn (turn (turn c)))) = true)
    by now apply applyRotationDiscrete_small.
  assert (Hpl : map placeOf (m_stickers (turn (turn (turn (turn c))))) =
                map placeOf (m_stickers c)).
  { unfold turn at 1. rewrite applyRotationDiscrete_places by assumption.
    unfold turn at 1. rewrite applyRotationDiscrete_places by assumption.
    unfold turn at 1. rewrite applyRotationDiscrete_places by assumption.
    unfold turn at 1. rewrite applyRotationDiscrete_places by assumption.
    rewrite !map_map.
    transitivity (map (fun pl : place => pl) (map placeOf (m_stickers c)));
      [|apply map_id].
    rewrite map_map. apply map_ext. intros s.
    now apply turnPlace_quarter_four. }
  split.
  - apply (f_equal (map fst)) in Hpl. now rewrite !map_map in Hpl.
  - apply (f_equal (map snd)) in Hpl. now rewrite !map_map in Hpl.
Qed.

Lemma libm_table_accurate : libm_accurate libm_table.
Proof. unfold libm_accurate. repeat split; vm_compute; tauto. Qed.

Lemma core0_small : forallb stickerSmall (m_stickers core0) = true.
Proof. vm_compute. reflexivity. Qed.

Lemma four_quarter_turns_identity_witness :
  libm_accurate libm_table /\ In "R"%char FACE_ORDER /\
  forallb stickerSmall (m_stickers core0) = true /\
  let turn (c : Core) :=
    applyRotationDiscrete libm_table c (fst (faceAxisLayer "R")) (snd (faceAxisLayer "R"))
                          (moveAngle 1 false) in
  map cubePos (m_stickers (turn (turn (turn (turn core0))))) = map cubePos (m_stickers core0) /\
  map normal (m_stickers (turn (turn (turn (turn core0))))) = map normal (m_stickers core0).
Proof.
  assert (H : In "R"%char FACE_ORDER) by (cbn; tauto).
  exact (conj libm_table_accurate (conj H (conj core0_small
           (four_quarter_turns_identity libm_table core0 "R"%char false
              libm_table_accurate H core0_small)))).
Defined.

(** ** Permutations of places *)

Lemma place_eqb_eq (a b : place) : place_eqb a b = true <-> a = b.
Proof.
  destruct a as [a1 a2], b as [b1 b2]. unfold place_eqb. cbn [fst snd].
  rewrite andb_true_iff, !ivec3_eqb_eq. split.
  - intros [-> ->]. reflexivity.
  - intros H. injection H as -> ->. auto.
Qed.

Lemma removeFirst_Permutation (a : place) (l l' : list place) :
  removeFirst a l = Some l' -> Permutation l (a :: l').
Proof.
  revert l'. induction l as [|b l IH]; intros l' H; [discriminate|].
  cbn [removeFirst] in H. destruct (place_eqb a b) eqn:E.
  - apply place_eqb_eq in E. injection H as <-. now subst.
  - destruct (removeFirst a l) as [l0|]; [|discriminate].
    injection H as <-. rewrite (IH l0 eq_refl). apply perm_swap.
Qed.

Lemma permutationb_sound (l1 l2 : list place) :
  permutationb l1 l2 = true -> Permutation l1 l2.
Proof.
  revert l2. induction l1 as [|a l1 IH]; intros l2 H; cbn [permutationb] in H.
  - destruct l2; [constructor | discriminate].
  - destruct (removeFirst a l2) as [l2'|] eqn:E; [|discriminate].
    apply removeFirst_Permutation in E. rewrite E.
    constructor. now apply IH.
Qed.

Lemma turnsPermuteInitialPlaces_true : turnsPermuteInitialPlaces = true.
Proof. vm_compute. reflexivity. Qed.

Lemma turnPlace_permutes_initial (ax : vec3) (lay : Z) (ang : float) :
  In ax unitAxes -> In lay [1; -1] -> In ang turnAngles ->
  Permutation (map (turnPlace ax lay ang) initialPlaces) initialPlaces.
Proof.
  intros Hax Hlay Hang. apply permutationb_sound.
  pose proof turnsPermuteInitialPlaces_true as H.
  unfold turnsPermuteInitialPlaces in H.
  rewrite forallb_forall in H. specialize (H ax Hax).
  rewrite forallb_forall in H. specialize (H lay Hlay).
  rewrite forallb_forall in H. now apply H.
Qed.

(** ** The places invariant and the partition by normals *)

Lemma filter_length_Permutation (f : place -> bool) (l l' : list place) :
  Permutation l l' -> List.length (filter f l) = List.length (filter f l').
Proof.
  induction 1 as [| a l l' _ IH | a b l | l l' l'' _ IH1 _ IH2].
  - reflexivity.
  - cbn [filter]. destruct (f a); cbn [List.length]; now rewrite IH.
  - cbn [filter]. destruct (f a), (f b); reflexivity.
  - now rewrite IH1.
Qed.

Lemma normalCount_places (d : ivec3) (st : list Sticker) :
  normalCount d st =
  List.length (filter (fun pl : place => ivec3_eqb (snd pl) d) (map placeOf st)).
Proof.
  unfold normalCount. induction st as [|s st IH]; [reflexivity|].
  cbn [map filter placeOf snd]. destruct (ivec3_eqb (normal s) d); cbn [List.length];
    now rewrite IH.
Qed.

Lemma placesInvariant_partitioned (st : list Sticker) :
  placesInvariant st -> partitioned st.
Proof.
  intros H. split.
  - apply Permutation_length in H. now rewrite length_map in H.
  - intros d Hd. rewrite normalCount_places.
    rewrite (filter_length_Permutation _ _ _ H).
    cbn in Hd. repeat (destruct Hd as [<- | Hd]; [reflexivity|]). contradiction.
Qed.

Lemma initialPlaces_small : forallb placeSmall initialPlaces = true.
Proof. vm_compute. reflexivity. Qed.

Lemma placesInvariant_small (st : list Sticker) :
  placesInvariant st -> forallb stickerSmall st = true.
Proof.
  intros H. rewrite forallb_stickerSmall. apply forallb_forall. intros pl Hin.
  pose proof initialPlaces_small as Hs. rewrite forallb_forall in Hs.
  apply Hs. now apply (Permutation_in _ H).
Qed.

Lemma construct_places (L : libm) (cubieSize gap speed : float) :
  map placeOf (m_stickers (construct L cubieSize gap speed)) = initialPlaces.
Proof. reflexivity. Qed.

Lemma applyRotationDiscrete_placesInvariant (L : libm) (c : Core) (ax : vec3)
      (lay : Z) (ang : float) :
  libm_accurate L -> In ax unitAxes -> In lay [1; -1] -> In ang turnAngles ->
  placesInvariant (m_stickers c) ->
  placesInvariant (m_stickers (applyRotationDiscrete L c ax lay ang)).
Proof.
  intros HL Hax Hlay Hang H. unfold placesInvariant.
  rewrite applyRotationDiscrete_places;
    [| assumption | assumption | assumption | now apply placesInvariant_small].
  transitivity (map (turnPlace ax lay ang) initialPlaces).
  - now apply Permutation_map.
  - now apply turnPlace_permutes_initial.
Qed.

Lemma isFaceLetter_In (face : ascii) :
  isFaceLetter face = true <-> In face FACE_ORDER.
Proof.
  split.
  - ascii_cases face; intros H; try discriminate H; cbn; auto 8.
  - intros H. cbn in H.
    repeat (destruct H as [<- | H]; [reflexivity|]). contradiction.
Qed.

Lemma parseMove_amount (move : string) face amount prime :
  parseMove move = Some (face, amount, prime) -> amount = 1 \/ amount = 2.
Proof.
  unfold parseMove. destruct (size move =? 0); [discriminate|].
  destruct (strchr "UDLRFB" (toupper (char_at (stripSpaces move) 0)));
    [|discriminate].
  repeat match goal with |- context [if ?b then _ else _] => destruct b end;
    intros H; injection H as <- <- <-; auto.
Qed.

Lemma startParsedMove_validAnim (c : Core) (face : ascii) (amount : Z) (prime : bool) :
  In face FACE_ORDER -> amount = 1 \/ amount = 2 ->
  validAnim (m_anim (startParsedMove c face amount prime)).
Proof.
  intros Hf Ha. rewrite startParsedMove_anim. unfold validAnim.
  cbn [axis layer targetAngle].
  destruct (faceAxisLayer_valid face Hf) as [Hax Hl].
  repeat split; [assumption | | now apply moveAngle_valid].
  destruct Hl as [-> | ->]; cbn [In]; auto.
Qed.

Lemma startNextInQueue_invariant (c : Core) :
  coreInvariant c -> coreInvariant (startNextInQueue c).
Proof.
  intros Hinv. unfold startNextInQueue.
  destruct (active (m_anim c)) eqn:Hact; [exact Hinv|].
  destruct (m_queue c) as [|mv rest] eqn:Hqueue; [exact Hinv|].
  destruct Hinv as (Hp & Ha & Hq). rewrite Hqueue in Hq.
  cbn [forallb] in Hq. apply andb_true_iff in Hq. destruct Hq as [Hmv Hrest].
  unfold properSymbol in Hmv.
  destruct (parseMove mv) as [[[face amount] prime]|] eqn:Hparse.
  - apply isFaceLetter_In in Hmv. apply parseMove_amount in Hparse.
    destruct (startParsedMove_frame (set_queue c rest) face amount prime)
      as (Eq & Es & _).
    unfold coreInvariant. rewrite Eq, Es. cbn [m_queue m_stickers set_queue].
    split; [exact Hp|]. split; [|exact Hrest].
    intros _. now apply startParsedMove_validAnim.
  - split; [exact Hp|]. split; [|exact Hrest].
    cbn [m_anim set_queue]. rewrite Hact. discriminate.
Qed.

Lemma update_invariant (L : libm) (c : Core) (dt : float) :
  libm_accurate L -> coreInvariant c -> coreInvariant (update L c dt).
Proof.
  intros HL Hinv. unfold update.
  destruct (active (m_anim c)) eqn:Hact.
  - destruct Hinv as (Hp & Ha & Hq). destruct (Ha Hact) as (Hax & Hlay & Hang).
    destruct (animationDone (m_anim c) (advancedAngle (m_anim c) dt)).
    + apply startNextInQueue_invariant. split; [|split].
      * cbn [m_stickers set_anim].
        now apply applyRotationDiscrete_placesInvariant.
      * cbn. discriminate.
      * exact Hq.
    + split; [exact Hp|]. split; [|exact Hq].
      intros _. exact (conj Hax (conj Hlay Hang)).
  - destruct (m_queue c); [exact Hinv|]. now apply startNextInQueue_invariant.
Qed.

Lemma step_invariant (L : libm) (c : Core) (o : Op) :
  libm_accurate L -> properOp o = true -> coreInvariant c ->
  coreInvariant (step L c o).
Proof.
  intros HL Ho Hinv. destruct o as [dt | mv | mv |]; cbn [step properOp] in *.
  - now apply update_invariant.
  - destruct Hinv as (Hp & Ha & Hq). unfold queueMove.
    destruct (parseMove mv) eqn:Hparse; cbn [snd]; [|exact (conj Hp (conj Ha Hq))].
    split; [exact Hp|]. split; [exact Ha|].
    cbn [m_queue set_queue]. rewrite forallb_app, Hq. cbn. now rewrite Ho.
  - destruct Hinv as (Hp & Ha & Hq). unfold startMoveImmediate.
    unfold properSymbol in Ho.
    destruct (parseMove mv) as [[[face amount] prime]|] eqn:Hparse; cbn [snd].
    + apply isFaceLetter_In in Ho. apply parseMove_amount in Hparse.
      destruct (startParsedMove_frame (set_queue c []) face amount prime)
        as (Eq & Es & _).
      unfold coreInvariant. rewrite Eq, Es. cbn [m_queue m_stickers set_queue].
      split; [exact Hp|]. split; [|reflexivity].
      intros _. now apply startParsedMove_validAnim.
    + exact (conj Hp (conj Ha eq_refl)).
  - destruct Hinv as (Hp & Ha & Hq). exact (conj Hp (conj Ha eq_refl)).
Qed.

Lemma run_invariant (L : libm) (ops : list Op) (c : Core) :
  libm_accurate L -> forallb properOp ops = true -> coreInvariant c ->
  coreInvariant (run L c ops).
Proof.
  intros HL. unfold run. revert c.
  induction ops as [|o ops IH]; intros c Hops Hinv; [exact Hinv|].
  cbn [forallb] in Hops. apply andb_true_iff in Hops. destruct Hops as [Ho Hops].
  cbn [fold_left]. apply IH; [exact Hops|]. now apply step_invariant.
Qed.

Lemma construct_invariant (L : libm) (cubieSize gap speed : float) :
  coreInvariant (construct L cubieSize gap speed).
Proof.
  split; [|split].
  - unfold placesInvariant. now rewrite construct_places.
  - cbn. discriminate.
  - reflexivity.
Qed.

Lemma completeMove_placesInvariant (L : libm) (c : Core) (m : ParsedMove) :
  libm_accurate L -> validMove m = true -> placesInvariant (m_stickers c) ->
  placesInvariant (m_stickers (completeMove L c m)).
Proof.
  intros HL Hm H. destruct m as [[face amount] prime].
  unfold validMove in Hm. apply andb_true_iff in Hm. destruct Hm as [Hf Ha].
  apply isFaceLetter_In in Hf.
  destruct (faceAxisLayer_valid face Hf) as [Hax Hl].
  unfold completeMove. apply applyRotationDiscrete_placesInvariant; try assumption.
  - destruct Hl as [-> | ->]; cbn [In]; auto.
  - apply moveAngle_valid. apply orb_true_iff in Ha.
    rewrite !Z.eqb_eq in Ha. exact Ha.
Qed.

Lemma completeMoves_placesInvariant (L : libm) (ms : list ParsedMove) (c : Core) :
  libm_accurate L -> forallb validMove ms = true -> placesInvariant (m_stickers c) ->
  placesInvariant (m_stickers (fold_left (completeMove L) ms c)).
Proof.
  intros HL. revert c. induction ms as [|m ms IH]; intros c Hms H; [exact H|].
  cbn [forallb] in Hms. apply andb_true_iff in Hms. destruct Hms as [Hm Hms].
  cbn [fold_left]. apply IH; [exact Hms|]. now apply completeMove_placesInvariant.
Qed.

(** C3.  The 54 stickers that the constructor builds have, for each of the
    six directions +x, -x, +y, -y, +z, -z, exactly 9 stickers with that
    normal.  The same holds after every sequence of completed valid moves
    (a valid move has a face letter of U, D, L, R, F, B and amount 1 or 2),
    and [applyRotationDiscrete], called on such a state with the axis, layer
    and target angle of any valid move, gives a state where it holds again.
    It also holds in every state that the public operations reach when no
    symbol with a NUL face is passed. *)
Theorem normals_partition (L : libm) (cubieSize gap speed : float)
        (ms : list ParsedMove) (ops : list Op) :
  libm_accurate L -> forallb validMove ms = true -> forallb properOp ops = true ->
  partitioned (m_stickers (construct L cubieSize gap speed)) /\
  partitioned (m_stickers (fold_left (completeMove L) ms (construct L cubieSize gap speed))) /\
  (forall m, validMove m = true ->
     partitioned
       (m_stickers
          (completeMove L (fold_left (completeMove L) ms (construct L cubieSize gap speed)) m))) /\
  partitioned (m_stickers (run L (construct L cubieSize gap speed) ops)) /\
  (forall m, validMove m = true ->
     partitioned
       (m_stickers (completeMove L (run L (construct L cubieSize gap speed) ops) m))).
Proof.
  intros HL Hms Hops.
  pose proof (construct_invariant L cubieSize gap speed) as Hinv.
  pose proof (completeMoves_placesInvariant L ms _ HL Hms (proj1 Hinv)) as Hfold.
  pose proof (run_invariant L ops _ HL Hops Hinv) as Hrun.
  split; [apply placesInvariant_partitioned; exact (proj1 Hinv)|].
  split; [apply placesInvariant_partitioned; exact Hfold|].
  split.
  { intros m Hm. apply placesInvariant_partitioned.
    now apply completeMove_placesInvariant. }
  split; [apply placesInvariant_partitioned; exact (proj1 Hrun)|].
  intros m Hm. apply placesInvariant_partitioned.
  apply completeMove_placesInvariant; [assumption | assumption | exact (proj1 Hrun)].
Qed.

Lemma normals_partition_witness :
  libm_accurate libm_table /\
  forallb validMove [("R"%char, 1, false); ("U"%char, 2, true)] = true /\
  forallb properOp [OpQueueMove "R"; OpUpdate fzero; OpUpdate fone] = true /\
  partitioned (m_stickers core0) /\
  partitioned
    (m_stickers
       (fold_left (completeMove libm_table)
                  [("R"%char, 1, false); ("U"%char, 2, true)] core0)) /\
  partitioned
    (m_stickers (run libm_table core0 [OpQueueMove "R"; OpUpdate fzero; OpUpdate fone])).
Proof.
  assert (H1 : forallb validMove [("R"%char, 1, false); ("U"%char, 2, true)] = true)
    by reflexivity.
  assert (H2 : forallb properOp [OpQueueMove "R"; OpUpdate fzero; OpUpdate fone] = true)
    by reflexivity.
  pose proof (normals_partition libm_table (of_bits 0x3f666666) (of_bits 0x3cf5c28f)
                (of_bits 0x44340000) _ _ libm_table_accurate H1 H2) as T.
  exact (conj libm_table_accurate (conj H1 (conj H2
           (conj (proj1 T) (conj (proj1 (proj2 T)) (proj1 (proj2 (proj2 (proj2 T))))))))).
Defined.

(** ** binary32: rounding of sums, differences and products *)

Lemma fexp_eq (e : Z) : fexp prec emax e = Z.max (e - 24) (-149).
Proof. reflexivity. Qed.

Lemma digits2_pos_bounds (p : positive) :
  2 ^ (Zpos (digits2_pos p) - 1) <= Zpos p < 2 ^ Zpos (digits2_pos p).
Proof.
  induction p as [p IH | p IH |]; cbn [digits2_pos].
  - rewrite Pos2Z.inj_succ. change (Zpos p~1) with (2 * Zpos p + 1).
    replace (Z.succ (Zpos (digits2_pos p)) - 1) with (Z.succ (Zpos (digits2_pos p) - 1)) by lia.
    rewrite !Z.pow_succ_r by lia.
    lia.
  - rewrite Pos2Z.inj_succ. change (Zpos p~0) with (2 * Zpos p).
    replace (Z.succ (Zpos (digits2_pos p)) - 1) with (Z.succ (Zpos (digits2_pos p) - 1)) by lia.
    rewrite !Z.pow_succ_r by lia.
    lia.
  - cbn. lia.
Qed.

Lemma digits2_pos_unique (p : positive) (a : Z) :
  2 ^ (a - 1) <= Zpos p < 2 ^ a -> Zpos (digits2_pos p) = a.
Proof.
  intros [Hlo Hhi]. pose proof (digits2_pos_bounds p) as [Dlo Dhi].
  assert (0 < a).
  { destruct (Z.ltb_spec 0 a); [assumption|].
    assert (2 ^ a <= 2 ^ 0) by (destruct (Z.eq_dec a 0); [subst; lia|rewrite Z.pow_neg_r by lia; cbn; lia]).
    cbn in *. lia. }
  destruct (Z.lt_trichotomy (Zpos (digits2_pos p)) a) as [Hlt | [Heq | Hgt]]; [|assumption|].
  - assert (2 ^ Zpos (digits2_pos p) <= 2 ^ (a - 1)) by (apply Z.pow_le_mono_r; lia). lia.
  - assert (2 ^ a <= 2 ^ (Zpos (digits2_pos p) - 1)) by (apply Z.pow_le_mono_r; lia). lia.
Qed.

Lemma iter_pos_nat {A : Type} (f : A -> A) (p : positive) (x : A) :
  iter_pos f p x = Nat.iter (Pos.to_nat p) f x.
Proof.
  revert x. induction p as [p IH | p IH |]; intros x; cbn [iter_pos].
  - rewrite !IH, Pos2Nat.inj_xI. cbn [Nat.mul]. rewrite Nat.add_0_r.
    rewrite Nat.iter_succ_r, Nat.iter_add. reflexivity.
  - rewrite !IH, Pos2Nat.inj_xO. cbn [Nat.mul]. rewrite Nat.add_0_r.
    rewrite Nat.iter_add. reflexivity.
  - reflexivity.
Qed.

Lemma shr_1_ok (n j : Z) (r : shr_record) :
  0 <= j -> shr_ok n j r -> shr_ok n (j + 1) (shr_1 r).
Proof.
  intros Hj (Hm & t & Ht & Heq & Hs). destruct r as [m rr ss]. cbn [shr_m shr_r shr_s] in *.
  unfold shr_ok. rewrite Z.pow_add_r, Z.pow_1_r by lia.
  assert (HP : 0 < 2 ^ j) by (apply Z.pow_pos_nonneg; lia).
  set (P := 2 ^ j) in *.
  unfold shr_1.
  destruct m as [|[p|p|]|p]; cbn [shr_m shr_r shr_s]; try lia.
  - split; [lia|]. exists (if rr then P + t else t).
    destruct rr, ss; cbn [orb]; repeat split; try lia;
      try (intros _; apply Hs; lia); try (intros H; apply Hs in H; lia).
  - split; [lia|]. exists (if rr then P + t else t).
    change (Zpos p~1) with (2 * Zpos p + 1) in Heq.
    destruct rr, ss; cbn [orb]; repeat split; try lia;
      try (intros _; apply Hs; lia); try (intros H; apply Hs in H; lia).
  - split; [lia|]. exists (if rr then P + t else t).
    change (Zpos p~0) with (2 * Zpos p) in Heq.
    destruct rr, ss; cbn [orb]; repeat split; try lia;
      try (intros _; apply Hs; lia); try (intros H; apply Hs in H; lia).
  - split; [lia|]. exists (if rr then P + t else t).
    destruct rr, ss; cbn [orb]; repeat split; try lia;
      try (intros _; apply Hs; lia); try (intros H; apply Hs in H; lia).
Qed.

Lemma shr_iter_ok (n : Z) (k : nat) :
  0 <= n ->
  shr_ok n (Z.of_nat k) (Nat.iter k shr_1 (Build_shr_record n false false)).
Proof.
  intros Hn. induction k as [|k IH].
  - split; [exact Hn|]. exists 0. cbn. repeat split; try lia; intros H; discriminate H.
  - rewrite Nat2Z.inj_succ, Nat.iter_succ. unfold Z.succ.
    apply shr_1_ok; [lia | exact IH].
Qed.

Lemma shr_pos_ok (n : Z) (p : positive) :
  0 <= n ->
  shr_ok n (Zpos p) (iter_pos shr_1 p (Build_shr_record n false false)).
Proof.
  intros Hn. rewrite iter_pos_nat, <- (positive_nat_Z p).
  now apply shr_iter_ok.
Qed.

Lemma round_nearest_even_ok (n j : Z) (r : shr_record) :
  0 <= j -> shr_ok n j r ->
  let R := round_nearest_even (shr_m r) (loc_of_shr_record r) in
  shr_m r <= R <= shr_m r + 1 /\
  Z.abs (2 * (R * 2 ^ j - n)) <= 2 ^ j /\
  (Z.abs (2 * (R * 2 ^ j - n)) = 2 ^ j -> Z.even R = true).
Proof.
  intros Hj (Hm & t & Ht & Heq & Hs). destruct r as [m rr ss].
  cbn [shr_m shr_r shr_s] in *.
  assert (HP : 0 < 2 ^ j) by (apply Z.pow_pos_nonneg; lia).
  set (P := 2 ^ j) in *.
  destruct rr, ss; cbn [loc_of_shr_record round_nearest_even].
  - assert (0 < t) by (now apply Hs). repeat split; try lia.
  - assert (t = 0) by (destruct (Z.eq_dec t 0); [assumption|];
                        assert (false = true) by (apply Hs; lia); discriminate).
    subst t. destruct (Z.even m) eqn:Ev.
    + repeat split; try lia. intros _. exact Ev.
    + repeat split; try lia. intros _.
      rewrite Z.even_add, Ev. reflexivity.
  - assert (0 < t) by (now apply Hs). repeat split; try lia.
  - assert (t = 0) by (destruct (Z.eq_dec t 0); [assumption|];
                        assert (false = true) by (apply Hs; lia); discriminate).
    subst t. repeat split; try lia.
Qed.

Lemma finish_pack (s : bool) (R e : Z) :
  -149 <= e -> 0 <= R <= 16777216 ->
  (0 < R < 16777216 -> fexp prec emax (Zdigits2 R + e) = e) ->
  finish s R e = pack s R e.
Proof.
  intros He HR Hcan. unfold finish, shr_fexp, shr.
  destruct R as [|m|m]; [| |lia].
  - cbn [Zdigits2 shr_record_of_loc]. rewrite fexp_eq.
    assert (Hz : Z.max (0 + e - 24) (-149) - e <= 0) by lia.
    destruct (Z.max (0 + e - 24) (-149) - e); try lia; reflexivity.
  - destruct (Z.eq_dec (Zpos m) 16777216) as [Heq | Hne].
    + injection Heq as ->. cbn [Zdigits2 digits2_pos Pos.succ shr_record_of_loc].
      rewrite fexp_eq.
      replace (Z.max (25 + e - 24) (-149) - e) with 1 by lia.
      cbn. replace (e + 1 <=? 104) with (e + 1 <=? 104) by reflexivity.
      reflexivity.
    + rewrite Hcan by lia. rewrite Z.sub_diag. cbn [shr_record_of_loc shr_m pack].
      destruct (Z.eqb_spec (Zpos m) 16777216); [contradiction|]. reflexivity.
Qed.

Lemma Zdigits2_le_24 (R : Z) : 0 < R < 16777216 -> Zdigits2 R <= 24.
Proof.
  intros HR. destruct R as [|m|m]; try lia. cbn [Zdigits2].
  pose proof (digits2_pos_bounds m) as [Hlo _].
  destruct (Z.le_gt_cases (Zpos (digits2_pos m)) 24) as [|Hgt]; [assumption|].
  assert (2 ^ 24 <= 2 ^ (Zpos (digits2_pos m) - 1)) by (apply Z.pow_le_mono_r; lia).
  change (2 ^ 24) with 16777216 in *. lia.
Qed.

Lemma binary_round_aux_finish (s : bool) (n e : Z) :
  binary_round_aux prec emax s n e loc_Exact =
  let '(mrs, e1) := shr_fexp prec emax n e loc_Exact in
  finish s (round_nearest_even (shr_m mrs) (loc_of_shr_record mrs)) e1.
Proof. reflexivity. Qed.

Lemma binary_round_aux_spec (s : bool) (n : positive) (e e' : Z) :
  e' = Z.max (Zpos (digits2_pos n) + e - 24) (-149) ->
  e <= e' ->
  exists R,
    0 <= R <= 16777216 /\
    Z.abs (2 * (R * 2 ^ (e' - e) - Zpos n)) <= 2 ^ (e' - e) /\
    (Z.abs (2 * (R * 2 ^ (e' - e) - Zpos n)) = 2 ^ (e' - e) -> Z.even R = true) /\
    (0 < R < 16777216 -> fexp prec emax (Zdigits2 R + e') = e') /\
    binary_round_aux prec emax s (Zpos n) e loc_Exact = pack s R e'.
Proof.
  intros He' He. rewrite binary_round_aux_finish. unfold shr_fexp, shr.
  cbn [Zdigits2]. rewrite fexp_eq, <- He'.
  pose proof (digits2_pos_bounds n) as [Dlo Dhi].
  destruct (e' - e) as [|k|k] eqn:Hk; [| |lia].
  - (* the mantissa is already at the target exponent *)
    assert (e' = e) by lia.
    assert (Hn : Zpos n < 16777216).
    { assert (2 ^ Zpos (digits2_pos n) <= 2 ^ 24) by (apply Z.pow_le_mono_r; lia).
      change (2 ^ 24) with 16777216 in *. lia. }
    exists (Zpos n). cbn [shr_record_of_loc shr_m loc_of_shr_record round_nearest_even].
    assert (Hcan : fexp prec emax (Zdigits2 (Zpos n) + e') = e')
      by (cbn [Zdigits2]; rewrite fexp_eq; lia).
    replace e with e'.
    rewrite (finish_pack s (Zpos n) e' ltac:(lia) ltac:(lia) (fun _ => Hcan)).
    repeat split; try lia.
  - (* [k] low bits are shifted out *)
    pose proof (shr_pos_ok (Zpos n) k ltac:(lia)) as Hok.
    cbn [shr_record_of_loc].
    set (rec1 := iter_pos shr_1 k {| shr_m := Zpos n; shr_r := false; shr_s := false |}) in *.
    pose proof (round_nearest_even_ok (Zpos n) (Zpos k) rec1 ltac:(lia) Hok) as (HqR & Habs & Htie).
    destruct Hok as (Hq & t & Ht & Heq & _).
    set (R := round_nearest_even (shr_m rec1) (loc_of_shr_record rec1)) in *.
    set (q := shr_m rec1) in *.
    assert (HP : 0 < 2 ^ Zpos k) by (apply Z.pow_pos_nonneg; lia).
    set (P := 2 ^ Zpos k) in *.
    assert (Hqn : q * P <= Zpos n < (q + 1) * P) by (destruct (shr_r rec1); lia).
    replace (e + Zpos k) with e' by lia.
    assert (HR : 0 <= R <= 16777216 /\
                 (0 < R < 16777216 -> fexp prec emax (Zdigits2 R + e') = e')).
    { destruct (Z.le_gt_cases (-149) (Zpos (digits2_pos n) + e - 24)) as [Hnorm | Hsub].
      - (* normal range: 24 bits remain *)
        assert (HD : Zpos (digits2_pos n) = Zpos k + 24) by lia.
        assert (E1 : 2 ^ (Zpos (digits2_pos n) - 1) = 8388608 * P).
        { rewrite HD. replace (Zpos k + 24 - 1) with (23 + Zpos k) by lia.
          rewrite Z.pow_add_r by lia. reflexivity. }
        assert (E2 : 2 ^ Zpos (digits2_pos n) = 16777216 * P).
        { rewrite HD. replace (Zpos k + 24) with (24 + Zpos k) by lia.
          rewrite Z.pow_add_r by lia. reflexivity. }
        rewrite E1 in Dlo. rewrite E2 in Dhi.
        assert (8388608 <= q < 16777216) by nia.
        split; [lia|]. intros HR.
        assert (Hd : Zdigits2 R = 24).
        { destruct R as [|m|m]; try lia. cbn [Zdigits2].
          apply digits2_pos_unique. change (2 ^ (24 - 1)) with 8388608.
          change (2 ^ 24) with 16777216. lia. }
        rewrite Hd, fexp_eq. lia.
      - (* subnormal range *)
        assert (E2 : 2 ^ Zpos (digits2_pos n) <= 8388608 * P).
        { replace (8388608 * P) with (2 ^ (23 + Zpos k))
            by (rewrite Z.pow_add_r by lia; reflexivity).
          apply Z.pow_le_mono_r; lia. }
        assert (q < 8388608) by nia.
        split; [lia|]. intros HR.
        pose proof (Zdigits2_le_24 R HR).
        assert (0 <= Zdigits2 R) by (destruct R; cbn; lia).
        rewrite fexp_eq. lia. }
    destruct HR as [HR Hcan].
    exists R. rewrite (finish_pack s R e' ltac:(lia) HR Hcan).
    repeat split; try lia; assumption.
Qed.

Lemma p2_pos (a : Z) : -149 <= a -> 0 < p2 a.
Proof. intros H. unfold p2. apply Z.pow_pos_nonneg; lia. Qed.

Lemma p2_add (a d : Z) : -149 <= a -> 0 <= d -> p2 (a + d) = p2 a * 2 ^ d.
Proof.
  intros Ha Hd. unfold p2. replace (a + d + 149) with (a + 149 + d) by lia.
  apply Z.pow_add_r; lia.
Qed.

Lemma p2_le (a b : Z) : -149 <= a -> a <= b -> p2 a <= p2 b.
Proof. intros Ha Hab. unfold p2. apply Z.pow_le_mono_r; lia. Qed.

Lemma iter_xO (m d : positive) : Zpos (Pos.iter xO m d) = Zpos m * 2 ^ Zpos d.
Proof.
  induction d as [|d IH] using Pos.peano_ind.
  - cbn. lia.
  - rewrite Pos.iter_succ, Pos2Z.inj_succ, Z.pow_succ_r by lia.
    change (Zpos (Pos.iter xO m d)~0) with (2 * Zpos (Pos.iter xO m d)). lia.
Qed.

Lemma digits2_pos_shift (m d : positive) :
  Zpos (digits2_pos (Pos.iter xO m d)) = Zpos (digits2_pos m) + Zpos d.
Proof.
  apply digits2_pos_unique. rewrite iter_xO.
  pose proof (digits2_pos_bounds m) as [Hlo Hhi].
  replace (Zpos (digits2_pos m) + Zpos d - 1) with (Zpos (digits2_pos m) - 1 + Zpos d) by lia.
  rewrite !Z.pow_add_r by lia.
  assert (0 < 2 ^ Zpos d) by (apply Z.pow_pos_nonneg; lia). nia.
Qed.

Lemma binary_round_rounds_to (s : bool) (n : positive) (e : Z) :
  -149 <= e -> rounds_to s (Zpos n * p2 e) (binary_round prec emax s n e).
Proof.
  intros He. unfold binary_round, shl_align.
  pose proof (digits2_pos_bounds n) as [Dlo Dhi].
  set (D := Zpos (digits2_pos n)) in *.
  assert (HD : 1 <= D) by (unfold D; lia).
  rewrite fexp_eq.
  set (e' := Z.max (D + e - 24) (-149)).
  assert (Hu : 0 < p2 e) by now apply p2_pos.
  assert (Hbounds : 2 ^ (D + e + 148) <= Zpos n * p2 e < 2 ^ (D + e + 149)).
  { assert (E1 : 2 ^ (D + e + 148) = 2 ^ (D - 1) * p2 e)
      by (unfold p2; rewrite <- Z.pow_add_r by lia; f_equal; lia).
    assert (E2 : 2 ^ (D + e + 149) = 2 ^ D * p2 e)
      by (unfold p2; rewrite <- Z.pow_add_r by lia; f_equal; lia).
    rewrite E1, E2. nia. }
  exists (D + e).
  destruct (e' - e) as [|k|d] eqn:Hk.
  - (* no alignment needed, no bit shifted out *)
    destruct (binary_round_aux_spec s n e e' eq_refl ltac:(lia))
      as (R & HR & Habs & Htie & Hcan & Heq).
    rewrite Hk in Habs, Htie.
    exists R. fold e'. replace e' with e in * by lia.
    change (2 ^ 0) with 1 in *.
    repeat split; try lia; try assumption; try nia.
  - (* bits are shifted out *)
    destruct (binary_round_aux_spec s n e e' eq_refl ltac:(lia))
      as (R & HR & Habs & Htie & Hcan & Heq).
    rewrite Hk in Habs, Htie.
    exists R. fold e'.
    assert (Hp : p2 e' = p2 e * 2 ^ Zpos k).
    { replace e' with (e + Zpos k) by lia. apply p2_add; lia. }
    rewrite Hp.
    assert (0 < 2 ^ Zpos k) by (apply Z.pow_pos_nonneg; lia).
    repeat split; try lia; try assumption.
    + replace (2 * (R * (p2 e * 2 ^ Zpos k) - Zpos n * p2 e))
        with (p2 e * (2 * (R * 2 ^ Zpos k - Zpos n))) by ring.
      rewrite Z.abs_mul, (Z.abs_eq (p2 e)) by lia. nia.
    + intros H1. apply Htie.
      replace (2 * (R * (p2 e * 2 ^ Zpos k) - Zpos n * p2 e))
        with (p2 e * (2 * (R * 2 ^ Zpos k - Zpos n))) in H1 by ring.
      rewrite Z.abs_mul, (Z.abs_eq (p2 e)) in H1 by lia. nia.
  - (* the mantissa is aligned to the target exponent; the result is exact *)
    destruct (binary_round_aux_spec s (Pos.iter xO n d) e' e') as (R & HR & Habs & Htie & Hcan & Heq).
    { rewrite digits2_pos_shift. fold D. lia. }
    { lia. }
    rewrite Z.sub_diag in Habs, Htie. change (2 ^ 0) with 1 in *.
    rewrite iter_xO in Habs, Htie.
    assert (HRn : R = Zpos n * 2 ^ Zpos d) by lia.
    assert (Hp : p2 e = p2 e' * 2 ^ Zpos d).
    { replace e with (e' + Zpos d) by lia. apply p2_add; lia. }
    exists R. fold e'. rewrite Hp.
    assert (0 < p2 e') by (apply p2_pos; lia).
    assert (Hz : R * p2 e' - Zpos n * (p2 e' * 2 ^ Zpos d) = 0) by (rewrite HRn; ring).
    rewrite <- Hp. rewrite Hp at 2 4.
    repeat split; try lia; try assumption.
Qed.

Lemma valid_finite_inv (s : bool) (m : positive) (e : Z) :
  valid (S754_finite s m e) = true ->
  -149 <= e <= 104 /\ Zpos m < 16777216 /\ (-149 < e -> 8388608 <= Zpos m) /\
  Z.max (Zpos (digits2_pos m) + e - 24) (-149) = e.
Proof.
  unfold valid, valid_binary, bounded, canonical_mantissa. rewrite fexp_eq.
  intros H. apply andb_true_iff in H. destruct H as [Hc Hb].
  apply Z.eqb_eq in Hc. apply Z.leb_le in Hb. change (emax - prec) with 104 in Hb.
  pose proof (digits2_pos_bounds m) as [Dlo Dhi].
  repeat split; try lia.
  - assert (2 ^ Zpos (digits2_pos m) <= 2 ^ 24) by (apply Z.pow_le_mono_r; lia).
    change (2 ^ 24) with 16777216 in *. lia.
  - intros He. assert (Zpos (digits2_pos m) = 24) by lia.
    replace (Zpos (digits2_pos m) - 1) with 23 in Dlo by lia.
    change (2 ^ 23) with 8388608 in Dlo. lia.
Qed.

Lemma valid_finite_intro (s : bool) (m : positive) (e : Z) :
  e <= 104 -> Z.max (Zpos (digits2_pos m) + e - 24) (-149) = e ->
  valid (S754_finite s m e) = true.
Proof.
  intros Hb Hc. unfold valid, valid_binary, bounded, canonical_mantissa.
  rewrite fexp_eq. apply andb_true_iff. split.
  - now apply Z.eqb_eq.
  - apply Z.leb_le. exact Hb.
Qed.

Lemma pack_valid (s : bool) (R e : Z) :
  -149 <= e -> 0 <= R <= 16777216 ->
  (0 < R < 16777216 -> fexp prec emax (Zdigits2 R + e) = e) ->
  valid (pack s R e) = true.
Proof.
  intros He HR Hcan. unfold pack. destruct R as [|m|m]; [reflexivity | | lia].
  destruct (Z.eqb_spec (Zpos m) 16777216) as [Heq | Hne].
  - destruct (Z.leb_spec (e + 1) 104); [|reflexivity].
    apply valid_finite_intro; [assumption|].
    change (Zpos (digits2_pos 8388608)) with 24. lia.
  - destruct (Z.leb_spec e 104); [|reflexivity].
    apply valid_finite_intro; [assumption|].
    specialize (Hcan ltac:(lia)). rewrite fexp_eq in Hcan. exact Hcan.
Qed.

Lemma pack_sign (s : bool) (R e : Z) :
  0 <= R -> pack s R e = S754_zero s \/ pack s R e = S754_infinity s \/
            exists m e', pack s R e = S754_finite s m e'.
Proof.
  intros HR. unfold pack. destruct R as [|m|m]; [auto | | lia].
  destruct (Zpos m =? 16777216).
  - destruct (e + 1 <=? 104); eauto.
  - destruct (e <=? 104); eauto.
Qed.

(** The magnitude of a packed result that did not overflow. *)
Lemma pack_mag (s : bool) (R e : Z) :
  -149 <= e -> 0 <= R <= 16777216 -> is_finite (pack s R e) = true ->
  Fmag (pack s R e) = R * p2 e.
Proof.
  intros He HR. unfold pack. destruct R as [|m|m]; [reflexivity | | lia].
  destruct (Z.eqb_spec (Zpos m) 16777216) as [Heq | Hne].
  - destruct (e + 1 <=? 104); [|discriminate]. intros _.
    cbn [Fmag]. rewrite (p2_add e 1) by lia. rewrite Heq. lia.
  - destruct (e <=? 104); [|discriminate]. reflexivity.
Qed.

(** A packed result overflows only when its value is at least 2^128. *)
Lemma pack_finite (s : bool) (R e : Z) :
  -149 <= e -> 0 <= R <= 16777216 ->
  (0 < R < 16777216 -> fexp prec emax (Zdigits2 R + e) = e) ->
  R * p2 e < 8388608 * p2 105 -> is_finite (pack s R e) = true.
Proof.
  intros He HR Hcan Hlt. unfold pack. destruct R as [|m|m]; [reflexivity | | lia].
  assert (Hp : 0 < p2 e) by now apply p2_pos.
  destruct (Z.eqb_spec (Zpos m) 16777216) as [Heq | Hne].
  - destruct (Z.leb_spec (e + 1) 104); [reflexivity|].
    assert (p2 104 <= p2 e) by (apply p2_le; lia).
    assert (p2 105 = p2 104 * 2) by (apply (p2_add 104 1); lia). nia.
  - destruct (Z.leb_spec e 104); [reflexivity|].
    specialize (Hcan ltac:(lia)). rewrite fexp_eq in Hcan. cbn [Zdigits2] in Hcan.
    pose proof (digits2_pos_bounds m) as [Dlo _].
    assert (Zpos (digits2_pos m) = 24) by lia.
    replace (Zpos (digits2_pos m) - 1) with 23 in Dlo by lia.
    change (2 ^ 23) with 8388608 in Dlo.
    assert (p2 105 <= p2 e) by (apply p2_le; lia). nia.
Qed.

Lemma rounds_to_valid (s : bool) (X : Z) (r : float) :
  rounds_to s X r ->
  valid r = true /\
  (r = S754_zero s \/ r = S754_infinity s \/ exists m e, r = S754_finite s m e).
Proof.
  intros (E & R & HE & HX & HR & Habs & Htie & Hcan & ->). split.
  - apply pack_valid; [lia | assumption | assumption].
  - apply pack_sign. lia.
Qed.

(** The exponent of the result is at most the exponent of any bound. *)
Lemma rounds_to_exponent (E X et : Z) :
  -149 <= et -> 2 ^ (E + 148) <= X -> X < 16777216 * p2 et ->
  Z.max (E - 24) (-149) <= et.
Proof.
  intros Het Hlo Hhi.
  assert (Hp : 16777216 * p2 et = 2 ^ (et + 173)).
  { unfold p2. replace (et + 173) with (24 + (et + 149)) by lia.
    rewrite (Z.pow_add_r 2 24 (et + 149)) by lia. reflexivity. }
  destruct (Z.le_gt_cases (E + 148) (et + 172)) as [|Hgt]; [lia|].
  assert (2 ^ (et + 173) <= 2 ^ (E + 148)) by (apply Z.pow_le_mono_r; lia). lia.
Qed.

Lemma rounds_to_err (s : bool) (X : Z) (r : float) (et : Z) :
  rounds_to s X r -> -149 <= et <= 103 -> X < 16777216 * p2 et ->
  is_finite r = true /\ 2 * Fmag r <= 2 * X + p2 et.
Proof.
  intros (E & R & HE & HX & HR & Habs & Htie & Hcan & ->) Het Hlt.
  set (e' := Z.max (E - 24) (-149)) in *.
  assert (He' : e' <= et) by (apply (rounds_to_exponent E X et); lia).
  assert (Hp : p2 e' <= p2 et) by (apply p2_le; lia).
  assert (Hp0 : 0 < p2 e') by (apply p2_pos; lia).
  assert (Hp105 : p2 105 = p2 et * 2 ^ (105 - et))
    by (rewrite <- p2_add by lia; f_equal; lia).
  assert (4 <= 2 ^ (105 - et)).
  { change 4 with (2 ^ 2). apply Z.pow_le_mono_r; lia. }
  assert (Hfin : is_finite (pack s R e') = true).
  { apply pack_finite; [lia | assumption | assumption |]. nia. }
  split; [exact Hfin|].
  rewrite pack_mag by (try assumption; lia). lia.
Qed.

Lemma rounds_to_le (s : bool) (X : Z) (r : float) (mt : positive) (et : Z) :
  rounds_to s X r -> -149 <= et <= 103 ->
  8388608 <= Zpos mt < 16777216 -> Z.even (Zpos mt) = true ->
  2 * X <= 2 * (Zpos mt * p2 et) + p2 et ->
  is_finite r = true /\ Fmag r <= Zpos mt * p2 et.
Proof.
  intros (E & R & HE & HX & HR & Habs & Htie & Hcan & ->) Het Hmt Hev Hle.
  set (e' := Z.max (E - 24) (-149)) in *.
  assert (HG : 0 < p2 et) by (apply p2_pos; lia).
  assert (He' : e' <= et) by (apply (rounds_to_exponent E X et); nia).
  assert (Hp0 : 0 < p2 e') by (apply p2_pos; lia).
  assert (Hp105 : p2 105 = p2 et * 2 ^ (105 - et))
    by (rewrite <- p2_add by lia; f_equal; lia).
  assert (4 <= 2 ^ (105 - et)).
  { change 4 with (2 ^ 2). apply Z.pow_le_mono_r; lia. }
  assert (Hval : R * p2 e' <= Zpos mt * p2 et).
  { destruct (Z.eq_dec e' et) as [Heq | Hne].
    - rewrite Heq in *. 
      assert (R <= Zpos mt + 1) by nia.
      destruct (Z.eq_dec R (Zpos mt + 1)) as [HR1 | HR1]; [|nia].
      assert (Z.even R = true) by (apply Htie; nia).
      rewrite HR1, Z.even_add, Hev in H1. discriminate.
    - assert (Hpp : p2 et = p2 e' * 2 ^ (et - e'))
        by (rewrite <- p2_add by lia; f_equal; lia).
      assert (2 <= 2 ^ (et - e')).
      { change 2 with (2 ^ 1) at 1. apply Z.pow_le_mono_r; lia. }
      nia. }
  assert (Hfin : is_finite (pack s R e') = true).
  { apply pack_finite; [lia | assumption | assumption |]. nia. }
  split; [exact Hfin|].
  rewrite pack_mag by (try assumption; lia). exact Hval.
Qed.

Lemma shl_align_mag (m : positive) (e ez : Z) :
  -149 <= ez -> ez <= e ->
  Zpos (fst (shl_align m e ez)) * p2 ez = Zpos m * p2 e.
Proof.
  intros Hez Hle. unfold shl_align.
  destruct (ez - e) as [|d|d] eqn:Hd; try lia; cbn [fst].
  - replace ez with e by lia. reflexivity.
  - rewrite iter_xO. replace e with (ez + Zpos d) by lia.
    rewrite p2_add by lia. ring.
Qed.

Lemma binary_normalize_cond_Zopp (s : bool) (n : positive) (e : Z) :
  binary_normalize prec emax (cond_Zopp s (Zpos n)) e false =
  binary_round prec emax s n e.
Proof. now destruct s. Qed.

(** Addition of two finite floats of the same sign rounds the exact sum of
    the magnitudes. *)
Lemma fadd_same_sign (s : bool) (m1 : positive) (e1 : Z) (m2 : positive) (e2 : Z) :
  valid (S754_finite s m1 e1) = true -> valid (S754_finite s m2 e2) = true ->
  rounds_to s (Fmag (S754_finite s m1 e1) + Fmag (S754_finite s m2 e2))
            (fadd (S754_finite s m1 e1) (S754_finite s m2 e2)).
Proof.
  intros V1 V2.
  apply valid_finite_inv in V1. apply valid_finite_inv in V2.
  unfold fadd, SFadd. cbn [Fmag].
  set (ez := Z.min e1 e2).
  rewrite <- (shl_align_mag m1 e1 ez), <- (shl_align_mag m2 e2 ez) by lia.
  set (a1 := fst (shl_align m1 e1 ez)). set (a2 := fst (shl_align m2 e2 ez)).
  replace (cond_Zopp s (Zpos a1) + cond_Zopp s (Zpos a2))
    with (cond_Zopp s (Zpos (a1 + a2))) by (destruct s; reflexivity).
  rewrite binary_normalize_cond_Zopp.
  replace (Zpos a1 * p2 ez + Zpos a2 * p2 ez) with (Zpos (a1 + a2) * p2 ez)
    by (rewrite Pos2Z.inj_add; ring).
  apply binary_round_rounds_to. lia.
Qed.

(** Subtraction of a finite float from one of the same sign and of no
    smaller magnitude: zero, or the rounded exact difference. *)
Lemma fsub_same_sign (s : bool) (m1 : positive) (e1 : Z) (m2 : positive) (e2 : Z) :
  valid (S754_finite s m1 e1) = true -> valid (S754_finite s m2 e2) = true ->
  Fmag (S754_finite s m2 e2) <= Fmag (S754_finite s m1 e1) ->
  (Fmag (S754_finite s m2 e2) = Fmag (S754_finite s m1 e1) /\
   fsub (S754_finite s m1 e1) (S754_finite s m2 e2) = S754_zero false) \/
  (Fmag (S754_finite s m2 e2) < Fmag (S754_finite s m1 e1) /\
   rounds_to s (Fmag (S754_finite s m1 e1) - Fmag (S754_finite s m2 e2))
             (fsub (S754_finite s m1 e1) (S754_finite s m2 e2))).
Proof.
  intros V1 V2.
  apply valid_finite_inv in V1. apply valid_finite_inv in V2.
  unfold fsub, SFsub. cbn [Fmag].
  set (ez := Z.min e1 e2).
  rewrite <- (shl_align_mag m1 e1 ez), <- (shl_align_mag m2 e2 ez) by lia.
  set (a1 := fst (shl_align m1 e1 ez)). set (a2 := fst (shl_align m2 e2 ez)).
  assert (Hp : 0 < p2 ez) by (apply p2_pos; lia).
  intros Hle.
  replace (cond_Zopp s (Zpos a1) - cond_Zopp s (Zpos a2))
    with (cond_Zopp s (Zpos a1 - Zpos a2)) by (destruct s; cbn [cond_Zopp]; lia).
  destruct (Zpos a1 - Zpos a2) as [|d|d] eqn:Hd.
  - left. split; [nia|]. now destruct s.
  - right. split; [nia|].
    rewrite binary_normalize_cond_Zopp.
    replace (Zpos a1 * p2 ez - Zpos a2 * p2 ez) with (Zpos d * p2 ez)
      by (rewrite <- Hd; ring).
    apply binary_round_rounds_to. lia.
  - exfalso. nia.
Qed.

Lemma fabs_pack (s : bool) (R e : Z) : fabs (pack s R e) = pack false R e.
Proof.
  unfold pack. destruct R as [|m|m]; try reflexivity.
  destruct (Zpos m =? 16777216).
  - now destruct (e + 1 <=? 104).
  - now destruct (e <=? 104).
Qed.

Lemma fabs_rounds_to (s : bool) (X : Z) (r : float) :
  rounds_to s X r -> rounds_to false X (fabs r).
Proof.
  intros (E & R & HE & HX & HR & Habs & Htie & Hcan & ->).
  exists E, R. rewrite fabs_pack. repeat split; try assumption; lia.
Qed.

(** On valid floats that are zero or positive, the comparison of floats is
    the comparison of magnitudes. *)
Lemma fcompare_mag (x y : float) :
  valid x = true -> valid y = true ->
  nonneg_finite x = true -> nonneg_finite y = true ->
  SFcompare x y = Some (Fmag x ?= Fmag y).
Proof.
  intros Vx Vy Nx Ny.
  destruct x as [sx | sx | | sx mx ex]; try discriminate;
    destruct y as [sy | sy | | sy my ey]; try discriminate.
  - reflexivity.
  - destruct sy; [discriminate|]. apply valid_finite_inv in Vy.
    cbn [SFcompare Fmag]. f_equal. symmetry. apply Z.compare_lt_iff.
    assert (0 < p2 ey) by (apply p2_pos; lia). nia.
  - destruct sx; [discriminate|]. apply valid_finite_inv in Vx.
    cbn [SFcompare Fmag]. f_equal. symmetry. apply Z.compare_gt_iff.
    assert (0 < p2 ex) by (apply p2_pos; lia). nia.
  - destruct sx; [discriminate|]. destruct sy; [discriminate|].
    apply valid_finite_inv in Vx. apply valid_finite_inv in Vy.
    cbn [SFcompare Fmag]. f_equal. symmetry.
    assert (Hx : 0 < p2 ex) by (apply p2_pos; lia).
    assert (Hy : 0 < p2 ey) by (apply p2_pos; lia).
    destruct (Z.compare_spec ex ey) as [Heq | Hlt | Hgt].
    + subst ey. change (Pos.compare_cont Eq mx my) with (Pos.compare mx my).
      destruct (Pos.compare_spec mx my) as [H | H | H].
      * subst. apply Z.compare_refl.
      * apply Z.compare_lt_iff. apply Pos2Z.pos_lt_pos in H. nia.
      * apply Z.compare_gt_iff. apply Pos2Z.pos_lt_pos in H. nia.
    + apply Z.compare_lt_iff.
      assert (Hp : p2 ey = p2 ex * 2 ^ (ey - ex))
        by (rewrite <- p2_add by lia; f_equal; lia).
      assert (2 <= 2 ^ (ey - ex)).
      { change 2 with (2 ^ 1) at 1. apply Z.pow_le_mono_r; lia. }
      nia.
    + apply Z.compare_gt_iff.
      assert (Hp : p2 ex = p2 ey * 2 ^ (ex - ey))
        by (rewrite <- p2_add by lia; f_equal; lia).
      assert (2 <= 2 ^ (ex - ey)).
      { change 2 with (2 ^ 1) at 1. apply Z.pow_le_mono_r; lia. }
      nia.
Qed.

(** Multiplication by 1.0 and by -1.0 is exact. *)
Lemma fmul_one_finite (s1 s : bool) (m : positive) (e : Z) :
  valid (S754_finite s m e) = true ->
  fmul (S754_finite s1 8388608 (-23)) (S754_finite s m e) =
  S754_finite (xorb s1 s) m e.
Proof.
  intros V. apply valid_finite_inv in V. destruct V as (He & Hm & Hnorm & Hcan).
  unfold fmul, SFmul.
  destruct (binary_round_aux_spec (xorb s1 s) (8388608 * m) (-23 + e) e)
    as (R & HR & Habs & Htie & Hcanon & ->).
  - change (8388608 * m)%positive with (Pos.iter xO m 23).
    rewrite digits2_pos_shift. lia.
  - lia.
  - replace (e - (-23 + e)) with 23 in Habs by lia.
    change (Zpos (8388608 * m)) with (8388608 * Zpos m) in Habs.
    change (2 ^ 23) with 8388608 in Habs.
    assert (R = Zpos m) by lia. subst R.
    unfold pack. destruct (Z.eqb_spec (Zpos m) 16777216); [lia|].
    destruct (Z.leb_spec e 104); [reflexivity | lia].
Qed.

Lemma fmul_one_l (x : float) : valid x = true -> fmul fone x = x.
Proof.
  intros V. destruct x as [s | s | | s m e]; try reflexivity.
  exact (fmul_one_finite false s m e V).
Qed.

Lemma fmul_mone_l (x : float) : valid x = true -> fmul (fneg fone) x = fneg x.
Proof.
  intros V. destruct x as [s | s | | s m e]; try reflexivity.
  exact (fmul_one_finite true s m e V).
Qed.

(** The product of two finite floats that are zero or positive is a valid
    float that is zero, positive or plus infinity. *)
Lemma fmul_nonneg (x y : float) :
  valid x = true -> valid y = true ->
  nonneg_finite x = true -> nonneg_finite y = true ->
  valid (fmul x y) = true /\
  (nonneg_finite (fmul x y) = true \/ fmul x y = S754_infinity false).
Proof.
  intros Vx Vy Nx Ny.
  destruct x as [sx | sx | | sx mx ex]; try discriminate;
    destruct y as [sy | sy | | sy my ey]; try discriminate;
    try (split; [reflexivity | left; reflexivity]).
  destruct sx; [discriminate|]. destruct sy; [discriminate|].
  apply valid_finite_inv in Vx. apply valid_finite_inv in Vy.
  unfold fmul, SFmul. cbn [xorb].
  pose proof (digits2_pos_bounds (mx * my)) as [Dlo Dhi].
  set (D := Zpos (digits2_pos (mx * my))) in *.
  assert (HD : -149 < ex + ey -> 24 <= D).
  { intros He. destruct (Z.le_gt_cases 24 D) as [|Hlt]; [assumption|].
    assert (2 ^ D <= 2 ^ 23) by (apply Z.pow_le_mono_r; unfold D; lia).
    change (2 ^ 23) with 8388608 in *. rewrite Pos2Z.inj_mul in Dhi. nia. }
  destruct (binary_round_aux_spec false (mx * my) (ex + ey)
              (Z.max (D + (ex + ey) - 24) (-149)) eq_refl)
    as (R & HR & Habs & Htie & Hcanon & ->).
  - lia.
  - split.
    + apply pack_valid; [lia | assumption | assumption].
    + destruct (pack_sign false R (Z.max (D + (ex + ey) - 24) (-149)))
        as [-> | [-> | (m & e & ->)]]; auto; lia.
Qed.

(** ** The clamped advance of the animation angle *)

Lemma fmin_take (step rem : float) :
  step_ok step -> valid rem = true -> nonneg_finite rem = true ->
  valid (fmin step rem) = true /\ nonneg_finite (fmin step rem) = true /\
  Fmag (fmin step rem) <= Fmag rem.
Proof.
  intros (Vs & Hs) Vr Nr. unfold fmin, flt, SFltb.
  destruct Hs as [Ns | ->].
  - rewrite (fcompare_mag rem step Vr Vs Nr Ns).
    destruct (Z.compare_spec (Fmag rem) (Fmag step)); repeat split; try assumption; lia.
  - destruct rem as [sr | sr | | sr mr er]; try discriminate; cbn;
      repeat split; try assumption; lia.
Qed.

Lemma signed_take (s : bool) (mt : positive) (et : Z) (take : float) :
  valid take = true -> nonneg_finite take = true ->
  let d := fmul (if fge (S754_finite s mt et) fzero then fone else fneg fone) take in
  valid d = true /\ Fmag d = Fmag take /\
  (is_zero d = true \/ exists m e, d = S754_finite s m e).
Proof.
  intros V N d.
  assert (Hd : d = fmul (S754_finite s 8388608 (-23)) take) by now destruct s.
  rewrite Hd. clear d Hd.
  destruct take as [zs | zs | | ts m e]; try discriminate.
  - cbn. auto.
  - destruct ts; [discriminate|].
    rewrite (fmul_one_finite s false m e V). rewrite xorb_false_r.
    split; [exact V|]. split; [reflexivity|]. right. eauto.
Qed.

Lemma fle_of_mag (x y : float) :
  valid x = true -> valid y = true ->
  nonneg_finite x = true -> nonneg_finite y = true ->
  Fmag x <= Fmag y -> fle x y = true.
Proof.
  intros Vx Vy Nx Ny H. unfold fle, SFleb.
  rewrite (fcompare_mag x y Vx Vy Nx Ny).
  destruct (Z.compare_spec (Fmag x) (Fmag y)); try reflexivity. lia.
Qed.

Lemma advance_bound (t c step : float) :
  target_ok t -> angle_ok t c -> step_ok step ->
  let remaining := fabs (fsub t c) in
  let take := fmin step remaining in
  let c' := fadd c (fmul (if fge t fzero then fone else fneg fone) take) in
  angle_ok t c' /\ fle (fabs c') (fabs t) = true.
Proof.
  intros (s & mt & et & -> & Vt & Hnorm & Hev & Het) (Vc & Hc & Hside) Hstep.
  cbn [float_sign] in Hside.
  pose proof (valid_finite_inv s mt et Vt) as (Hetr & Hmt & _ & _).
  assert (HG : 0 < p2 et) by (apply p2_pos; lia).
  set (T := Fmag (S754_finite s mt et)) in *.
  assert (HT : T = Zpos mt * p2 et) by reflexivity.
  assert (HT0 : 0 <= T) by nia.
  assert (Vabs : valid (fabs (S754_finite s mt et)) = true) by exact Vt.
  (* it is enough to bound the magnitude of an angle on the side of the target *)
  assert (Hfinal : forall c', valid c' = true -> Fmag c' <= T ->
             (is_zero c' = true \/ exists m e, c' = S754_finite s m e) ->
             angle_ok (S754_finite s mt et) c' /\
             fle (fabs c') (fabs (S754_finite s mt et)) = true).
  { intros c' V' H' S'. split; [now repeat split|].
    apply fle_of_mag; try assumption.
    - destruct S' as [Z | (m & e & ->)]; [now destruct c' | exact V'].
    - destruct S' as [Z | (m & e & ->)]; [now destruct c' | reflexivity].
    - reflexivity.
    - destruct S' as [Z | (m & e & ->)]; [now destruct c' | exact H']. }
  intros remaining take c'.
  destruct Hside as [Hz | (mc & ec & ->)].
  - (* the current angle is zero *)
    destruct c as [zs | | |]; try discriminate.
    assert (Hrem : remaining = S754_finite false mt et) by reflexivity.
    destruct (fmin_take step remaining Hstep) as (Vk & Nk & Hk);
      [rewrite Hrem; exact Vt | now rewrite Hrem |].
    fold take in Vk, Nk, Hk. rewrite Hrem in Hk.
    destruct (signed_take s mt et take Vk Nk) as (Vd & Hd & Sd).
    subst c'.
    set (d := fmul (if fge (S754_finite s mt et) fzero then fone else fneg fone) take) in *.
    apply Hfinal.
    + destruct Sd as [Z | (m & e & E)]; [destruct d; try discriminate; now destruct zs, s0 |].
      rewrite E in *. exact Vd.
    + destruct Sd as [Z | (m & e & E)];
        [destruct d; try discriminate; destruct zs, s0; cbn [fadd SFadd Fmag]; lia |].
      rewrite E in *. cbn [fadd SFadd]. change (Fmag (S754_finite false mt et)) with T in Hk. lia.
    + destruct Sd as [Z | (m & e & E)]; [destruct d; try discriminate; left; now destruct zs, s0 |].
      rewrite E. right. exists m, e. reflexivity.
  - (* the current angle is finite, on the side of the target *)
    set (C := Fmag (S754_finite s mc ec)) in *.
    assert (HC0 : 0 < C).
    { pose proof (valid_finite_inv s mc ec Vc) as (Hec & _).
      assert (0 < p2 ec) by (apply p2_pos; lia). unfold C. cbn [Fmag]. nia. }
    assert (HTlt : T < 16777216 * p2 et) by nia.
    assert (Hrem : valid remaining = true /\ nonneg_finite remaining = true /\
                   2 * Fmag remaining <= 2 * (T - C) + p2 et).
    { subst remaining.
      destruct (fsub_same_sign s mt et mc ec Vt Vc Hc) as [[Heq ->] | [Hlt Hr]].
      - fold C T in Heq. repeat split; try reflexivity.
        cbn [fabs SFabs Fmag]. lia.
      - apply fabs_rounds_to in Hr. fold T C in Hr.
        destruct (rounds_to_valid _ _ _ Hr) as [Vr Sr].
        destruct (rounds_to_err false (T - C) _ et Hr) as [Fr Er]; [lia | lia |].
        split; [exact Vr|]. split; [|exact Er].
        destruct Sr as [-> | [E | (m & e & ->)]]; try reflexivity.
        rewrite E in Fr. discriminate. }
    destruct Hrem as (Vr & Nr & Er).
    destruct (fmin_take step remaining Hstep Vr Nr) as (Vk & Nk & Hk).
    fold take in Vk, Nk, Hk.
    destruct (signed_take s mt et take Vk Nk) as (Vd & Hd & Sd).
    subst c'.
    set (d := fmul (if fge (S754_finite s mt et) fzero then fone else fneg fone) take) in *.
    destruct Sd as [Z | (m & e & E)].
    + (* nothing is added *)
      destruct d; try discriminate.
      apply Hfinal; [exact Vc | exact Hc | right; exists mc, ec; reflexivity].
    + rewrite E in *.
      pose proof (fadd_same_sign s mc ec m e Vc Vd) as Hr.
      fold C in Hr.
      destruct (rounds_to_valid _ _ _ Hr) as [Vr' Sr'].
      destruct (rounds_to_le s _ _ mt et Hr ltac:(lia) ltac:(lia) Hev ltac:(lia))
        as [Fr' Er'].
      apply Hfinal; [exact Vr' | exact Er' |].
      destruct Sr' as [-> | [E' | (m' & e' & ->)]]; [left; reflexivity | | right; eauto].
      rewrite E' in Fr'. discriminate.
Qed.

(** A valid finite float is determined by its sign and magnitude. *)
Lemma mag_inj (s : bool) (m1 : positive) (e1 : Z) (m2 : positive) (e2 : Z) :
  valid (S754_finite s m1 e1) = true -> valid (S754_finite s m2 e2) = true ->
  Fmag (S754_finite s m1 e1) = Fmag (S754_finite s m2 e2) ->
  S754_finite s m1 e1 = S754_finite s m2 e2.
Proof.
  intros V1 V2 H.
  pose proof (fcompare_mag (S754_finite false m1 e1) (S754_finite false m2 e2)
                V1 V2 eq_refl eq_refl) as Hc.
  change (Fmag (S754_finite false m1 e1)) with (Fmag (S754_finite s m1 e1)) in Hc.
  change (Fmag (S754_finite false m2 e2)) with (Fmag (S754_finite s m2 e2)) in Hc.
  rewrite H, Z.compare_refl in Hc. cbn [SFcompare] in Hc.
  destruct (Z.compare_spec e1 e2) as [-> | |]; try discriminate.
  injection Hc as Hc. change (Pos.compare_cont Eq m1 m2) with (Pos.compare m1 m2) in Hc.
  apply Pos.compare_eq in Hc. now subst.
Qed.

Lemma rounds_to_err_lower (s : bool) (X : Z) (r : float) (et : Z) :
  rounds_to s X r -> -149 <= et <= 103 -> X < 16777216 * p2 et ->
  2 * X <= 2 * Fmag r + p2 et.
Proof.
  intros Hr Het Hlt. destruct (rounds_to_err s X r et Hr Het Hlt) as [Hfin _].
  destruct Hr as (E & R & HE & HX & HR & Habs & Htie & Hcan & ->).
  set (e' := Z.max (E - 24) (-149)) in *.
  assert (He' : e' <= et) by (apply (rounds_to_exponent E X et); lia).
  assert (Hp : p2 e' <= p2 et) by (apply p2_le; lia).
  rewrite pack_mag by (try assumption; lia). lia.
Qed.

Lemma rounds_to_ge (s : bool) (X : Z) (r : float) (mt : positive) (et : Z) :
  rounds_to s X r -> -149 <= et <= 103 ->
  8388608 < Zpos mt < 16777216 -> Z.even (Zpos mt) = true ->
  2 * (Zpos mt * p2 et) <= 2 * X + p2 et -> X < 16777216 * p2 et ->
  Zpos mt * p2 et <= Fmag r.
Proof.
  intros Hr Het Hmt Hev Hge Hlt.
  destruct (rounds_to_err s X r et Hr Het Hlt) as [Hfin _].
  destruct Hr as (E & R & HE & HX & HR & Habs & Htie & Hcan & ->).
  set (e' := Z.max (E - 24) (-149)) in *.
  assert (HG : 0 < p2 et) by (apply p2_pos; lia).
  assert (He' : e' <= et) by (apply (rounds_to_exponent E X et); lia).
  assert (Hp0 : 0 < p2 e') by (apply p2_pos; lia).
  rewrite pack_mag by (try assumption; lia).
  destruct (Z.eq_dec e' et) as [Heq | Hne].
  - rewrite Heq in *.
    assert (Zpos mt - 1 <= R) by nia.
    destruct (Z.eq_dec R (Zpos mt - 1)) as [HR1 | HR1]; [|nia].
    assert (Hev' : Z.even R = true) by (apply Htie; nia).
    rewrite HR1, Z.even_sub, Hev in Hev'. discriminate.
  - exfalso.
    assert (E + 149 <= et + 172) by lia.
    assert (2 ^ (E + 149) <= 2 ^ (et + 172)) by (apply Z.pow_le_mono_r; lia).
    assert (2 ^ (et + 172) = 8388608 * p2 et).
    { unfold p2. replace (et + 172) with (23 + (et + 149)) by lia.
      rewrite (Z.pow_add_r 2 23 (et + 149)) by lia. reflexivity. }
    nia.
Qed.

Lemma rounds_to_pos (s : bool) (X : Z) (r : float) :
  rounds_to s X r -> is_finite r = true -> 0 < Fmag r.
Proof.
  intros (E & R & HE & HX & HR & Habs & Htie & Hcan & ->) Hfin.
  set (e' := Z.max (E - 24) (-149)) in *.
  assert (Hp0 : 0 < p2 e') by (apply p2_pos; lia).
  rewrite pack_mag by (try assumption; lia).
  assert (Hle : p2 e' <= 2 ^ (E + 148)).
  { unfold p2. apply Z.pow_le_mono_r; lia. }
  assert (0 < 2 ^ (E + 148)) by (apply Z.pow_pos_nonneg; lia).
  destruct (Z.eq_dec R 0) as [-> | Hne]; [lia | nia].
Qed.

Lemma fmin_take_all (step rem : float) :
  step_ok step -> valid rem = true -> nonneg_finite rem = true ->
  fle rem step = true -> Fmag (fmin step rem) = Fmag rem.
Proof.
  intros (Vs & Hs) Vr Nr. unfold fmin, flt, fle, SFltb, SFleb.
  destruct Hs as [Ns | ->].
  - rewrite (fcompare_mag rem step Vr Vs Nr Ns).
    destruct (Z.compare_spec (Fmag rem) (Fmag step)); try discriminate; intros _; lia.
  - destruct rem as [sr | sr | | sr mr er]; try discriminate; reflexivity.
Qed.

Lemma nonneg_finite_mag_zero (x : float) :
  valid x = true -> nonneg_finite x = true -> Fmag x = 0 -> is_zero x = true.
Proof.
  intros V N H. destruct x as [| | | s m e]; try discriminate; [reflexivity|].
  apply valid_finite_inv in V. cbn [Fmag] in H.
  assert (0 < p2 e) by (apply p2_pos; lia). nia.
Qed.

(** When the step covers the remaining angle, the advanced angle is the
    target. *)
Lemma advance_reaches (t c step : float) :
  target_ok t -> angle_ok t c -> step_ok step ->
  let remaining := fabs (fsub t c) in
  let take := fmin step remaining in
  let c' := fadd c (fmul (if fge t fzero then fone else fneg fone) take) in
  fle remaining step = true -> c' = t.
Proof.
  intros Ht Hc Hstep remaining take c' Hcover.
  destruct (advance_bound t c step Ht Hc Hstep) as [(V' & Hle' & Side') _].
  fold remaining take c' in V', Hle', Side'.
  destruct Ht as (s & mt & et & -> & Vt & Hnorm & Hev & Het).
  destruct Hc as (Vc & Hc & Hside). cbn [float_sign] in Hside, Side'.
  pose proof (valid_finite_inv s mt et Vt) as (Hetr & Hmt & _ & _).
  assert (HG : 0 < p2 et) by (apply p2_pos; lia).
  set (T := Fmag (S754_finite s mt et)) in *.
  assert (HT : T = Zpos mt * p2 et) by reflexivity.
  assert (HT0 : 0 < T) by nia.
  assert (HTlt : T < 16777216 * p2 et) by nia.
  (* it is enough to show that the magnitude is at least that of the target *)
  assert (Hfinal : T <= Fmag c' -> c' = S754_finite s mt et).
  { intros Hge. destruct Side' as [Z | (m & e & E)].
    - destruct c'; try discriminate. cbn [Fmag] in Hge. lia.
    - rewrite E in *. apply mag_inj; [exact V' | exact Vt | fold T; lia]. }
  apply Hfinal. clear Hfinal. subst c'.
  destruct Hside as [Hz | (mc & ec & ->)].
  - (* the current angle is zero *)
    destruct c as [zs | | |]; try discriminate.
    assert (Hrem : remaining = S754_finite false mt et) by reflexivity.
    assert (Vr : valid remaining = true) by (rewrite Hrem; exact Vt).
    assert (Nr : nonneg_finite remaining = true) by now rewrite Hrem.
    destruct (fmin_take step remaining Hstep Vr Nr) as (Vk & Nk & _).
    pose proof (fmin_take_all step remaining Hstep Vr Nr Hcover) as Hk.
    fold take in Vk, Nk, Hk. rewrite Hrem in Hk.
    change (Fmag (S754_finite false mt et)) with T in Hk.
    destruct (signed_take s mt et take Vk Nk) as (Vd & Hd & Sd).
    set (d := fmul (if fge (S754_finite s mt et) fzero then fone else fneg fone) take) in *.
    destruct Sd as [Z | (m & e & E)].
    + destruct d; try discriminate. cbn [Fmag] in Hd. lia.
    + rewrite E in *. cbn [fadd SFadd]. lia.
  - set (C := Fmag (S754_finite s mc ec)) in *.
    assert (HC0 : 0 < C).
    { pose proof (valid_finite_inv s mc ec Vc) as (Hec & _).
      assert (0 < p2 ec) by (apply p2_pos; lia). unfold C. cbn [Fmag]. nia. }
    assert (Hrem : valid remaining = true /\ nonneg_finite remaining = true /\
                   2 * (T - C) <= 2 * Fmag remaining + p2 et /\
                   (C < T -> 0 < Fmag remaining)).
    { subst remaining.
      destruct (fsub_same_sign s mt et mc ec Vt Vc Hc) as [[Heq ->] | [Hlt Hr]].
      - fold C T in Heq. repeat split; try reflexivity; cbn [fabs SFabs Fmag]; lia.
      - apply fabs_rounds_to in Hr. fold T C in Hr.
        destruct (rounds_to_valid _ _ _ Hr) as [Vr Sr].
        destruct (rounds_to_err false (T - C) _ et Hr) as [Fr Er]; [lia | lia |].
        pose proof (rounds_to_err_lower false (T - C) _ et Hr ltac:(lia) ltac:(lia)).
        pose proof (rounds_to_pos _ _ _ Hr Fr).
        split; [exact Vr|]. split; [|split; [assumption | intros _; assumption]].
        destruct Sr as [-> | [E | (m & e & ->)]]; try reflexivity.
        rewrite E in Fr. discriminate. }
    destruct Hrem as (Vr & Nr & Er & Pr).
    destruct (fmin_take step remaining Hstep Vr Nr) as (Vk & Nk & Hkle).
    pose proof (fmin_take_all step remaining Hstep Vr Nr Hcover) as Hk.
    fold take in Vk, Nk, Hk, Hkle.
    destruct (signed_take s mt et take Vk Nk) as (Vd & Hd & Sd).
    set (d := fmul (if fge (S754_finite s mt et) fzero then fone else fneg fone) take) in *.
    destruct Sd as [Z | (m & e & E)].
    + (* nothing remains: the current angle is the target *)
      destruct d; try discriminate. cbn [Fmag] in Hd.
      change (Fmag (fadd (S754_finite s mc ec) (S754_zero s0))) with C.
      destruct (Z.le_gt_cases T C) as [|Hlt]; [assumption|].
      specialize (Pr Hlt). lia.
    + rewrite E in *.
      pose proof (fadd_same_sign s mc ec m e Vc Vd) as Hr.
      fold C in Hr.
      apply (rounds_to_ge s _ _ mt et Hr); try lia; [exact Hev|].
      assert (2 * (Fmag (S754_finite s m e)) <= 2 * (T - C) + p2 et).
      { destruct (fsub_same_sign s mt et mc ec Vt Vc Hc) as [[Heq Hz] | [Hlt Hs]].
        - fold C T in Heq. subst remaining. rewrite Hz in Hk. cbn [fabs SFabs Fmag] in Hk. lia.
        - apply fabs_rounds_to in Hs. fold T C remaining in Hs.
          destruct (rounds_to_err false (T - C) _ et Hs) as [_ Er']; lia. }
      nia.
Qed.


(** ** update: the clamped advance and the completion of an animation *)

Lemma turnAngles_target_ok (t : float) : In t turnAngles -> target_ok t.
Proof.
  intros [<- | [<- | [<- | []]]].
  - exists false, 11796480%positive, (-17). repeat split; cbn; lia.
  - exists true, 11796480%positive, (-17). repeat split; cbn; lia.
  - exists false, 11796480%positive, (-16). repeat split; cbn; lia.
Qed.

Lemma finiteNonneg_inv (x : float) :
  finiteNonneg x = true -> valid x = true /\ nonneg_finite x = true.
Proof. unfold finiteNonneg. now rewrite andb_true_iff. Qed.

Lemma step_ok_mul (speed dt : float) :
  finiteNonneg speed = true -> finiteNonneg dt = true -> step_ok (fmul speed dt).
Proof.
  intros Hs Hd. apply finiteNonneg_inv in Hs. apply finiteNonneg_inv in Hd.
  destruct Hs as [Vs Ns], Hd as [Vd Nd]. now apply fmul_nonneg.
Qed.

Lemma angle_ok_zero (t : float) : target_ok t -> angle_ok t fzero.
Proof.
  intros (s & mt & et & -> & Vt & _). repeat split; [|now left].
  apply valid_finite_inv in Vt. cbn [Fmag fzero].
  assert (0 < p2 et) by (apply p2_pos; lia). nia.
Qed.

Lemma angle_ok_fle (t c : float) :
  target_ok t -> angle_ok t c -> fle (fabs c) (fabs t) = true.
Proof.
  intros (s & mt & et & -> & Vt & _) (Vc & Hc & Hside). cbn [float_sign] in Hside.
  apply fle_of_mag.
  - destruct Hside as [Z | (m & e & ->)]; [now destruct c | exact Vc].
  - exact Vt.
  - destruct Hside as [Z | (m & e & ->)]; [now destruct c | reflexivity].
  - reflexivity.
  - destruct Hside as [Z | (m & e & ->)]; [now destruct c | exact Hc].
Qed.

Lemma advancedAngle_ok (a : Anim) (dt : float) :
  In (targetAngle a) turnAngles -> angle_ok (targetAngle a) (currentAngle a) ->
  finiteNonneg (speedDeg a) = true -> finiteNonneg dt = true ->
  angle_ok (targetAngle a) (advancedAngle a dt) /\
  fle (fabs (advancedAngle a dt)) (fabs (targetAngle a)) = true.
Proof.
  intros Ht Hc Hs Hd. unfold advancedAngle.
  apply advance_bound; [now apply turnAngles_target_ok | exact Hc | now apply step_ok_mul].
Qed.

Lemma advancedAngle_reaches (a : Anim) (dt : float) :
  In (targetAngle a) turnAngles -> angle_ok (targetAngle a) (currentAngle a) ->
  finiteNonneg (speedDeg a) = true -> finiteNonneg dt = true ->
  fle (fabs (fsub (targetAngle a) (currentAngle a))) (fmul (speedDeg a) dt) = true ->
  advancedAngle a dt = targetAngle a.
Proof.
  intros Ht Hc Hs Hd Hcover. unfold advancedAngle.
  apply advance_reaches;
    [now apply turnAngles_target_ok | exact Hc | now apply step_ok_mul | exact Hcover].
Qed.

Lemma animationDone_at_target (a : Anim) :
  In (targetAngle a) turnAngles -> animationDone a (targetAngle a) = true.
Proof.
  intros Ht. unfold animationDone. apply orb_true_iff. left.
  destruct Ht as [<- | [<- | [<- | []]]]; reflexivity.
Qed.

Lemma update_active (L : libm) (c : Core) (dt : float) :
  active (m_anim c) = true ->
  update L c dt =
  if animationDone (m_anim c) (advancedAngle (m_anim c) dt)
  then startNextInQueue (finishedCore L c)
  else set_anim c (set_currentAngle (m_anim c) (advancedAngle (m_anim c) dt)).
Proof.
  intros Ha. unfold update. rewrite Ha.
  destruct (animationDone (m_anim c) (advancedAngle (m_anim c) dt)); reflexivity.
Qed.

Lemma finishedCore_fields (L : libm) (c : Core) :
  active (m_anim (finishedCore L c)) = false /\
  currentAngle (m_anim (finishedCore L c)) = fzero /\
  speedDeg (m_anim (finishedCore L c)) = speedDeg (m_anim c) /\
  m_queue (finishedCore L c) = m_queue c /\
  m_stickers (finishedCore L c) =
    m_stickers (applyRotationDiscrete L c (axis (m_anim c)) (layer (m_anim c))
                                      (targetAngle (m_anim c))).
Proof. repeat split. Qed.

Lemma startNextInQueue_speed (c : Core) :
  speedDeg (m_anim (startNextInQueue c)) = speedDeg (m_anim c).
Proof.
  unfold startNextInQueue. destruct (active (m_anim c)); [reflexivity|].
  destruct (m_queue c) as [|mv rest]; [reflexivity|].
  destruct (parseMove mv) as [[[face amount] prime]|]; [|reflexivity].
  now rewrite startParsedMove_anim.
Qed.

Lemma startParsedMove_angleInvariant (c : Core) (move : string) face amount prime :
  parseMove move = Some (face, amount, prime) ->
  angleInvariant (startParsedMove c face amount prime).
Proof.
  intros Hp _. rewrite startParsedMove_anim. cbn [targetAngle currentAngle].
  apply parseMove_amount in Hp.
  pose proof (moveAngle_valid amount prime Hp) as Hang.
  split; [exact Hang|]. apply angle_ok_zero. now apply turnAngles_target_ok.
Qed.

Lemma startNextInQueue_angleInvariant (c : Core) :
  angleInvariant c -> angleInvariant (startNextInQueue c).
Proof.
  intros Hinv. unfold startNextInQueue.
  destruct (active (m_anim c)) eqn:Hact; [exact Hinv|].
  destruct (m_queue c) as [|mv rest]; [exact Hinv|].
  destruct (parseMove mv) as [[[face amount] prime]|] eqn:Hp.
  - now apply (startParsedMove_angleInvariant _ mv).
  - intros H. cbn [m_anim set_queue] in H. congruence.
Qed.

Lemma update_angleInvariant (L : libm) (c : Core) (dt : float) :
  finiteNonneg (speedDeg (m_anim c)) = true -> finiteNonneg dt = true ->
  angleInvariant c -> angleInvariant (update L c dt).
Proof.
  intros Hs Hd Hinv. destruct (active (m_anim c)) eqn:Hact.
  - rewrite (update_active L c dt Hact).
    destruct (Hinv Hact) as [Ht Hc].
    destruct (animationDone (m_anim c) (advancedAngle (m_anim c) dt)).
    + apply startNextInQueue_angleInvariant. intros H.
      rewrite (proj1 (finishedCore_fields L c)) in H. discriminate.
    + intros _. cbn [m_anim set_anim set_currentAngle targetAngle currentAngle].
      split; [exact Ht|]. now apply advancedAngle_ok.
  - unfold update. rewrite Hact. destruct (m_queue c); [exact Hinv|].
    now apply startNextInQueue_angleInvariant.
Qed.

Lemma update_speed (L : libm) (c : Core) (dt : float) :
  speedDeg (m_anim (update L c dt)) = speedDeg (m_anim c).
Proof.
  unfold update. destruct (active (m_anim c)).
  - destruct (animationDone (m_anim c) (advancedAngle (m_anim c) dt)); [|reflexivity].
    now rewrite startNextInQueue_speed.
  - destruct (m_queue c); [reflexivity|]. apply startNextInQueue_speed.
Qed.

Lemma step_speed (L : libm) (c : Core) (o : Op) :
  speedDeg (m_anim (step L c o)) = speedDeg (m_anim c).
Proof.
  destruct o as [dt | mv | mv |]; cbn [step].
  - apply update_speed.
  - unfold queueMove. now destruct (parseMove mv).
  - unfold startMoveImmediate.
    destruct (parseMove mv) as [[[face amount] prime]|]; [|reflexivity].
    cbn [snd]. now rewrite startParsedMove_anim.
  - reflexivity.
Qed.

Lemma step_angleInvariant (L : libm) (c : Core) (o : Op) :
  finiteNonneg (speedDeg (m_anim c)) = true -> opTimeOk o = true ->
  angleInvariant c -> angleInvariant (step L c o).
Proof.
  intros Hs Ho Hinv. destruct o as [dt | mv | mv |]; cbn [step opTimeOk] in *.
  - now apply update_angleInvariant.
  - unfold queueMove. destruct (parseMove mv); exact Hinv.
  - unfold startMoveImmediate.
    destruct (parseMove mv) as [[[face amount] prime]|] eqn:Hp; cbn [snd].
    + now apply (startParsedMove_angleInvariant _ mv).
    + exact Hinv.
  - exact Hinv.
Qed.

Lemma run_angleInvariant (L : libm) (ops : list Op) (c : Core) :
  finiteNonneg (speedDeg (m_anim c)) = true -> forallb opTimeOk ops = true ->
  angleInvariant c ->
  angleInvariant (run L c ops) /\
  speedDeg (m_anim (run L c ops)) = speedDeg (m_anim c).
Proof.
  unfold run. revert c. induction ops as [|o ops IH]; intros c Hs Hops Hinv.
  - split; [exact Hinv | reflexivity].
  - cbn [forallb] in Hops. apply andb_true_iff in Hops. destruct Hops as [Ho Hops].
    cbn [fold_left].
    destruct (IH (step L c o)) as [H1 H2].
    + now rewrite step_speed.
    + exact Hops.
    + now apply step_angleInvariant.
    + split; [exact H1|]. now rewrite H2, step_speed.
Qed.

Lemma construct_angleInvariant (L : libm) (cubieSize gap speed : float) :
  angleInvariant (construct L cubieSize gap speed) /\
  speedDeg (m_anim (construct L cubieSize gap speed)) = speed.
Proof. split; [intros H; discriminate H | reflexivity]. Qed.

Lemma startNextInQueue_idle_empty (c : Core) :
  active (m_anim c) = false -> m_queue c = [] -> startNextInQueue c = c.
Proof. intros Ha Hq. unfold startNextInQueue. now rewrite Ha, Hq. Qed.

Lemma startNextInQueue_idle_cons (c : Core) mv rest face amount prime :
  active (m_anim c) = false -> m_queue c = mv :: rest ->
  parseMove mv = Some (face, amount, prime) ->
  startNextInQueue c = startParsedMove (set_queue c rest) face amount prime.
Proof. intros Ha Hq Hp. unfold startNextInQueue. now rewrite Ha, Hq, Hp. Qed.

(** C5, as stated, fails for a negative speed: with speedDeg = -60 and the
    move "R" started, two ticks of one second leave the animation active
    with targetAngle 90 and currentAngle -120. *)
Lemma update_negative_speed_counterexample :
  isAnimating core_negative_speed = true /\
  targetAngle (m_anim core_negative_speed) = of_int 90 /\
  currentAngle (m_anim core_negative_speed) = fneg (of_int 120) /\
  flt (fabs (targetAngle (m_anim core_negative_speed)))
      (fabs (currentAngle (m_anim core_negative_speed))) = true.
Proof. vm_compute. repeat split. Qed.

(** C5, amended.  In every state that the operations reach from a core
    constructed with a finite speed that is not negative, with finite tick
    times that are not negative, an active animation has |currentAngle| at
    most |targetAngle|.  A tick with such a time computes the angle
    currentAngle + sign(targetAngle) * min(speedDeg * deltaSeconds,
    |targetAngle - currentAngle|), whose magnitude is again at most
    |targetAngle|, and which is exactly targetAngle when the step covers the
    remaining angle.  The completion test of the tick passes when the
    magnitude of that angle is within 1e-3 of |targetAngle| or the
    remaining angle was at most 1e-4; it passes whenever the angle is
    targetAngle.  If the test fails, [update] stores that angle and changes
    nothing else.  If it passes, whether the angle has reached targetAngle
    or only come within the tolerance, the same call mutates the stickers
    by [applyRotationDiscrete] with the animation's axis, layer and exactly
    targetAngle (the advanced angle is not used), deactivates the animation
    with currentAngle 0, and starts the next queued move if there is one. *)
Theorem update_advances_clamped (L : libm) (cubieSize gap speed : float)
        (ops : list Op) (dt : float) :
  finiteNonneg speed = true -> forallb opTimeOk ops = true ->
  finiteNonneg dt = true ->
  let c := run L (construct L cubieSize gap speed) ops in
  let a := m_anim c in
  let newAngle := advancedAngle a dt in
  active a = true ->
  fle (fabs (currentAngle a)) (fabs (targetAngle a)) = true /\
  newAngle =
    fadd (currentAngle a)
         (fmul (if fge (targetAngle a) fzero then fone else fneg fone)
               (fmin (fmul (speedDeg a) dt)
                     (fabs (fsub (targetAngle a) (currentAngle a))))) /\
  fle (fabs newAngle) (fabs (targetAngle a)) = true /\
  (fle (fabs (fsub (targetAngle a) (currentAngle a))) (fmul (speedDeg a) dt) = true ->
   newAngle = targetAngle a) /\
  animationDone a newAngle =
    (flt (fabs (fsub (fabs newAngle) (fabs (targetAngle a)))) f_0_001
     || fle (fabs (fsub (targetAngle a) (currentAngle a))) f_1em4) /\
  (newAngle = targetAngle a -> animationDone a newAngle = true) /\
  (animationDone a newAngle = false ->
   update L c dt = set_anim c (set_currentAngle a newAngle)) /\
  (animationDone a newAngle = true ->
   update L c dt = startNextInQueue (finishedCore L c) /\
   m_stickers (update L c dt) =
     m_stickers (applyRotationDiscrete L c (axis a) (layer a) (targetAngle a)) /\
   (m_queue c = [] ->
    isAnimating (update L c dt) = false /\
    currentAngle (m_anim (update L c dt)) = fzero) /\
   (forall mv rest face amount prime,
      m_queue c = mv :: rest -> parseMove mv = Some (face, amount, prime) ->
      m_anim (update L c dt) =
        mkAnim true (fst (faceAxisLayer face)) (snd (faceAxisLayer face))
               (moveAngle amount prime) fzero (speedDeg a) /\
      m_queue (update L c dt) = rest)).
Proof.
  intros Hspeed Hops Hdt c a newAngle Hact.
  destruct (construct_angleInvariant L cubieSize gap speed) as [Hinv0 Hsp0].
  destruct (run_angleInvariant L ops (construct L cubieSize gap speed))
    as [Hinv Hsp]; [now rewrite Hsp0 | exact Hops | exact Hinv0 |].
  fold c in Hinv, Hsp. rewrite Hsp0 in Hsp.
  destruct (Hinv Hact) as [Ht Hc]. fold a in Ht, Hc.
  assert (Hsa : finiteNonneg (speedDeg a) = true) by (unfold a; now rewrite Hsp).
  pose proof (turnAngles_target_ok _ Ht) as Htok.
  split; [now apply angle_ok_fle|].
  split; [reflexivity|].
  split; [now apply advancedAngle_ok|].
  split; [now apply advancedAngle_reaches|].
  split; [reflexivity|].
  split; [intros Hreach; rewrite Hreach; now apply animationDone_at_target|].
  split.
  { intros Hnot. rewrite (update_active L c dt Hact). fold a newAngle.
    now rewrite Hnot. }
  intros Hdone.
  assert (Hupd : update L c dt = startNextInQueue (finishedCore L c)).
  { rewrite (update_active L c dt Hact). fold a newAngle. now rewrite Hdone. }
  destruct (finishedCore_fields L c) as (Fa & Fc & Fs & Fq & Fst).
  split; [exact Hupd|]. rewrite Hupd.
  split; [now rewrite startNextInQueue_stickers|].
  split.
  - intros Hq. rewrite startNextInQueue_idle_empty;
      [split; assumption | assumption | now rewrite Fq].
  - intros mv rest face amount prime Hq Hp.
    rewrite (startNextInQueue_idle_cons _ mv rest face amount prime);
      [| assumption | now rewrite Fq | assumption].
    rewrite startParsedMove_anim.
    rewrite (proj1 (startParsedMove_frame _ _ _ _)).
    split; reflexivity.
Qed.

Lemma update_advances_clamped_witness :
  finiteNonneg (of_bits 0x44340000) = true /\
  forallb opTimeOk [OpStartMoveImmediate "R"] = true /\
  finiteNonneg (of_bits 0x3dffff45) = true /\
  active (m_anim (run libm_table core0 [OpStartMoveImmediate "R"])) = true /\
  advancedAngle (m_anim (run libm_table core0 [OpStartMoveImmediate "R"]))
                (of_bits 0x3dffff45) <> f_90 /\
  fle (fabs (advancedAngle (m_anim (run libm_table core0 [OpStartMoveImmediate "R"]))
                           (of_bits 0x3dffff45)))
      (fabs (targetAngle (m_anim (run libm_table core0 [OpStartMoveImmediate "R"]))))
    = true /\
  animationDone (m_anim (run libm_table core0 [OpStartMoveImmediate "R"]))
                (advancedAngle (m_anim (run libm_table core0 [OpStartMoveImmediate "R"]))
                               (of_bits 0x3dffff45)) = true /\
  m_stickers (update libm_table (run libm_table core0 [OpStartMoveImmediate "R"])
                     (of_bits 0x3dffff45)) =
    m_stickers (applyRotationDiscrete libm_table
                  (run libm_table core0 [OpStartMoveImmediate "R"])
                  (Vec3 fone fzero fzero) 1 f_90) /\
  isAnimating (update libm_table (run libm_table core0 [OpStartMoveImmediate "R"])
                      (of_bits 0x3dffff45)) = false.
Proof.
  assert (H1 : finiteNonneg (of_bits 0x44340000) = true) by reflexivity.
  assert (H2 : forallb opTimeOk [OpStartMoveImmediate "R"] = true) by reflexivity.
  assert (H3 : finiteNonneg (of_bits 0x3dffff45) = true) by reflexivity.
  assert (H4 : active (m_anim (run libm_table core0 [OpStartMoveImmediate "R"])) = true)
    by reflexivity.
  assert (H5 : advancedAngle (m_anim (run libm_table core0 [OpStartMoveImmediate "R"]))
                             (of_bits 0x3dffff45) <> f_90) by discriminate.
  assert (H6 : animationDone (m_anim (run libm_table core0 [OpStartMoveImmediate "R"]))
                 (advancedAngle (m_anim (run libm_table core0 [OpStartMoveImmediate "R"]))
                                (of_bits 0x3dffff45)) = true) by reflexivity.
  assert (H7 : m_queue (run libm_table core0 [OpStartMoveImmediate "R"]) = [])
    by reflexivity.
  pose proof (update_advances_clamped libm_table (of_bits 0x3f666666)
                (of_bits 0x3cf5c28f) (of_bits 0x44340000) _ _ H1 H2 H3 H4) as T.
  destruct T as (_ & _ & T3 & _ & _ & _ & _ & T8).
  destruct (T8 H6) as (_ & Tst & Tidle & _).
  exact (conj H1 (conj H2 (conj H3 (conj H4 (conj H5 (conj T3 (conj H6
           (conj Tst (proj1 (Tidle H7)))))))))).
Defined.

(** The tick of the witness completes through the tolerance: the advanced
    angle is 89.999..., not 90, and the stickers are those of the quarter
    turn. *)
Example update_completes_by_tolerance :
  let c := run libm_table core0 [OpStartMoveImmediate "R"] in
  advancedAngle (m_anim c) (of_bits 0x3dffff45) = S754_finite false 11796349 (-17) /\
  f_90 = S754_finite false 11796480 (-17) /\
  animationDone (m_anim c) (advancedAngle (m_anim c) (of_bits 0x3dffff45)) = true /\
  map placeOf (m_stickers (update libm_table c (of_bits 0x3dffff45))) =
    map (turnPlace (Vec3 fone fzero fzero) 1 f_90) initialPlaces.
Proof. vm_compute. repeat split. Qed.

Example update_completes_R :
  let c := run libm_table core0
               [OpStartMoveImmediate "R"; OpQueueMove "U'";
                OpUpdate (of_bits 0x3d800000)] in
  currentAngle (m_anim c) = of_int 45 /\
  advancedAngle (m_anim c) (of_bits 0x3d800000) = of_int 90 /\
  m_anim (update libm_table c (of_bits 0x3d800000)) =
    mkAnim true (Vec3 fzero fone fzero) 1 (fneg (of_int 90)) fzero (of_int 720) /\
  m_queue (update libm_table c (of_bits 0x3d800000)) = [] /\
  map placeOf (m_stickers (update libm_table c (of_bits 0x3d800000))) =
    map (turnPlace (Vec3 fone fzero fzero) 1 (of_int 90)) initialPlaces.
Proof. vm_compute. repeat split. Qed.

(** * The transforms at the start of an animation *)

Lemma feq_refl a : feq a a.
Proof. now left. Qed.

Lemma feq_sym a b : feq a b -> feq b a.
Proof. intros [-> | [H1 H2]]; [now left | now right]. Qed.

Lemma feq_trans a b c : feq a b -> feq b c -> feq a c.
Proof.
  intros [-> | [H1 H2]] [-> | [H3 H4]]; try (now left); try (now right).
Qed.

Lemma fadd_feq a a' b b' : feq a a' -> feq b b' -> feq (fadd a b) (fadd a' b').
Proof.
  intros [-> | [H1 H2]] [-> | [H3 H4]]; [now left | | |].
  - destruct b; try discriminate; destruct b'; try discriminate.
    destruct a' as [[] | | |]; destruct s, s0; cbn; try (now left); now right.
  - destruct a; try discriminate; destruct a'; try discriminate.
    destruct b' as [[] | | |]; destruct s, s0; cbn; try (now left); now right.
  - destruct a; try discriminate; destruct a'; try discriminate.
    destruct b; try discriminate; destruct b'; try discriminate.
    destruct s, s0, s1, s2; cbn; now right.
Qed.

Lemma fmul_feq a a' b b' : feq a a' -> feq b b' -> feq (fmul a b) (fmul a' b').
Proof.
  intros [-> | [H1 H2]] [-> | [H3 H4]]; [now left | | |].
  - destruct b; try discriminate; destruct b'; try discriminate.
    destruct a' as [[] | | |]; destruct s, s0; cbn; try (now left); now right.
  - destruct a; try discriminate; destruct a'; try discriminate.
    destruct b' as [[] | | |]; destruct s, s0; cbn; try (now left); now right.
  - destruct a; try discriminate; destruct a'; try discriminate.
    destruct b; try discriminate; destruct b'; try discriminate.
    destruct s, s0, s1, s2; cbn; now right.
Qed.

Lemma fmul_comm a b : fmul a b = fmul b a.
Proof.
  destruct a as [s | s | | s m e], b as [s' | s' | | s' m' e']; cbn;
    try reflexivity; try (now rewrite xorb_comm).
  unfold fmul, SFmul. now rewrite xorb_comm, Pos.mul_comm, Z.add_comm.
Qed.

Lemma fmul_one_r (x : float) : valid x = true -> fmul x fone = x.
Proof. intros V. rewrite fmul_comm. now apply fmul_one_l. Qed.

Lemma fadd_opp_finite (s : bool) (m : positive) (e : Z) :
  fadd (S754_finite (negb s) m e) (S754_finite s m e) = S754_zero false /\
  fadd (S754_finite s m e) (S754_finite (negb s) m e) = S754_zero false.
Proof.
  unfold fadd, SFadd. rewrite Z.min_id. unfold shl_align. rewrite Z.sub_diag.
  cbn [fst]. destruct s; cbn [negb cond_Zopp]; cbn; now rewrite Z.pos_sub_diag.
Qed.

Lemma feq_feqb a b : feq a b -> is_finite b = true -> feqb a b = true.
Proof.
  intros [-> | [H1 H2]] Hf.
  - destruct b as [s | s | | s m e]; try discriminate; [reflexivity|].
    unfold feqb, SFeqb. cbn [SFcompare]. rewrite Z.compare_refl.
    change (Pos.compare_cont Eq m m) with (Pos.compare m m).
    rewrite Pos.compare_refl. now destruct s.
  - destruct a; try discriminate. destruct b; try discriminate. reflexivity.
Qed.

Lemma fmul_zero_l (z x : float) :
  is_zero z = true -> is_finite x = true -> is_zero (fmul z x) = true.
Proof. destruct z; try discriminate. destruct x; try discriminate; reflexivity. Qed.

Lemma fmul_zero_r (z x : float) :
  is_zero z = true -> is_finite x = true -> is_zero (fmul x z) = true.
Proof. destruct z; try discriminate. destruct x; try discriminate; reflexivity. Qed.

Lemma fadd_zero_r (x z : float) :
  is_finite x = true -> is_zero z = true -> feq (fadd x z) x.
Proof.
  destruct z; try discriminate. destruct x as [[] | | |]; try discriminate;
    intros _ _; destruct s; cbn; try (now left); now right.
Qed.

Lemma fadd_zero_l (x z : float) :
  is_finite x = true -> is_zero z = true -> feq (fadd z x) x.
Proof.
  destruct z; try discriminate. destruct x as [[] | | |]; try discriminate;
    intros _ _; destruct s; cbn; try (now left); now right.
Qed.

Lemma fadd_zero_zero (a b : float) :
  is_zero a = true -> is_zero b = true -> is_zero (fadd a b) = true.
Proof.
  destruct a; try discriminate. destruct b; try discriminate.
  now destruct s, s0.
Qed.

Lemma fadd_opp (x : float) :
  is_finite x = true ->
  is_zero (fadd (fneg x) x) = true /\ is_zero (fadd x (fneg x)) = true.
Proof.
  destruct x as [[] | | | s m e]; try discriminate; intros _; try (now split).
  cbn [fneg SFopp]. destruct (fadd_opp_finite s m e) as [-> ->]. now split.
Qed.

Lemma okf_fneg (x : float) : okf x -> okf (fneg x).
Proof. destruct x; intros [V F]; split; try discriminate; assumption. Qed.

Lemma is_zero_feq (a b : float) : is_zero a = true -> is_zero b = true -> feq a b.
Proof. now right. Qed.

Lemma feq_zero (a b : float) : feq a b -> is_zero b = true -> is_zero a = true.
Proof. intros [-> | [H _]] Hb; assumption. Qed.

Lemma dot4_feq a0 a1 a2 a3 b0 b1 b2 b3 a0' a1' a2' a3' b0' b1' b2' b3' :
  feq a0 a0' -> feq a1 a1' -> feq a2 a2' -> feq a3 a3' ->
  feq b0 b0' -> feq b1 b1' -> feq b2 b2' -> feq b3 b3' ->
  feq (dot4 a0 a1 a2 a3 b0 b1 b2 b3) (dot4 a0' a1' a2' a3' b0' b1' b2' b3').
Proof.
  intros. unfold dot4. repeat apply fadd_feq; apply fmul_feq; assumption.
Qed.

Lemma dot4_comm a0 a1 a2 a3 b0 b1 b2 b3 :
  dot4 a0 a1 a2 a3 b0 b1 b2 b3 = dot4 b0 b1 b2 b3 a0 a1 a2 a3.
Proof. unfold dot4. now rewrite (fmul_comm a0), (fmul_comm a1), (fmul_comm a2), (fmul_comm a3). Qed.

Lemma fadd_pick_l (x z b : float) :
  feq x b -> is_finite b = true -> is_zero z = true -> feq (fadd x z) b.
Proof.
  intros Hx Hb Hz. eapply feq_trans; [apply fadd_feq; [exact Hx | apply feq_refl]|].
  now apply fadd_zero_r.
Qed.

Lemma fadd_pick_r (x z b : float) :
  is_zero z = true -> feq x b -> is_finite b = true -> feq (fadd z x) b.
Proof.
  intros Hz Hx Hb. eapply feq_trans; [apply fadd_feq; [apply feq_refl | exact Hx]|].
  now apply fadd_zero_l.
Qed.

(** A row of the identity picks one component. *)
Lemma dot4_unit0 z1 z2 z3 b0 b1 b2 b3 :
  is_zero z1 = true -> is_zero z2 = true -> is_zero z3 = true ->
  okf b0 -> okf b1 -> okf b2 -> okf b3 ->
  feq (dot4 fone z1 z2 z3 b0 b1 b2 b3) b0.
Proof.
  intros Z1 Z2 Z3 [V0 F0] [_ F1] [_ F2] [_ F3]. unfold dot4.
  rewrite (fmul_one_l b0 V0).
  repeat apply fadd_pick_l; try assumption; try apply feq_refl;
    now apply fmul_zero_l.
Qed.

Lemma dot4_unit1 z0 z2 z3 b0 b1 b2 b3 :
  is_zero z0 = true -> is_zero z2 = true -> is_zero z3 = true ->
  okf b0 -> okf b1 -> okf b2 -> okf b3 ->
  feq (dot4 z0 fone z2 z3 b0 b1 b2 b3) b1.
Proof.
  intros Z0 Z2 Z3 [_ F0] [V1 F1] [_ F2] [_ F3]. unfold dot4.
  rewrite (fmul_one_l b1 V1).
  apply fadd_pick_l; [| assumption | now apply fmul_zero_l].
  apply fadd_pick_l; [| assumption | now apply fmul_zero_l].
  apply fadd_pick_r; [now apply fmul_zero_l | apply feq_refl | assumption].
Qed.

Lemma dot4_unit2 z0 z1 z3 b0 b1 b2 b3 :
  is_zero z0 = true -> is_zero z1 = true -> is_zero z3 = true ->
  okf b0 -> okf b1 -> okf b2 -> okf b3 ->
  feq (dot4 z0 z1 fone z3 b0 b1 b2 b3) b2.
Proof.
  intros Z0 Z1 Z3 [_ F0] [_ F1] [V2 F2] [_ F3]. unfold dot4.
  rewrite (fmul_one_l b2 V2).
  apply fadd_pick_l; [| assumption | now apply fmul_zero_l].
  apply fadd_pick_r; [| apply feq_refl | assumption].
  apply fadd_zero_zero; now apply fmul_zero_l.
Qed.

Lemma dot4_unit3 z0 z1 z2 b0 b1 b2 b3 :
  is_zero z0 = true -> is_zero z1 = true -> is_zero z2 = true ->
  okf b0 -> okf b1 -> okf b2 -> okf b3 ->
  feq (dot4 z0 z1 z2 fone b0 b1 b2 b3) b3.
Proof.
  intros Z0 Z1 Z2 [_ F0] [_ F1] [_ F2] [V3 F3]. unfold dot4.
  rewrite (fmul_one_l b3 V3).
  apply fadd_pick_r; [| apply feq_refl | assumption].
  apply fadd_zero_zero; [|now apply fmul_zero_l].
  apply fadd_zero_zero; now apply fmul_zero_l.
Qed.

(** A row of a translation against the column of the opposite translation. *)
Lemma dot4_cancel0 z1 z2 c0 c1 c2 :
  is_zero z1 = true -> is_zero z2 = true -> okf c0 -> okf c1 -> okf c2 ->
  is_zero (dot4 fone z1 z2 c0 (fneg c0) (fneg c1) (fneg c2) fone) = true.
Proof.
  intros Z1 Z2 [V0 F0] [V1 F1] [V2 F2]. unfold dot4.
  destruct (okf_fneg c0 (conj V0 F0)) as [V0' F0'].
  destruct (okf_fneg c1 (conj V1 F1)) as [V1' F1'].
  destruct (okf_fneg c2 (conj V2 F2)) as [V2' F2'].
  rewrite (fmul_one_l _ V0'), (fmul_one_r _ V0).
  apply (feq_zero _ (fadd (fneg c0) c0)); [|apply (fadd_opp c0 F0)].
  apply fadd_feq; [|apply feq_refl].
  repeat apply fadd_pick_l; try assumption; try apply feq_refl;
    now apply fmul_zero_l.
Qed.

Lemma dot4_cancel1 z0 z2 c0 c1 c2 :
  is_zero z0 = true -> is_zero z2 = true -> okf c0 -> okf c1 -> okf c2 ->
  is_zero (dot4 z0 fone z2 c1 (fneg c0) (fneg c1) (fneg c2) fone) = true.
Proof.
  intros Z0 Z2 [V0 F0] [V1 F1] [V2 F2]. unfold dot4.
  destruct (okf_fneg c0 (conj V0 F0)) as [V0' F0'].
  destruct (okf_fneg c1 (conj V1 F1)) as [V1' F1'].
  destruct (okf_fneg c2 (conj V2 F2)) as [V2' F2'].
  rewrite (fmul_one_l _ V1'), (fmul_one_r _ V1).
  apply (feq_zero _ (fadd (fneg c1) c1)); [|apply (fadd_opp c1 F1)].
  apply fadd_feq; [|apply feq_refl].
  apply fadd_pick_l; [| assumption | now apply fmul_zero_l].
  apply fadd_pick_r; [now apply fmul_zero_l | apply feq_refl | assumption].
Qed.

Lemma dot4_cancel2 z0 z1 c0 c1 c2 :
  is_zero z0 = true -> is_zero z1 = true -> okf c0 -> okf c1 -> okf c2 ->
  is_zero (dot4 z0 z1 fone c2 (fneg c0) (fneg c1) (fneg c2) fone) = true.
Proof.
  intros Z0 Z1 [V0 F0] [V1 F1] [V2 F2]. unfold dot4.
  destruct (okf_fneg c0 (conj V0 F0)) as [V0' F0'].
  destruct (okf_fneg c1 (conj V1 F1)) as [V1' F1'].
  destruct (okf_fneg c2 (conj V2 F2)) as [V2' F2'].
  rewrite (fmul_one_l _ V2'), (fmul_one_r _ V2).
  apply (feq_zero _ (fadd (fneg c2) c2)); [|apply (fadd_opp c2 F2)].
  apply fadd_feq; [|apply feq_refl].
  apply fadd_pick_r; [| apply feq_refl | assumption].
  apply fadd_zero_zero; now apply fmul_zero_l.
Qed.

Lemma v4_feq_trans a b c : v4_feq a b -> v4_feq b c -> v4_feq a c.
Proof.
  intros (A1 & A2 & A3 & A4) (B1 & B2 & B3 & B4).
  repeat split; eapply feq_trans; eassumption.
Qed.

Lemma m4_feq_trans a b c : m4_feq a b -> m4_feq b c -> m4_feq a c.
Proof.
  intros (A1 & A2 & A3 & A4) (B1 & B2 & B3 & B4).
  repeat split; eapply feq_trans;
    first [apply A1 | apply A2 | apply A3 | apply A4 | apply B1 | apply B2 | apply B3 | apply B4].
Qed.

Lemma v4_feq_refl a : v4_feq a a.
Proof. repeat split; apply feq_refl. Qed.

Lemma m4_feq_refl a : m4_feq a a.
Proof. repeat split; apply feq_refl. Qed.

Lemma mat4_mul_col_dot4 (A : mat4) (b : vec4) :
  mat4_mul_col A b =
  Vec4 (dot4 (x4 (col0 A)) (x4 (col1 A)) (x4 (col2 A)) (x4 (col3 A))
             (x4 b) (y4 b) (z4 b) (w4 b))
       (dot4 (y4 (col0 A)) (y4 (col1 A)) (y4 (col2 A)) (y4 (col3 A))
             (x4 b) (y4 b) (z4 b) (w4 b))
       (dot4 (z4 (col0 A)) (z4 (col1 A)) (z4 (col2 A)) (z4 (col3 A))
             (x4 b) (y4 b) (z4 b) (w4 b))
       (dot4 (w4 (col0 A)) (w4 (col1 A)) (w4 (col2 A)) (w4 (col3 A))
             (x4 b) (y4 b) (z4 b) (w4 b)).
Proof. reflexivity. Qed.

Lemma mat4_mul_col_feq (A A' : mat4) (b b' : vec4) :
  m4_feq A A' -> v4_feq b b' -> v4_feq (mat4_mul_col A b) (mat4_mul_col A' b').
Proof.
  intros ((A00 & A01 & A02 & A03) & (A10 & A11 & A12 & A13) &
          (A20 & A21 & A22 & A23) & (A30 & A31 & A32 & A33)) (B0 & B1 & B2 & B3).
  rewrite !mat4_mul_col_dot4. repeat split; cbn [x4 y4 z4 w4];
    apply dot4_feq; assumption.
Qed.

Lemma mat4_mul_feq (A A' B B' : mat4) :
  m4_feq A A' -> m4_feq B B' -> m4_feq (mat4_mul A B) (mat4_mul A' B').
Proof.
  intros HA (B0 & B1 & B2 & B3). unfold mat4_mul.
  repeat split; cbn [col0 col1 col2 col3]; now apply mat4_mul_col_feq.
Qed.

Lemma feq_one (a : float) : feq a fone -> a = fone.
Proof. intros [-> | [_ H]]; [reflexivity | discriminate H]. Qed.

Lemma feq_is_zero (a : float) : feq a fzero -> is_zero a = true.
Proof. intros [-> | [H _]]; [reflexivity | exact H]. Qed.

Lemma okf_one : okf fone.
Proof. now split. Qed.

Lemma okf_zero : okf fzero.
Proof. now split. Qed.

(** The product of a matrix near the identity with a column. *)
Lemma mat4_mul_col_id (A : mat4) (b : vec4) :
  m4_feq A mat4_identity -> v4_ok b -> v4_feq (mat4_mul_col A b) b.
Proof.
  intros ((A00 & A01 & A02 & A03) & (A10 & A11 & A12 & A13) &
          (A20 & A21 & A22 & A23) & (A30 & A31 & A32 & A33)) (B0 & B1 & B2 & B3).
  cbn [mat4_identity col0 col1 col2 col3 x4 y4 z4 w4] in *.
  apply feq_one in A00, A11, A22, A33.
  apply feq_is_zero in A01, A02, A03, A10, A12, A13, A20, A21, A23, A30, A31, A32.
  rewrite mat4_mul_col_dot4. repeat split; cbn [x4 y4 z4 w4].
  - rewrite A00. now apply dot4_unit0.
  - rewrite A11. now apply dot4_unit1.
  - rewrite A22. now apply dot4_unit2.
  - rewrite A33. now apply dot4_unit3.
Qed.

Lemma mat4_mul_id_l (A M : mat4) :
  m4_feq A mat4_identity -> m4_ok M -> m4_feq (mat4_mul A M) M.
Proof.
  intros HA (M0 & M1 & M2 & M3). unfold mat4_mul.
  repeat split; cbn [col0 col1 col2 col3]; now apply mat4_mul_col_id.
Qed.

(** The product of a matrix with a unit column is the matching column. *)
Lemma mat4_mul_id_r (A : mat4) : m4_ok A -> m4_feq (mat4_mul A mat4_identity) A.
Proof.
  intros ((A00 & A01 & A02 & A03) & (A10 & A11 & A12 & A13) &
          (A20 & A21 & A22 & A23) & (A30 & A31 & A32 & A33)).
  unfold mat4_mul. cbn [mat4_identity col0 col1 col2 col3].
  rewrite !mat4_mul_col_dot4. cbn [x4 y4 z4 w4].
  repeat split; cbn [col0 col1 col2 col3 x4 y4 z4 w4]; rewrite dot4_comm;
    first [now apply dot4_unit0 | now apply dot4_unit1
          | now apply dot4_unit2 | now apply dot4_unit3].
Qed.

Lemma translate_feq (v : vec3) :
  v3_ok v -> m4_feq (translate mat4_identity v) (translation v).
Proof.
  intros ([Vx Fx] & [Vy Fy] & [Vz Fz]). unfold translate, translation.
  cbn [mat4_identity col0 col1 col2 col3].
  split; [apply v4_feq_refl|]. split; [apply v4_feq_refl|].
  split; [apply v4_feq_refl|].
  unfold v4_add, v4_scale. cbn [x4 y4 z4 w4 col3].
  rewrite (fmul_one_l _ Vx), (fmul_one_l _ Vy), (fmul_one_l _ Vz).
  repeat split; cbn [x4 y4 z4 w4].
  - repeat apply fadd_pick_l; try assumption; try apply feq_refl;
      try reflexivity; now apply fmul_zero_l.
  - apply fadd_pick_l; [| assumption | reflexivity].
    apply fadd_pick_l; [| assumption | now apply fmul_zero_l].
    apply fadd_pick_r; [now apply fmul_zero_l | apply feq_refl | assumption].
  - apply fadd_pick_l; [| assumption | reflexivity].
    apply fadd_pick_r; [| apply feq_refl | assumption].
    apply fadd_zero_zero; now apply fmul_zero_l.
  - apply fadd_pick_r; [| apply feq_refl | reflexivity].
    apply fadd_zero_zero; [|now apply fmul_zero_l].
    apply fadd_zero_zero; now apply fmul_zero_l.
Qed.

Lemma translation_ok (v : vec3) : v3_ok v -> m4_ok (translation v).
Proof.
  intros (Hx & Hy & Hz). unfold translation, m4_ok, v4_ok.
  cbn [col0 col1 col2 col3 x4 y4 z4 w4].
  repeat split; try assumption; try apply Hx; try apply Hy; try apply Hz.
Qed.

Lemma v3_neg_ok (v : vec3) : v3_ok v -> v3_ok (v3_neg v).
Proof. intros (Hx & Hy & Hz). repeat split; now apply okf_fneg. Qed.

Lemma translation_cancel (v : vec3) :
  v3_ok v ->
  m4_feq (mat4_mul (translation v) (translation (v3_neg v))) mat4_identity.
Proof.
  intros Hv. pose proof Hv as (Hx & Hy & Hz).
  pose proof (mat4_mul_id_r (translation v) (translation_ok v Hv))
    as (C0 & C1 & C2 & _).
  unfold mat4_mul in *. cbn [mat4_identity translation col0 col1 col2 col3] in *.
  split; [exact C0|]. split; [exact C1|]. split; [exact C2|].
  rewrite mat4_mul_col_dot4. cbn [v3_neg x3 y3 z3 x4 y4 z4 w4 col0 col1 col2 col3].
  repeat split; cbn [x4 y4 z4 w4].
  - apply is_zero_feq; [|reflexivity]. now apply dot4_cancel0.
  - apply is_zero_feq; [|reflexivity]. now apply dot4_cancel1.
  - apply is_zero_feq; [|reflexivity]. now apply dot4_cancel2.
  - apply dot4_unit3; try reflexivity; try apply okf_one; now apply okf_fneg.
Qed.

Lemma m4_feq_eqb (A M : mat4) : m4_feq A M -> m4_ok M -> mat4_eqb A M = true.
Proof.
  intros ((A00 & A01 & A02 & A03) & (A10 & A11 & A12 & A13) &
          (A20 & A21 & A22 & A23) & (A30 & A31 & A32 & A33))
         (([_ F00] & [_ F01] & [_ F02] & [_ F03]) & ([_ F10] & [_ F11] & [_ F12] & [_ F13]) &
          ([_ F20] & [_ F21] & [_ F22] & [_ F23]) & ([_ F30] & [_ F31] & [_ F32] & [_ F33])).
  unfold mat4_eqb, vec4_eqb.
  repeat (apply andb_true_iff; split); now apply feq_feqb.
Qed.

Lemma okf_of_zero (z : float) : is_zero z = true -> okf z.
Proof. destruct z; try discriminate. now split. Qed.

(** One component of the centre [axis * (float)layer * m_spacing]. *)
Lemma centre_component_ok (a : float) (lay : Z) (sp : float) :
  a = fone \/ a = fzero -> In lay [1; -1] -> okf sp ->
  okf (fmul (fmul a (of_int lay)) sp).
Proof.
  intros Ha Hl [V F].
  destruct Hl as [<- | [<- | []]]; destruct Ha as [-> | ->].
  - replace (fmul fone (of_int 1)) with fone by (vm_compute; reflexivity).
    rewrite (fmul_one_l _ V). now split.
  - apply okf_of_zero, fmul_zero_l; [reflexivity | exact F].
  - replace (fmul fone (of_int (-1))) with (fneg fone) by (vm_compute; reflexivity).
    rewrite (fmul_mone_l _ V). apply okf_fneg. now split.
  - apply okf_of_zero, fmul_zero_l; [reflexivity | exact F].
Qed.

Lemma centre_ok (ax : vec3) (lay : Z) (sp : float) :
  In ax unitAxes -> In lay [1; -1] -> okf sp ->
  v3_ok (v3_scale (v3_scale ax (of_int lay)) sp).
Proof.
  intros Hax Hl Hsp. unfold v3_ok, v3_scale. cbn [x3 y3 z3].
  destruct Hax as [<- | [<- | [<- | []]]]; cbn [x3 y3 z3];
    repeat split; apply centre_component_ok; auto.
Qed.

(** At angle zero the quaternion of the animation is the identity and so is
    its matrix. *)
Lemma anim_rotation_zero (L : libm) (ax : vec3) :
  sinf L fzero = fzero -> cosf L fzero = fone -> In ax unitAxes ->
  toMat4 (angleAxis L (radians fzero) (normalize ax)) = mat4_identity.
Proof.
  intros Hs Hc Hax. unfold angleAxis.
  replace (fmul (radians fzero) fhalf) with fzero by (vm_compute; reflexivity).
  rewrite Hs, Hc.
  destruct Hax as [<- | [<- | [<- | []]]]; vm_compute; reflexivity.
Qed.

(** [T1 * R * T2 * baseModel] at angle zero. *)
Lemma conjugated_identity (v : vec3) (M : mat4) :
  v3_ok v -> m4_ok M ->
  m4_feq (mat4_mul (mat4_mul (mat4_mul (translate mat4_identity v) mat4_identity)
                             (translate mat4_identity (v3_neg v))) M) M.
Proof.
  intros Hv HM. apply mat4_mul_id_l; [|exact HM].
  apply m4_feq_trans with (mat4_mul (translation v) (translation (v3_neg v))).
  - apply mat4_mul_feq.
    + apply m4_feq_trans with (mat4_mul (translation v) mat4_identity).
      * apply mat4_mul_feq; [now apply translate_feq | apply m4_feq_refl].
      * apply mat4_mul_id_r. now apply translation_ok.
    + apply translate_feq. now apply v3_neg_ok.
  - now apply translation_cancel.
Qed.

(** During the animation of a move on a face, at angle zero, the transform of
    a sticker compares equal to its [baseModel]. *)
Lemma stickerModelMatrix_at_zero (L : libm) (c : Core) (s : Sticker) :
  sinf L fzero = fzero -> cosf L fzero = fone ->
  active (m_anim c) = true ->
  currentAngle (m_anim c) = fzero ->
  In (axis (m_anim c)) unitAxes ->
  In (layer (m_anim c)) [1; -1] ->
  okf (m_spacing c) ->
  m4_ok (baseModel s) ->
  mat4_eqb (stickerModelMatrix L c s) (baseModel s) = true.
Proof.
  intros Hs Hc Hact Hcur Hax Hl Hsp HM.
  apply m4_feq_eqb; [|exact HM].
  unfold stickerModelMatrix. rewrite Hact, Hcur. cbn [negb].
  destruct (negb (axisCoord (axis (m_anim c)) (cubePos s) =? layer (m_anim c))).
  - apply m4_feq_refl.
  - rewrite (anim_rotation_zero L _ Hs Hc Hax).
    apply conjugated_identity; [|exact HM]. now apply centre_ok.
Qed.

(** The same for the whole result of [getStickerModelMatrices]. *)
Lemma getStickerModelMatrices_at_zero (L : libm) (c : Core) :
  sinf L fzero = fzero -> cosf L fzero = fone ->
  active (m_anim c) = true ->
  currentAngle (m_anim c) = fzero ->
  In (axis (m_anim c)) unitAxes ->
  In (layer (m_anim c)) [1; -1] ->
  okf (m_spacing c) ->
  Forall (fun s => m4_ok (baseModel s)) (m_stickers c) ->
  Forall2 (fun M s => mat4_eqb M (baseModel s) = true)
          (getStickerModelMatrices L c) (m_stickers c).
Proof.
  intros Hs Hc Hact Hcur Hax Hl Hsp Hall. unfold getStickerModelMatrices.
  induction Hall as [| s l Hs0 _ IH]; cbn [map]; constructor.
  - now apply stickerModelMatrix_at_zero.
  - exact IH.
Qed.

(** With the constructor arguments of main.cpp and the move "R" just started,
    the 54 transforms compare equal to the base models. *)
Example start_R_no_jump :
  active (m_anim core0_started_R) = true /\
  currentAngle (m_anim core0_started_R) = fzero /\
  List.length (getStickerModelMatrices libm_table core0_started_R) = 54%nat /\
  forallb (fun s => mat4_eqb (stickerModelMatrix libm_table core0_started_R s)
                             (baseModel s))
          (m_stickers core0_started_R) = true.
Proof.
  split; [reflexivity|]. split; [reflexivity|].
  split; vm_compute; reflexivity.
Qed.

(** A NaN matrix compares equal to no matrix. *)
Lemma mat4_nan_neq (M : mat4) : mat4_eqb mat4_nan M = false.
Proof. reflexivity. Qed.

(** C8, divergence: the animation that the accepted move " " starts.  After
    [queueMove(" ")] (which returns true) and one [update], an animation is
    active with currentAngle 0, yet for the twelve stickers of the slice
    z = 0 [getStickerModelMatrices] returns matrices all of whose entries are
    NaN, not the base models: the axis of that animation is the zero vector,
    whose normalisation is NaN.  This holds whatever [sinf] and [cosf]
    return. *)
Theorem blank_move_start_jump (L : libm) :
  fst (queueMove (construct L (of_bits 0x3f666666) (of_bits 0x3cf5c28f)
                            (of_bits 0x44340000)) " ") = true /\
  active (m_anim (blankStarted L)) = true /\
  currentAngle (m_anim (blankStarted L)) = fzero /\
  axis (m_anim (blankStarted L)) = zero3 /\
  map (stickerModelMatrix L (blankStarted L)) (middleSlice (blankStarted L))
    = repeat mat4_nan 12 /\
  nth_error (getStickerModelMatrices L (blankStarted L)) 1 = Some mat4_nan /\
  forallb (fun s => mat4_eqb (stickerModelMatrix L (blankStarted L) s) (baseModel s))
          (middleSlice (blankStarted L)) = false.
Proof.
  split; [reflexivity|]. split; [reflexivity|]. split; [reflexivity|].
  split; [reflexivity|]. split; [vm_compute; reflexivity|].
  split; vm_compute; reflexivity.
Qed.

(** * Further properties of the discrete rotation *)

Lemma turnPlace_N (ax : vec3) (lay : Z) (ang : float) (pl : place) :
  turnPlace ax lay ang pl = turnPlaceN ax lay (quarterTurns ang) pl.
Proof. reflexivity. Qed.

Lemma iter_quarterTurn_coord (ax : vec3) (n : nat) (p : ivec3) :
  axisCoord ax (Nat.iter n (quarterTurn (axisIndex ax)) p) = axisCoord ax p.
Proof.
  induction n as [|n IH]; [reflexivity|].
  rewrite Nat.iter_succ. now rewrite axisCoord_quarterTurn.
Qed.

Lemma iter_iter {A : Type} (f : A -> A) (n m : nat) (x : A) :
  Nat.iter m f (Nat.iter n f x) = Nat.iter (n + m) f x.
Proof.
  induction m as [|m IH]; [now rewrite Nat.add_0_r|].
  rewrite Nat.add_succ_r, !Nat.iter_succ. now rewrite IH.
Qed.

Lemma turnPlaceN_add (ax : vec3) (lay : Z) (n m : nat) (pl : place) :
  turnPlaceN ax lay m (turnPlaceN ax lay n pl) = turnPlaceN ax lay (n + m) pl.
Proof.
  unfold turnPlaceN. destruct (axisCoord ax (fst pl) =? lay) eqn:E.
  - cbn [fst snd]. rewrite iter_quarterTurn_coord, E. now rewrite !iter_iter.
  - now rewrite E.
Qed.

Lemma iter_quarterTurn_four (i : nat) (p : ivec3) :
  Nat.iter 4 (quarterTurn i) p = p.
Proof. cbn [Nat.iter nat_rect]. apply quarterTurn_four. Qed.

Lemma turnPlaceN_four (ax : vec3) (lay : Z) (pl : place) :
  turnPlaceN ax lay 4 pl = pl.
Proof.
  unfold turnPlaceN. destruct (axisCoord ax (fst pl) =? lay); [|reflexivity].
  rewrite !iter_quarterTurn_four. now destruct pl.
Qed.


Lemma places_apply (L : libm) (c : Core) (ax : vec3) (lay : Z) (ang : float) :
  libm_accurate L -> In ax unitAxes -> In ang turnAngles ->
  forallb stickerSmall (m_stickers c) = true ->
  places (applyRotationDiscrete L c ax lay ang) =
  map (turnPlaceN ax lay (quarterTurns ang)) (places c).
Proof. intros. unfold places. now rewrite applyRotationDiscrete_places. Qed.

(** ** Base models follow the places *)

Lemma rebuildBaseModel_ext (L : libm) (c c' : Core) (s s' : Sticker) :
  m_spacing c = m_spacing c' -> m_cubieSize c = m_cubieSize c' ->
  placeOf s = placeOf s' -> color s = color s' ->
  rebuildBaseModel L c s = rebuildBaseModel L c' s'.
Proof.
  intros Hsp Hcs Hpl Hco. unfold placeOf in Hpl. injection Hpl as Hp Hn.
  unfold rebuildBaseModel. now rewrite Hsp, Hcs, Hp, Hn, Hco.
Qed.

Lemma applyRotationDiscrete_inSync (L : libm) (c : Core) (ax : vec3) (lay : Z)
      (ang : float) :
  inSync L (applyRotationDiscrete L c ax lay ang).
Proof.
  unfold inSync, applyRotationDiscrete. cbn [m_stickers set_stickers].
  apply Forall_forall. intros s Hin.
  apply in_map_iff in Hin. destruct Hin as (r & <- & _). reflexivity.
Qed.

Lemma stickers_determined (L : libm) (c c' : Core) :
  m_spacing c = m_spacing c' -> m_cubieSize c = m_cubieSize c' ->
  inSync L c -> inSync L c' ->
  places c = places c' ->
  map color (m_stickers c) = map color (m_stickers c') ->
  m_stickers c = m_stickers c'.
Proof.
  intros Hsp Hcs. unfold inSync, places.
  generalize (m_stickers c') as l'. generalize (m_stickers c) as l.
  induction l as [|s l IH]; intros [|s' l'] H H' Hpl Hco; try discriminate;
    [reflexivity|].
  cbn [map] in Hpl, Hco. injection Hpl as Hp Hn Hpl. injection Hco as Hco1 Hco2.
  apply Forall_cons_iff in H, H'. destruct H as [Hs H], H' as [Hs' H'].
  f_equal; [|now apply IH].
  rewrite <- Hs, <- Hs'.
  apply rebuildBaseModel_ext; try assumption. unfold placeOf. now rewrite Hp, Hn.
Qed.

Lemma apply_twice_determined (L : libm) (c : Core) ax1 l1 a1 ax2 l2 a2 ax3 l3 a3
      ax4 l4 a4 :
  places (applyRotationDiscrete L (applyRotationDiscrete L c ax1 l1 a1) ax2 l2 a2) =
  places (applyRotationDiscrete L (applyRotationDiscrete L c ax3 l3 a3) ax4 l4 a4) ->
  m_stickers (applyRotationDiscrete L (applyRotationDiscrete L c ax1 l1 a1) ax2 l2 a2) =
  m_stickers (applyRotationDiscrete L (applyRotationDiscrete L c ax3 l3 a3) ax4 l4 a4).
Proof.
  intros Hpl. apply (stickers_determined L); try reflexivity;
    try apply applyRotationDiscrete_inSync; [exact Hpl|].
  now rewrite !applyRotationDiscrete_colors.
Qed.

Lemma map_turnPlaceN_add (ax : vec3) (lay : Z) (n m : nat) (l : list place) :
  map (turnPlaceN ax lay m) (map (turnPlaceN ax lay n) l) =
  map (turnPlaceN ax lay (n + m)) l.
Proof. rewrite map_map. apply map_ext. intros pl. apply turnPlaceN_add. Qed.

Lemma map_turnPlaceN_four (ax : vec3) (lay : Z) (l : list place) :
  map (turnPlaceN ax lay 4) l = l.
Proof.
  transitivity (map (fun pl : place => pl) l); [|apply map_id].
  apply map_ext. intros pl. apply turnPlaceN_four.
Qed.

Lemma places_apply_twice (L : libm) (c : Core) (ax : vec3) (l1 l2 : Z)
      (a1 a2 : float) :
  libm_accurate L -> In ax unitAxes -> In a1 turnAngles -> In a2 turnAngles ->
  forallb stickerSmall (m_stickers c) = true ->
  places (applyRotationDiscrete L (applyRotationDiscrete L c ax l1 a1) ax l2 a2) =
  map (turnPlaceN ax l2 (quarterTurns a2))
      (map (turnPlaceN ax l1 (quarterTurns a1)) (places c)).
Proof.
  intros HL Hax H1 H2 Hs.
  rewrite places_apply; try assumption.
  - now rewrite places_apply.
  - now apply applyRotationDiscrete_small.
Qed.

Lemma turnAngles_90 : In f_90 turnAngles.
Proof. cbn. tauto. Qed.

Lemma turnAngles_m90 : In f_m90 turnAngles.
Proof. cbn. tauto. Qed.

Lemma turnAngles_180 : In f_180 turnAngles.
Proof. cbn. tauto. Qed.

(** X13.  The mutation of a reverse quarter turn undoes the one of a quarter turn
    of the same layer, and conversely: every sticker is back at its position
    with its normal, and, when the base models were those of the places, the
    sticker list is the same as before. *)
Theorem reverse_turn_undoes (L : libm) (c : Core) (ax : vec3) (lay : Z) :
  libm_accurate L -> In ax unitAxes ->
  forallb stickerSmall (m_stickers c) = true ->
  let turn (ang : float) (c : Core) := applyRotationDiscrete L c ax lay ang in
  places (turn (moveAngle 1 true) (turn (moveAngle 1 false) c)) = places c /\
  places (turn (moveAngle 1 false) (turn (moveAngle 1 true) c)) = places c /\
  (inSync L c ->
   m_stickers (turn (moveAngle 1 true) (turn (moveAngle 1 false) c)) = m_stickers c /\
   m_stickers (turn (moveAngle 1 false) (turn (moveAngle 1 true) c)) = m_stickers c).
Proof.
  intros HL Hax Hs turn.
  change (moveAngle 1 true) with f_m90 in *. change (moveAngle 1 false) with f_90 in *.
  assert (H1 : places (turn f_m90 (turn f_90 c)) = places c).
  { unfold turn. rewrite places_apply_twice;
      try first [assumption | apply turnAngles_90 | apply turnAngles_m90 | apply turnAngles_180].
    rewrite map_turnPlaceN_add. apply map_turnPlaceN_four. }
  assert (H2 : places (turn f_90 (turn f_m90 c)) = places c).
  { unfold turn. rewrite places_apply_twice;
      try first [assumption | apply turnAngles_90 | apply turnAngles_m90 | apply turnAngles_180].
    rewrite map_turnPlaceN_add. apply map_turnPlaceN_four. }
  split; [exact H1|]. split; [exact H2|]. intros Hsync.
  split; apply (stickers_determined L); try reflexivity; try assumption;
    try apply applyRotationDiscrete_inSync; unfold turn;
    now rewrite !applyRotationDiscrete_colors.
Qed.

Lemma reverse_turn_undoes_witness :
  libm_accurate libm_table /\ In (Vec3 fone fzero fzero) unitAxes /\
  forallb stickerSmall (m_stickers core0) = true /\
  places (applyRotationDiscrete libm_table
            (applyRotationDiscrete libm_table core0 (Vec3 fone fzero fzero) 1
                                   (moveAngle 1 false))
            (Vec3 fone fzero fzero) 1 (moveAngle 1 true)) = places core0.
Proof.
  exact (conj libm_table_accurate (conj (or_introl eq_refl) (conj core0_small
           (proj1 (reverse_turn_undoes libm_table core0 (Vec3 fone fzero fzero) 1
                     libm_table_accurate (or_introl eq_refl) core0_small))))).
Defined.

(** X14.  A half turn is two quarter turns in either direction, and two half
    turns of the same layer restore every sticker. *)
Theorem half_turn_two_quarters (L : libm) (c : Core) (ax : vec3) (lay : Z) :
  libm_accurate L -> In ax unitAxes ->
  forallb stickerSmall (m_stickers c) = true ->
  let turn (ang : float) (c : Core) := applyRotationDiscrete L c ax lay ang in
  places (turn f_180 c) = places (turn f_90 (turn f_90 c)) /\
  places (turn f_180 c) = places (turn f_m90 (turn f_m90 c)) /\
  m_stickers (turn f_90 (turn f_90 c)) = m_stickers (turn f_m90 (turn f_m90 c)) /\
  places (turn f_180 (turn f_180 c)) = places c.
Proof.
  intros HL Hax Hs turn.
  assert (H90 : places (turn f_90 (turn f_90 c)) =
                map (turnPlaceN ax lay 2) (places c)).
  { unfold turn. rewrite places_apply_twice;
      try first [assumption | apply turnAngles_90 | apply turnAngles_m90 | apply turnAngles_180].
    now rewrite map_turnPlaceN_add. }
  assert (Hm90 : places (turn f_m90 (turn f_m90 c)) =
                 map (turnPlaceN ax lay 2) (places c)).
  { unfold turn. rewrite places_apply_twice;
      try first [assumption | apply turnAngles_90 | apply turnAngles_m90 | apply turnAngles_180].
    rewrite map_turnPlaceN_add. change (quarterTurns f_m90 + quarterTurns f_m90)%nat
      with (4 + 2)%nat.
    rewrite <- map_turnPlaceN_add. now rewrite map_turnPlaceN_four. }
  assert (H180 : places (turn f_180 c) = map (turnPlaceN ax lay 2) (places c)).
  { unfold turn. rewrite places_apply;
      try first [assumption | apply turnAngles_90 | apply turnAngles_m90 | apply turnAngles_180].
    reflexivity. }
  split; [now rewrite H180, H90|]. split; [now rewrite H180, Hm90|].
  split.
  - unfold turn. apply apply_twice_determined. fold (turn f_90 c) (turn f_m90 c).
    fold (turn f_90 (turn f_90 c)) (turn f_m90 (turn f_m90 c)).
    now rewrite H90, Hm90.
  - unfold turn. rewrite places_apply_twice;
      try first [assumption | apply turnAngles_90 | apply turnAngles_m90 | apply turnAngles_180].
    rewrite map_turnPlaceN_add. apply map_turnPlaceN_four.
Qed.

Lemma half_turn_two_quarters_witness :
  libm_accurate libm_table /\ In (Vec3 fzero fone fzero) unitAxes /\
  forallb stickerSmall (m_stickers core0) = true /\
  places (applyRotationDiscrete libm_table core0 (Vec3 fzero fone fzero) 1 f_180) =
  places (applyRotationDiscrete libm_table
            (applyRotationDiscrete libm_table core0 (Vec3 fzero fone fzero) 1 f_90)
            (Vec3 fzero fone fzero) 1 f_90).
Proof.
  exact (conj libm_table_accurate (conj (or_intror (or_introl eq_refl))
           (conj core0_small
              (proj1 (half_turn_two_quarters libm_table core0 (Vec3 fzero fone fzero) 1
                        libm_table_accurate (or_intror (or_introl eq_refl))
                        core0_small))))).
Defined.



(** X10.  The rounded quaternion rotation of [applyRotationDiscrete] is the exact
    rotation by a multiple of 90 degrees on integer vectors: a quarter turn
    about x maps (a, b, c) to (a, -c, b), about y to (c, b, -a), about z to
    (-b, a, c); a half turn negates the two other coordinates; a reverse
    quarter turn is the inverse map.  Stickers of the layer get their
    position and normal mapped so; the others keep theirs. *)
Theorem rotation_is_exact_turn (L : libm) (c : Core) (ax : vec3) (lay : Z)
        (ang : float) :
  libm_accurate L -> In ax unitAxes -> In ang turnAngles ->
  forallb stickerSmall (m_stickers c) = true ->
  map placeOf (m_stickers (applyRotationDiscrete L c ax lay ang)) =
    map (fun pl : place =>
           if axisCoord ax (fst pl) =? lay
           then (turnVector ax ang (fst pl), turnVector ax ang (snd pl))
           else pl)
        (map placeOf (m_stickers c)) /\
  (forall a b c : Z,
     turnVector (Vec3 fone fzero fzero) f_90 (IVec3 a b c) = IVec3 a (- c) b /\
     turnVector (Vec3 fzero fone fzero) f_90 (IVec3 a b c) = IVec3 c b (- a) /\
     turnVector (Vec3 fzero fzero fone) f_90 (IVec3 a b c) = IVec3 (- b) a c /\
     turnVector (Vec3 fone fzero fzero) f_m90 (IVec3 a b c) = IVec3 a c (- b) /\
     turnVector (Vec3 fzero fone fzero) f_m90 (IVec3 a b c) = IVec3 (- c) b a /\
     turnVector (Vec3 fzero fzero fone) f_m90 (IVec3 a b c) = IVec3 b (- a) c /\
     turnVector (Vec3 fone fzero fzero) f_180 (IVec3 a b c) = IVec3 a (- b) (- c) /\
     turnVector (Vec3 fzero fone fzero) f_180 (IVec3 a b c) = IVec3 (- a) b (- c) /\
     turnVector (Vec3 fzero fzero fone) f_180 (IVec3 a b c) = IVec3 (- a) (- b) c).
Proof.
  intros HL Hax Hang Hs. split.
  - now apply applyRotationDiscrete_places.
  - intros a b c0. repeat split; cbn; f_equal; lia.
Qed.

Lemma rotation_is_exact_turn_witness :
  libm_accurate libm_table /\ In (Vec3 fone fzero fzero) unitAxes /\
  In f_90 turnAngles /\ forallb stickerSmall (m_stickers core0) = true /\
  map placeOf (m_stickers (applyRotationDiscrete libm_table core0
                             (Vec3 fone fzero fzero) 1 f_90)) =
    map (fun pl : place =>
           if axisCoord (Vec3 fone fzero fzero) (fst pl) =? 1
           then (turnVector (Vec3 fone fzero fzero) f_90 (fst pl),
                 turnVector (Vec3 fone fzero fzero) f_90 (snd pl))
           else pl)
        (map placeOf (m_stickers core0)).
Proof.
  exact (conj libm_table_accurate (conj (or_introl eq_refl) (conj turnAngles_90
          (conj core0_small
             (proj1 (rotation_is_exact_turn libm_table core0 (Vec3 fone fzero fzero) 1
                       f_90 libm_table_accurate (or_introl eq_refl) turnAngles_90
                       core0_small)))))).
Defined.

Lemma Forall2_map_r {A B : Type} (P : A -> B -> Prop) (g : A -> B) (l : list A) :
  (forall a, In a l -> P a (g a)) -> Forall2 P l (map g l).
Proof.
  induction l as [|a l IH]; intros H; cbn [map]; constructor.
  - apply H. now left.
  - apply IH. intros b Hb. apply H. now right.
Qed.

Lemma applyRotationDiscrete_stickers (L : libm) (c : Core) (ax : vec3) (lay : Z)
      (ang : float) :
  m_stickers (applyRotationDiscrete L c ax lay ang) =
  map (fun s => rebuildBaseModel L c
                  (rotateSticker (angleAxis L (radians ang) (normalize ax)) ax lay s))
      (m_stickers c).
Proof.
  unfold applyRotationDiscrete. cbn [m_stickers set_stickers].
  rewrite map_map. reflexivity.
Qed.

(** X11.  [applyRotationDiscrete] never moves a sticker outside the selected
    layer, whatever the axis and the angle are (a zero axis, a NaN angle and
    an inexact math library included), and it keeps every colour.  With an
    accurate math library, an axis and an angle of a move and stickers with
    components in {-1,0,1}, no sticker leaves or enters a layer of the
    axis: the coordinate along the axis is the same after the turn. *)
Theorem turn_is_local (L : libm) (c : Core) (ax : vec3) (lay : Z) (ang : float) :
  Forall2 (fun s s' =>
             color s' = color s /\
             (axisCoord ax (cubePos s) <> lay -> placeOf s' = placeOf s))
          (m_stickers c) (m_stickers (applyRotationDiscrete L c ax lay ang)) /\
  (libm_accurate L -> In ax unitAxes -> In ang turnAngles ->
   forallb stickerSmall (m_stickers c) = true ->
   Forall2 (fun s s' => axisCoord ax (cubePos s') = axisCoord ax (cubePos s))
           (m_stickers c) (m_stickers (applyRotationDiscrete L c ax lay ang))).
Proof.
  rewrite applyRotationDiscrete_stickers. split.
  - apply Forall2_map_r. intros s _. split.
    + cbn [color rebuildBaseModel]. apply rotateSticker_color.
    + intros Hne. apply Z.eqb_neq in Hne.
      change (placeOf (rebuildBaseModel L c ?t)) with (placeOf t).
      unfold rotateSticker. now rewrite Hne.
  - intros HL Hax Hang Hs. apply Forall2_map_r. intros s Hin.
    rewrite forallb_forall in Hs. specialize (Hs s Hin).
    change (cubePos (rebuildBaseModel L c ?t)) with (fst (placeOf t)).
    rewrite rotateSticker_place by assumption.
    unfold turnPlace. destruct (axisCoord ax (fst (placeOf s)) =? lay); cbn [fst];
      [apply axisCoord_turnVector | reflexivity].
Qed.

Lemma turn_is_local_witness :
  libm_accurate libm_table /\ In (Vec3 fone fzero fzero) unitAxes /\
  In f_90 turnAngles /\ forallb stickerSmall (m_stickers core0) = true /\
  Forall2 (fun s s' => axisCoord (Vec3 fone fzero fzero) (cubePos s') =
                       axisCoord (Vec3 fone fzero fzero) (cubePos s))
          (m_stickers core0)
          (m_stickers (applyRotationDiscrete libm_table core0
                         (Vec3 fone fzero fzero) 1 f_90)).
Proof.
  exact (conj libm_table_accurate (conj (or_introl eq_refl) (conj turnAngles_90
          (conj core0_small
             (proj2 (turn_is_local libm_table core0 (Vec3 fone fzero fzero) 1 f_90)
                    libm_table_accurate (or_introl eq_refl) turnAngles_90
                    core0_small))))).
Defined.

Lemma combine_map_r {A B : Type} (g : A -> B) (l : list A) :
  combine l (map g l) = map (fun a => (a, g a)) l.
Proof. induction l as [|a l IH]; [reflexivity|]. cbn. now rewrite IH. Qed.

Lemma filter_map_length {A B : Type} (f : B -> bool) (h : A -> B) (l : list A) :
  List.length (filter f (map h l)) = List.length (filter (fun a => f (h a)) l).
Proof.
  induction l as [|a l IH]; [reflexivity|]. cbn [map filter].
  destruct (f (h a)); cbn [List.length]; now rewrite IH.
Qed.

Lemma filter_ext_in_length {A : Type} (f g : A -> bool) (l : list A) :
  (forall a, In a l -> f a = g a) ->
  List.length (filter f l) = List.length (filter g l).
Proof.
  induction l as [|a l IH]; intros H; [reflexivity|]. cbn [filter].
  rewrite (H a) by now left.
  destruct (g a); cbn [List.length]; rewrite IH; auto;
    intros b Hb; apply H; now right.
Qed.

Lemma movedCount_turn (L : libm) (c : Core) (ax : vec3) (lay : Z) (ang : float) :
  libm_accurate L -> In ax unitAxes -> In ang turnAngles ->
  forallb stickerSmall (m_stickers c) = true ->
  movedCount (m_stickers c) (m_stickers (applyRotationDiscrete L c ax lay ang)) =
  List.length (filter (fun pl => negb (place_eqb pl (turnPlace ax lay ang pl)))
                      (map placeOf (m_stickers c))).
Proof.
  intros HL Hax Hang Hs. unfold movedCount.
  rewrite applyRotationDiscrete_stickers, combine_map_r.
  rewrite !filter_map_length. apply filter_ext_in_length.
  intros s Hin. cbn [fst snd].
  rewrite forallb_forall in Hs. specialize (Hs s Hin).
  change (placeOf (rebuildBaseModel L c ?t)) with (placeOf t).
  now rewrite rotateSticker_place.
Qed.

Lemma initial_moved_20 (ax : vec3) (lay : Z) (ang : float) :
  In ax unitAxes -> In lay [1; -1] -> In ang turnAngles ->
  List.length (filter (fun pl => negb (place_eqb pl (turnPlace ax lay ang pl)))
                      initialPlaces) = 20%nat.
Proof.
  intros Hax Hlay Hang.
  destruct Hax as [<- | [<- | [<- | []]]];
    destruct Hlay as [<- | [<- | []]];
    destruct Hang as [<- | [<- | [<- | []]]]; vm_compute; reflexivity.
Qed.

(** X12.  In every state whose stickers occupy the 54 places of the cube, the
    mutation of a face turn (layer +1 or -1, angle 90, -90 or 180) changes
    the position or the normal of exactly 20 of the 54 stickers: the 21
    stickers of the layer except the centre of the face. *)
Theorem face_turn_moves_20 (L : libm) (c : Core) (ax : vec3) (lay : Z)
        (ang : float) :
  libm_accurate L -> In ax unitAxes -> In lay [1; -1] -> In ang turnAngles ->
  Permutation (map placeOf (m_stickers c)) initialPlaces ->
  movedCount (m_stickers c) (m_stickers (applyRotationDiscrete L c ax lay ang))
  = 20%nat.
Proof.
  intros HL Hax Hlay Hang Hp.
  rewrite movedCount_turn; try assumption; [|now apply placesInvariant_small].
  rewrite (filter_length_Permutation _ _ _ Hp). now apply initial_moved_20.
Qed.

Lemma face_turn_moves_20_witness :
  libm_accurate libm_table /\ In (Vec3 fone fzero fzero) unitAxes /\
  In 1 [1; -1] /\ In f_90 turnAngles /\
  Permutation (map placeOf (m_stickers core0)) initialPlaces /\
  movedCount (m_stickers core0)
             (m_stickers (applyRotationDiscrete libm_table core0
                            (Vec3 fone fzero fzero) 1 f_90)) = 20%nat.
Proof.
  assert (Hp : Permutation (map placeOf (m_stickers core0)) initialPlaces)
    by apply Permutation_refl.
  exact (conj libm_table_accurate (conj (or_introl eq_refl) (conj (or_introl eq_refl)
          (conj turnAngles_90 (conj Hp
             (face_turn_moves_20 libm_table core0 (Vec3 fone fzero fzero) 1 f_90
                libm_table_accurate (or_introl eq_refl) (or_introl eq_refl)
                turnAngles_90 Hp)))))).
Defined.

(** * Invariants of the reachable states *)

Lemma inSync_frame (L : libm) (c c' : Core) :
  m_stickers c' = m_stickers c -> m_spacing c' = m_spacing c ->
  m_cubieSize c' = m_cubieSize c -> inSync L c -> inSync L c'.
Proof.
  intros Hst Hsp Hcs H. unfold inSync in *. rewrite Hst.
  eapply Forall_impl; [|exact H]. intros s Hs. cbn beta in *.
  rewrite <- Hs at 2. now apply rebuildBaseModel_ext.
Qed.

Lemma faceAxisLayer_facePairs (face : ascii) : In (faceAxisLayer face) facePairs.
Proof.
  unfold faceAxisLayer.
  destruct (Ascii.eqb face "U"), (Ascii.eqb face "D"), (Ascii.eqb face "F"),
    (Ascii.eqb face "B"), (Ascii.eqb face "R"), (Ascii.eqb face "L");
    cbn; tauto.
Qed.

Lemma startParsedMove_animShape (c : Core) (mv : string) face amount prime :
  parseMove mv = Some (face, amount, prime) ->
  animShape (m_anim (startParsedMove c face amount prime)).
Proof.
  intros Hp. rewrite startParsedMove_anim. split; cbn [active]; [discriminate|].
  intros _. cbn [targetAngle axis layer]. split.
  - apply moveAngle_valid. now apply (parseMove_amount mv face amount prime).
  - rewrite <- surjective_pairing. apply faceAxisLayer_facePairs.
Qed.

Lemma startParsedMove_speed (c : Core) face amount prime :
  speedDeg (m_anim (startParsedMove c face amount prime)) = speedDeg (m_anim c).
Proof. now rewrite startParsedMove_anim. Qed.

Lemma startParsedMove_reach (L : libm) cs gap speed (c : Core) mv face amount prime :
  parseMove mv = Some (face, amount, prime) ->
  reachInvariant L cs gap speed c ->
  reachInvariant L cs gap speed (startParsedMove c face amount prime).
Proof.
  intros Hp ((H1 & H2 & H3 & H4) & (H5 & H6) & H7 & H8).
  destruct (startParsedMove_frame c face amount prime) as (Eq & Es & Esp & Ecs & Eg).
  split; [|split; [|split]].
  - rewrite Ecs, Eg, Esp, startParsedMove_speed. auto.
  - rewrite Es. split; [exact H5|]. now apply (inSync_frame L c).
  - now rewrite Eq.
  - now apply (startParsedMove_animShape c mv).
Qed.

Lemma set_queue_reach (L : libm) cs gap speed (c : Core) (q : list string) :
  forallb parses q = true ->
  reachInvariant L cs gap speed c -> reachInvariant L cs gap speed (set_queue c q).
Proof.
  intros Hq (H1 & (H5 & H6) & H7 & H8).
  split; [exact H1|]. split; [|split; [exact Hq | exact H8]].
  split; [exact H5|]. now apply (inSync_frame L c).
Qed.

Lemma startNextInQueue_reach (L : libm) cs gap speed (c : Core) :
  reachInvariant L cs gap speed c ->
  reachInvariant L cs gap speed (startNextInQueue c).
Proof.
  intros H. unfold startNextInQueue.
  destruct (active (m_anim c)); [exact H|].
  destruct (m_queue c) as [|mv rest] eqn:Hq; [exact H|].
  assert (Hrest : forallb parses rest = true).
  { destruct H as (_ & _ & H7 & _). rewrite Hq in H7. cbn [forallb] in H7.
    now apply andb_true_iff in H7. }
  destruct (parseMove mv) as [[[face amount] prime]|] eqn:Hp.
  - apply (startParsedMove_reach L cs gap speed _ mv); [exact Hp|].
    now apply set_queue_reach.
  - now apply set_queue_reach.
Qed.

Lemma finishedCore_reach (L : libm) cs gap speed (c : Core) :
  reachInvariant L cs gap speed c -> reachInvariant L cs gap speed (finishedCore L c).
Proof.
  intros ((H1 & H2 & H3 & H4) & (H5 & H6) & H7 & H8).
  split; [|split; [|split]].
  - cbn. auto.
  - split.
    + unfold finishedCore. cbn [m_stickers set_anim].
      rewrite applyRotationDiscrete_stickers. now rewrite length_map.
    + apply (inSync_frame L (applyRotationDiscrete L c (axis (m_anim c))
                               (layer (m_anim c)) (targetAngle (m_anim c))));
        try reflexivity. apply applyRotationDiscrete_inSync.
  - exact H7.
  - split; cbn; [reflexivity | discriminate].
Qed.

Lemma update_reach (L : libm) cs gap speed (c : Core) (dt : float) :
  reachInvariant L cs gap speed c -> reachInvariant L cs gap speed (update L c dt).
Proof.
  intros H. destruct (active (m_anim c)) eqn:Hact.
  - rewrite (update_active L c dt Hact).
    destruct (animationDone (m_anim c) (advancedAngle (m_anim c) dt)).
    + now apply startNextInQueue_reach, finishedCore_reach.
    + destruct H as ((H1 & H2 & H3 & H4) & (H5 & H6) & H7 & H8).
      split; [|split; [|split]].
      * cbn. auto.
      * split; [exact H5|]. now apply (inSync_frame L c).
      * exact H7.
      * split; cbn; [congruence|]. intros _. now apply H8.
  - unfold update. rewrite Hact. destruct (m_queue c); [exact H|].
    now apply startNextInQueue_reach.
Qed.

Lemma step_reach (L : libm) cs gap speed (c : Core) (o : Op) :
  reachInvariant L cs gap speed c -> reachInvariant L cs gap speed (step L c o).
Proof.
  intros H. destruct o as [dt | mv | mv |]; cbn [step].
  - now apply update_reach.
  - unfold queueMove. destruct (parseMove mv) eqn:Hp; cbn [snd]; [|exact H].
    apply set_queue_reach; [|exact H]. rewrite forallb_app.
    destruct H as (_ & _ & H7 & _). rewrite H7. cbn. unfold parses. now rewrite Hp.
  - unfold startMoveImmediate.
    destruct (parseMove mv) as [[[face amount] prime]|] eqn:Hp; cbn [snd].
    + apply (startParsedMove_reach L cs gap speed _ mv); [exact Hp|].
      now apply set_queue_reach.
    + now apply set_queue_reach.
  - now apply set_queue_reach.
Qed.

Lemma run_reach (L : libm) cs gap speed (ops : list Op) (c : Core) :
  reachInvariant L cs gap speed c -> reachInvariant L cs gap speed (run L c ops).
Proof.
  unfold run. revert c. induction ops as [|o ops IH]; intros c H; [exact H|].
  cbn [fold_left]. now apply IH, step_reach.
Qed.

Lemma initialSticker_rebuilt (L : libm) (c : Core) (face : ascii) (a b : Z) :
  exists s0, initialSticker L c face a b = rebuildBaseModel L c s0.
Proof.
  unfold initialSticker.
  destruct (Ascii.eqb face "U"), (Ascii.eqb face "D"), (Ascii.eqb face "F"),
    (Ascii.eqb face "B"), (Ascii.eqb face "R"), (Ascii.eqb face "L");
    eexists; reflexivity.
Qed.

Lemma construct_reach (L : libm) (cs gap speed : float) :
  reachInvariant L cs gap speed (construct L cs gap speed).
Proof.
  split; [|split; [|split]].
  - cbn. auto.
  - split; [reflexivity|]. unfold inSync, construct, buildInitialStickers.
    cbn [m_stickers set_stickers]. apply Forall_forall. intros s Hin.
    apply in_flat_map in Hin. destruct Hin as (face & _ & Hin).
    apply in_flat_map in Hin. destruct Hin as (a & _ & Hin).
    apply in_map_iff in Hin. destruct Hin as (b & <- & _).
    destruct (initialSticker_rebuilt L
                (mkCore cs gap (fadd cs gap)
                   (mkAnim false (vec3_splat fzero) 0 fzero fzero speed) [] [])
                face a b) as (s0 & ->).
    reflexivity.
  - reflexivity.
  - split; cbn; [reflexivity | discriminate].
Qed.

Lemma reachable_invariant (L : libm) (cs gap speed : float) (ops : list Op) :
  reachInvariant L cs gap speed (run L (construct L cs gap speed) ops).
Proof. apply run_reach, construct_reach. Qed.

(** X4.  No operation changes the geometry parameters or the animation speed:
    in every reachable state they are the values that the constructor
    stored, and m_spacing is cubieSize + gap. *)
Theorem configuration_never_changes (L : libm) (cubieSize gap speed : float)
        (ops : list Op) :
  m_cubieSize (run L (construct L cubieSize gap speed) ops) = cubieSize /\
  m_gap (run L (construct L cubieSize gap speed) ops) = gap /\
  m_spacing (run L (construct L cubieSize gap speed) ops) = fadd cubieSize gap /\
  speedDeg (m_anim (run L (construct L cubieSize gap speed) ops)) = speed.
Proof. exact (proj1 (reachable_invariant L cubieSize gap speed ops)). Qed.

(** X3.  In every reachable state [getStickerModelMatrices] returns 54 matrices
    and [getStickerColors] 54 colours: the two vectors that the render loop
    of main.cpp compares always have the same size. *)
Theorem matrices_and_colors_54 (L : libm) (cubieSize gap speed : float)
        (ops : list Op) :
  List.length (getStickerModelMatrices L (run L (construct L cubieSize gap speed) ops))
    = 54%nat /\
  List.length (getStickerColors (run L (construct L cubieSize gap speed) ops))
    = 54%nat /\
  List.length (getStickerModelMatrices L (run L (construct L cubieSize gap speed) ops))
    = List.length (getStickerColors (run L (construct L cubieSize gap speed) ops)).
Proof.
  destruct (reachable_invariant L cubieSize gap speed ops) as (_ & (H & _) & _).
  unfold getStickerModelMatrices, getStickerColors. rewrite !length_map.
  now rewrite H.
Qed.

(** X5.  In every reachable state the base model of every sticker is the one
    that [rebuildBaseModel] computes from the sticker's current position
    and normal; so, while no animation is active, the matrices that
    [getStickerModelMatrices] returns are a function of the logical state. *)
Theorem base_models_follow_places (L : libm) (cubieSize gap speed : float)
        (ops : list Op) :
  let c := run L (construct L cubieSize gap speed) ops in
  Forall (fun s => baseModel s = baseModel (rebuildBaseModel L c s)) (m_stickers c) /\
  (isAnimating c = false ->
   getStickerModelMatrices L c =
   map (fun s => baseModel (rebuildBaseModel L c s)) (m_stickers c)).
Proof.
  intros c.
  destruct (reachable_invariant L cubieSize gap speed ops) as (_ & (_ & H) & _).
  fold c in H. unfold inSync in H.
  assert (H' : Forall (fun s => baseModel s = baseModel (rebuildBaseModel L c s))
                      (m_stickers c)).
  { eapply Forall_impl; [|exact H]. intros s Hs. cbn beta in Hs. now rewrite Hs. }
  split; [exact H'|].
  intros Hidle. unfold isAnimating in Hidle. unfold getStickerModelMatrices.
  apply map_ext_in. intros s Hin. rewrite Forall_forall in H'.
  rewrite <- (H' s Hin). unfold stickerModelMatrix. now rewrite Hidle.
Qed.

Lemma base_models_follow_places_witness :
  isAnimating (run libm_table core0 [OpQueueMove "R"]) = false /\
  getStickerModelMatrices libm_table (run libm_table core0 [OpQueueMove "R"]) =
  map (fun s => baseModel (rebuildBaseModel libm_table
                             (run libm_table core0 [OpQueueMove "R"]) s))
      (m_stickers (run libm_table core0 [OpQueueMove "R"])).
Proof.
  assert (H : isAnimating (run libm_table core0 [OpQueueMove "R"]) = false)
    by reflexivity.
  exact (conj H
           (proj2 (base_models_follow_places libm_table (of_bits 0x3f666666)
                     (of_bits 0x3cf5c28f) (of_bits 0x44340000) [OpQueueMove "R"]) H)).
Defined.

(** X6.  In every reachable state the animation is either idle with
    currentAngle 0, or active with a target angle of 90, -90 or 180 degrees
    and the axis and layer of a face (or the zero axis with layer 0, for a
    move without a face letter). *)
Theorem animation_state_shape (L : libm) (cubieSize gap speed : float)
        (ops : list Op) :
  let c := run L (construct L cubieSize gap speed) ops in
  (isAnimating c = false -> currentAngle (m_anim c) = fzero) /\
  (isAnimating c = true ->
   In (targetAngle (m_anim c)) [f_90; f_m90; f_180] /\
   In (axis (m_anim c), layer (m_anim c)) facePairs).
Proof.
  intros c.
  destruct (reachable_invariant L cubieSize gap speed ops) as (_ & _ & _ & H).
  exact H.
Qed.

Lemma animation_state_shape_witness :
  isAnimating (run libm_table core0 [OpStartMoveImmediate "F'"]) = true /\
  In (targetAngle (m_anim (run libm_table core0 [OpStartMoveImmediate "F'"])))
     [f_90; f_m90; f_180] /\
  In (axis (m_anim (run libm_table core0 [OpStartMoveImmediate "F'"])),
      layer (m_anim (run libm_table core0 [OpStartMoveImmediate "F'"]))) facePairs.
Proof.
  assert (H : isAnimating (run libm_table core0 [OpStartMoveImmediate "F'"]) = true)
    by reflexivity.
  exact (conj H
           (proj2 (animation_state_shape libm_table (of_bits 0x3f666666)
                     (of_bits 0x3cf5c28f) (of_bits 0x44340000)
                     [OpStartMoveImmediate "F'"]) H)).
Defined.

Lemma parses_Some (mv : string) :
  parses mv = true -> exists face amount prime, parseMove mv = Some (face, amount, prime).
Proof.
  unfold parses. destruct (parseMove mv) as [[[face amount] prime]|]; [|discriminate].
  intros _. now exists face, amount, prime.
Qed.

(** X7.  Every string in the queue of a reachable state is one that [parseMove]
    accepts, so no queued move is ever dropped: a tick on an idle core with
    a non-empty queue removes exactly the oldest entry and starts its
    animation at angle 0, without touching the stickers. *)
Theorem queued_move_always_starts (L : libm) (cubieSize gap speed : float)
        (ops : list Op) (dt : float) (mv : string) (rest : list string) :
  let c := run L (construct L cubieSize gap speed) ops in
  isAnimating c = false -> m_queue c = mv :: rest ->
  exists face amount prime,
    parseMove mv = Some (face, amount, prime) /\
    m_anim (update L c dt) =
      mkAnim true (fst (faceAxisLayer face)) (snd (faceAxisLayer face))
             (moveAngle amount prime) fzero speed /\
    m_queue (update L c dt) = rest /\
    m_stickers (update L c dt) = m_stickers c.
Proof.
  intros c Hidle Hq. unfold isAnimating in Hidle.
  destruct (reachable_invariant L cubieSize gap speed ops)
    as ((_ & _ & _ & Hsp) & _ & Hparse & _).
  fold c in Hsp, Hparse. rewrite Hq in Hparse. cbn [forallb] in Hparse.
  apply andb_true_iff in Hparse. destruct Hparse as [Hmv _].
  destruct (parses_Some mv Hmv) as (face & amount & prime & Hp).
  exists face, amount, prime. split; [exact Hp|].
  assert (E : update L c dt = startParsedMove (set_queue c rest) face amount prime).
  { unfold update. rewrite Hidle, Hq.
    apply (startNextInQueue_idle_cons c mv rest); assumption. }
  rewrite E, startParsedMove_anim.
  destruct (startParsedMove_frame (set_queue c rest) face amount prime)
    as (Eq & Es & _).
  rewrite Eq, Es. cbn [m_anim set_queue m_queue m_stickers]. now rewrite Hsp.
Qed.

Lemma queued_move_always_starts_witness :
  isAnimating (run libm_table core0 [OpQueueMove "u2"; OpQueueMove "L"]) = false /\
  m_queue (run libm_table core0 [OpQueueMove "u2"; OpQueueMove "L"]) = ["u2"; "L"]%string /\
  exists face amount prime,
    parseMove "u2" = Some (face, amount, prime) /\
    m_anim (update libm_table
              (run libm_table core0 [OpQueueMove "u2"; OpQueueMove "L"]) fzero) =
      mkAnim true (fst (faceAxisLayer face)) (snd (faceAxisLayer face))
             (moveAngle amount prime) fzero (of_bits 0x44340000) /\
    m_queue (update libm_table
               (run libm_table core0 [OpQueueMove "u2"; OpQueueMove "L"]) fzero)
      = ["L"]%string /\
    m_stickers (update libm_table
                  (run libm_table core0 [OpQueueMove "u2"; OpQueueMove "L"]) fzero)
      = m_stickers (run libm_table core0 [OpQueueMove "u2"; OpQueueMove "L"]).
Proof.
  assert (H1 : isAnimating (run libm_table core0 [OpQueueMove "u2"; OpQueueMove "L"])
               = false) by reflexivity.
  assert (H2 : m_queue (run libm_table core0 [OpQueueMove "u2"; OpQueueMove "L"])
               = ["u2"; "L"]%string) by reflexivity.
  exact (conj H1 (conj H2
           (queued_move_always_starts libm_table (of_bits 0x3f666666)
              (of_bits 0x3cf5c28f) (of_bits 0x44340000)
              [OpQueueMove "u2"; OpQueueMove "L"] fzero "u2" ["L"%string] H1 H2))).
Defined.

Lemma set_queue_set_queue (c : Core) (q q' : list string) :
  set_queue (set_queue c q) q' = set_queue c q'.
Proof. reflexivity. Qed.

Lemma run_queueMoves (L : libm) (mvs : list string) (c : Core) :
  forallb parses mvs = true -> mvs <> [] ->
  run L c (map OpQueueMove mvs) = set_queue c (m_queue c ++ mvs).
Proof.
  unfold run. revert c. induction mvs as [|m mvs IH]; intros c Hp Hne;
    [contradiction|].
  cbn [forallb] in Hp. apply andb_true_iff in Hp. destruct Hp as [Hm Hp].
  cbn [map fold_left step]. unfold queueMove at 1. unfold parses in Hm.
  destruct (parseMove m); [|discriminate]. cbn [snd].
  destruct mvs as [|m' mvs'].
  - reflexivity.
  - rewrite IH; [|exact Hp|discriminate].
    cbn [m_queue set_queue]. rewrite set_queue_set_queue.
    now rewrite <- app_assoc.
Qed.

(** X8.  The queue is first in, first out: accepted moves are appended at the
    back in the order of the calls, nothing else changes, and the tick that
    finds the core idle starts the move that was queued first and leaves
    the others queued in their order. *)
Theorem queue_is_fifo (L : libm) (c : Core) (m1 : string) (rest : list string)
        (dt : float) :
  forallb parses (m1 :: rest) = true ->
  let c1 := run L c (map OpQueueMove (m1 :: rest)) in
  m_queue c1 = m_queue c ++ m1 :: rest /\
  m_anim c1 = m_anim c /\ m_stickers c1 = m_stickers c /\
  (isAnimating c = false -> m_queue c = [] ->
   exists face amount prime,
     parseMove m1 = Some (face, amount, prime) /\
     m_anim (update L c1 dt) =
       mkAnim true (fst (faceAxisLayer face)) (snd (faceAxisLayer face))
              (moveAngle amount prime) fzero (speedDeg (m_anim c)) /\
     m_queue (update L c1 dt) = rest).
Proof.
  intros Hp c1.
  assert (E : c1 = set_queue c (m_queue c ++ m1 :: rest))
    by (apply run_queueMoves; [exact Hp | discriminate]).
  rewrite E. cbn [m_queue m_anim m_stickers set_queue].
  split; [reflexivity|]. split; [reflexivity|]. split; [reflexivity|].
  intros Hidle Hq. unfold isAnimating in Hidle. rewrite Hq. cbn [app].
  cbn [forallb] in Hp. apply andb_true_iff in Hp. destruct Hp as [Hm _].
  destruct (parses_Some m1 Hm) as (face & amount & prime & Hparse).
  exists face, amount, prime. split; [exact Hparse|].
  assert (E2 : update L (set_queue c (m1 :: rest)) dt =
               startParsedMove (set_queue (set_queue c (m1 :: rest)) rest)
                               face amount prime).
  { unfold update. cbn [m_anim set_queue m_queue]. rewrite Hidle.
    now apply (startNextInQueue_idle_cons _ m1 rest). }
  rewrite E2, startParsedMove_anim.
  rewrite (proj1 (startParsedMove_frame _ _ _ _)). split; reflexivity.
Qed.

Lemma queue_is_fifo_witness :
  forallb parses ["R"; "U'"; "F2"]%string = true /\
  isAnimating core0 = false /\ m_queue core0 = [] /\
  exists face amount prime,
    parseMove "R" = Some (face, amount, prime) /\
    m_anim (update libm_table
              (run libm_table core0 (map OpQueueMove ["R"; "U'"; "F2"]%string)) fzero) =
      mkAnim true (fst (faceAxisLayer face)) (snd (faceAxisLayer face))
             (moveAngle amount prime) fzero (speedDeg (m_anim core0)) /\
    m_queue (update libm_table
               (run libm_table core0 (map OpQueueMove ["R"; "U'"; "F2"]%string)) fzero)
      = ["U'"; "F2"]%string.
Proof.
  assert (H1 : forallb parses ["R"; "U'"; "F2"]%string = true) by reflexivity.
  assert (H2 : isAnimating core0 = false) by reflexivity.
  assert (H3 : m_queue core0 = []) by reflexivity.
  exact (conj H1 (conj H2 (conj H3
           (proj2 (proj2 (proj2
              (queue_is_fifo libm_table core0 "R" ["U'"; "F2"]%string fzero H1)))
              H2 H3)))).
Defined.

Lemma fsub_zero_turnAngle (t : float) : In t turnAngles -> fsub t fzero = t.
Proof. intros [<- | [<- | [<- | []]]]; reflexivity. Qed.

(** X9.  A move started with [startMoveImmediate] and a tick whose step covers
    its whole angle: the call returns true, and after the tick the stickers
    of the face's layer are turned by exactly that angle from where they
    were before the call (whatever animation was in progress is abandoned
    without any effect on the stickers), the core is idle at angle 0 and the
    queue is empty. *)
Theorem immediate_move_completes (L : libm) (cubieSize gap speed : float)
        (ops : list Op) (mv : string) (face : ascii) (amount : Z) (prime : bool)
        (dt : float) :
  libm_accurate L -> finiteNonneg speed = true -> finiteNonneg dt = true ->
  forallb properOp ops = true ->
  parseMove mv = Some (face, amount, prime) -> isFaceLetter face = true ->
  fle (fabs (moveAngle amount prime)) (fmul speed dt) = true ->
  let c := run L (construct L cubieSize gap speed) ops in
  let c' := update L (snd (startMoveImmediate c mv)) dt in
  fst (startMoveImmediate c mv) = true /\
  map placeOf (m_stickers c') =
    map (turnPlace (fst (faceAxisLayer face)) (snd (faceAxisLayer face))
                   (moveAngle amount prime))
        (map placeOf (m_stickers c)) /\
  isAnimating c' = false /\ currentAngle (m_anim c') = fzero /\ m_queue c' = [].
Proof.
  intros HL Hspeed Hdt Hops Hparse Hface Hcover c c'.
  assert (Hinv : coreInvariant c)
    by (apply run_invariant; [exact HL | exact Hops | apply construct_invariant]).
  destruct Hinv as (Hplaces & _ & _).
  destruct (reachable_invariant L cubieSize gap speed ops)
    as ((_ & _ & _ & Hsp) & _). fold c in Hsp.
  apply isFaceLetter_In in Hface.
  destruct (faceAxisLayer_valid face Hface) as [Hax _].
  pose proof (moveAngle_valid amount prime
                (parseMove_amount mv face amount prime Hparse)) as Hang.
  set (c1 := startParsedMove (set_queue c []) face amount prime).
  assert (E1 : startMoveImmediate c mv = (true, c1))
    by (unfold startMoveImmediate; now rewrite Hparse).
  unfold c'. rewrite E1. cbn [fst snd]. split; [reflexivity|].
  assert (Ea : m_anim c1 =
               mkAnim true (fst (faceAxisLayer face)) (snd (faceAxisLayer face))
                      (moveAngle amount prime) fzero speed)
    by (unfold c1; rewrite startParsedMove_anim; cbn [m_anim set_queue];
        now rewrite Hsp).
  destruct (startParsedMove_frame (set_queue c []) face amount prime)
    as (Eq & Es & _). fold c1 in Eq, Es. cbn [m_queue m_stickers set_queue] in Eq, Es.
  assert (Hact : active (m_anim c1) = true) by now rewrite Ea.
  assert (Hreach : advancedAngle (m_anim c1) dt = targetAngle (m_anim c1)).
  { apply advancedAngle_reaches; rewrite ?Ea; cbn [targetAngle currentAngle speedDeg];
      try assumption.
    - apply angle_ok_zero. now apply turnAngles_target_ok.
    - now rewrite fsub_zero_turnAngle. }
  assert (Hdone : animationDone (m_anim c1) (advancedAngle (m_anim c1) dt) = true).
  { rewrite Hreach. apply animationDone_at_target. now rewrite Ea. }
  assert (Eu : update L c1 dt = finishedCore L c1).
  { rewrite (update_active L c1 dt Hact), Hdone.
    apply startNextInQueue_idle_empty.
    - apply (finishedCore_fields L c1).
    - destruct (finishedCore_fields L c1) as (_ & _ & _ & Fq & _). now rewrite Fq. }
  rewrite Eu.
  destruct (finishedCore_fields L c1) as (Fa & Fc & _ & Fq & Fst).
  unfold isAnimating. rewrite Fst, Fa, Fc, Fq, Eq, Ea. cbn [axis layer targetAngle].
  split; [|auto].
  rewrite applyRotationDiscrete_places; try assumption.
  - now rewrite Es.
  - rewrite Es. now apply placesInvariant_small.
Qed.

Lemma immediate_move_completes_witness :
  libm_accurate libm_table /\ finiteNonneg (of_bits 0x44340000) = true /\
  finiteNonneg fone = true /\
  forallb properOp [OpStartMoveImmediate "U"; OpUpdate (of_bits 0x3d800000)] = true /\
  parseMove "R'" = Some ("R"%char, 1, true) /\ isFaceLetter "R" = true /\
  fle (fabs (moveAngle 1 true)) (fmul (of_bits 0x44340000) fone) = true /\
  map placeOf
      (m_stickers
         (update libm_table
            (snd (startMoveImmediate
                    (run libm_table core0
                         [OpStartMoveImmediate "U"; OpUpdate (of_bits 0x3d800000)])
                    "R'")) fone)) =
    map (turnPlace (fst (faceAxisLayer "R")) (snd (faceAxisLayer "R")) (moveAngle 1 true))
        (map placeOf
             (m_stickers
                (run libm_table core0
                     [OpStartMoveImmediate "U"; OpUpdate (of_bits 0x3d800000)]))).
Proof.
  assert (H1 : finiteNonneg (of_bits 0x44340000) = true) by reflexivity.
  assert (H2 : finiteNonneg fone = true) by reflexivity.
  assert (H3 : forallb properOp [OpStartMoveImmediate "U";
                                 OpUpdate (of_bits 0x3d800000)] = true) by reflexivity.
  assert (H4 : parseMove "R'" = Some ("R"%char, 1, true)) by reflexivity.
  assert (H5 : isFaceLetter "R" = true) by reflexivity.
  assert (H6 : fle (fabs (moveAngle 1 true)) (fmul (of_bits 0x44340000) fone) = true)
    by reflexivity.
  exact (conj libm_table_accurate (conj H1 (conj H2 (conj H3 (conj H4 (conj H5 (conj H6
           (proj1 (proj2
              (immediate_move_completes libm_table (of_bits 0x3f666666)
                 (of_bits 0x3cf5c28f) (of_bits 0x44340000) _ "R'" "R"%char 1 true fone
                 libm_table_accurate H1 H2 H3 H4 H5 H6)))))))))).
Defined.

(** * The stickers on the cube *)

Lemma nodupb_sound (l : list place) : nodupb l = true -> NoDup l.
Proof.
  induction l as [|a l IH]; intros H; constructor;
    cbn [nodupb] in H; apply andb_true_iff in H; destruct H as [Ha Hl].
  - intros Hin. apply negb_true_iff in Ha.
    assert (E : existsb (place_eqb a) l = true)
      by (apply existsb_exists; exists a; split; [exact Hin | now apply place_eqb_eq]).
    congruence.
  - now apply IH.
Qed.

Lemma initialPlaces_NoDup : NoDup initialPlaces.
Proof. apply nodupb_sound. vm_compute. reflexivity. Qed.

Lemma initialPlaces_outward : forallb outward initialPlaces = true.
Proof. vm_compute. reflexivity. Qed.

Lemma forallb_Permutation {A : Type} (f : A -> bool) (l l' : list A) :
  Permutation l l' -> forallb f l' = true -> forallb f l = true.
Proof.
  intros Hp H. rewrite forallb_forall in *. intros a Ha.
  apply H. now apply (Permutation_in _ Hp).
Qed.

(** X1.  A freshly constructed core is a solved, well-formed cube: the nine
    stickers of each face, in the order U, R, F, D, L, B, have the colour
    of the face and its outward normal (+y, +x, +z, -y, -x, -z); the 54
    stickers are at pairwise different places, each on the surface of the
    3x3x3 cube on the side its normal points to; no animation is active,
    the queue is empty and the transforms are the base models. *)
Theorem construct_solved (L : libm) (cubieSize gap speed : float) :
  let c := construct L cubieSize gap speed in
  map (fun s => (color s, normal s)) (m_stickers c) =
    repeat (white, IVec3 0 1 0) 9 ++ repeat (green, IVec3 1 0 0) 9 ++
    repeat (red, IVec3 0 0 1) 9 ++ repeat (yellow, IVec3 0 (-1) 0) 9 ++
    repeat (blue, IVec3 (-1) 0 0) 9 ++ repeat (orange, IVec3 0 0 (-1)) 9 /\
  NoDup (map placeOf (m_stickers c)) /\
  forallb outward (map placeOf (m_stickers c)) = true /\
  isAnimating c = false /\ currentAngle (m_anim c) = fzero /\ m_queue c = [] /\
  getStickerModelMatrices L c = map baseModel (m_stickers c).
Proof.
  intros c. split; [reflexivity|].
  unfold c. rewrite construct_places.
  split; [apply initialPlaces_NoDup|]. split; [apply initialPlaces_outward|].
  repeat split.
Qed.

(** X2.  As long as no move without a face letter is passed, the stickers of
    every reachable state occupy the 54 places of the solved cube, in some
    order: no two stickers are at the same place, and every sticker is on
    the surface of the 3x3x3 cube with its normal pointing outward. *)
Theorem stickers_stay_on_cube (L : libm) (cubieSize gap speed : float)
        (ops : list Op) :
  libm_accurate L -> forallb properOp ops = true ->
  let c := run L (construct L cubieSize gap speed) ops in
  Permutation (map placeOf (m_stickers c))
              (map placeOf (m_stickers (construct L cubieSize gap speed))) /\
  NoDup (map placeOf (m_stickers c)) /\
  forallb outward (map placeOf (m_stickers c)) = true.
Proof.
  intros HL Hops c.
  assert (Hinv : coreInvariant c)
    by (apply run_invariant; [exact HL | exact Hops | apply construct_invariant]).
  destruct Hinv as (Hp & _). unfold placesInvariant in Hp.
  rewrite construct_places. split; [exact Hp|]. split.
  - apply (Permutation_NoDup (Permutation_sym Hp)). apply initialPlaces_NoDup.
  - apply (forallb_Permutation _ _ _ Hp). apply initialPlaces_outward.
Qed.

Lemma stickers_stay_on_cube_witness :
  libm_accurate libm_table /\
  forallb properOp [OpQueueMove "R"; OpUpdate fzero; OpUpdate fone] = true /\
  NoDup (map placeOf
           (m_stickers (run libm_table core0
                            [OpQueueMove "R"; OpUpdate fzero; OpUpdate fone]))).
Proof.
  assert (H : forallb properOp [OpQueueMove "R"; OpUpdate fzero; OpUpdate fone] = true)
    by reflexivity.
  exact (conj libm_table_accurate (conj H
           (proj1 (proj2
              (stickers_stay_on_cube libm_table (of_bits 0x3f666666)
                 (of_bits 0x3cf5c28f) (of_bits 0x44340000) _ libm_table_accurate H))))).
Defined.

(** * Edge behaviour *)

Lemma fmul_nan_r (x : float) : fmul x S754_nan = S754_nan.
Proof. now destruct x. Qed.

Lemma fadd_nan_r (x : float) : fadd x S754_nan = S754_nan.
Proof. now destruct x. Qed.

Lemma fsub_nan_r (x : float) : fsub x S754_nan = S754_nan.
Proof. now destruct x. Qed.

Lemma flt_nan_r (x : float) : flt x S754_nan = false.
Proof. now destruct x. Qed.

Lemma set_currentAngle_same (c : Core) :
  set_anim c (set_currentAngle (m_anim c) (currentAngle (m_anim c))) = c.
Proof. destruct c as [cs g sp [a ax l t cur s] q st]. reflexivity. Qed.

(** X16.  [update] does not guard against a NaN time step.  A tick with NaN on an
    active animation that is not within 1e-4 of its target stores NaN as
    currentAngle and changes nothing else; and once currentAngle is NaN no
    tick, whatever its time step, changes the state again: the animation
    stays active for ever, the stickers are never mutated and the queue is
    never served. *)
Theorem nan_tick_wedges_animation (L : libm) (c : Core) (dt : float) :
  active (m_anim c) = true ->
  (fle (fabs (fsub (targetAngle (m_anim c)) (currentAngle (m_anim c)))) f_1em4 = false ->
   update L c S754_nan = set_anim c (set_currentAngle (m_anim c) S754_nan)) /\
  (currentAngle (m_anim c) = S754_nan ->
   update L c dt = c /\ isAnimating (update L c dt) = true).
Proof.
  intros Hact. split.
  - intros Hfar. rewrite (update_active L c _ Hact).
    assert (E : advancedAngle (m_anim c) S754_nan = S754_nan).
    { unfold advancedAngle. rewrite fmul_nan_r. unfold fmin. rewrite flt_nan_r.
      now rewrite fmul_nan_r, fadd_nan_r. }
    rewrite E. unfold animationDone. rewrite Hfar. reflexivity.
  - intros Hnan.
    assert (E : advancedAngle (m_anim c) dt = S754_nan).
    { unfold advancedAngle. rewrite Hnan, fsub_nan_r. reflexivity. }
    assert (D : animationDone (m_anim c) S754_nan = false).
    { unfold animationDone. rewrite Hnan, fsub_nan_r. reflexivity. }
    assert (U : update L c dt = c).
    { rewrite (update_active L c dt Hact), E, D. rewrite <- Hnan.
      apply set_currentAngle_same. }
    split; [exact U|]. now rewrite U.
Qed.

Lemma nan_tick_wedges_animation_witness :
  active (m_anim core0_started_R) = true /\
  fle (fabs (fsub (targetAngle (m_anim core0_started_R))
                  (currentAngle (m_anim core0_started_R)))) f_1em4 = false /\
  update libm_table core0_started_R S754_nan =
    set_anim core0_started_R (set_currentAngle (m_anim core0_started_R) S754_nan).
Proof.
  assert (H1 : active (m_anim core0_started_R) = true) by reflexivity.
  assert (H2 : fle (fabs (fsub (targetAngle (m_anim core0_started_R))
                  (currentAngle (m_anim core0_started_R)))) f_1em4 = false)
    by reflexivity.
  exact (conj H1 (conj H2
           (proj1 (nan_tick_wedges_animation libm_table core0_started_R fzero H1) H2))).
Defined.

(** ** parseMove *)

Lemma size_String (a : ascii) (s : string) : size (String a s) = 1 + size s.
Proof. unfold size. cbn [String.length]. lia. Qed.

Lemma size_nonneg (s : string) : 0 <= size s.
Proof. unfold size. lia. Qed.

Lemma parseMove_stripped (move : string) :
  move <> EmptyString ->
  parseMove move =
  let s := stripSpaces move in
  match strchr "UDLRFB" (toupper (char_at s 0)) with
  | None => None
  | Some _ =>
      Some (toupper (char_at s 0),
            (if (2 <=? size s) && Ascii.eqb (char_at s 1) "2" then 2 else 1),
            (if 2 <=? size s
             then if Ascii.eqb (char_at s 1) "2"
                  then (3 <=? size s) && Ascii.eqb (char_at s 2) "'"
                  else Ascii.eqb (char_at s 1) "'"
             else false))
  end.
Proof.
  intros Hne. unfold parseMove.
  destruct move as [|a m]; [contradiction|]. rewrite size_nonempty.
  cbv zeta. destruct (strchr "UDLRFB" (toupper (char_at (stripSpaces (String a m)) 0)));
    [|reflexivity].
  pose proof (size_nonneg (stripSpaces (String a m))) as Hs.
  destruct (2 <=? size (stripSpaces (String a m))) eqn:E2;
    destruct (3 <=? size (stripSpaces (String a m))) eqn:E3;
    destruct (Ascii.eqb (char_at (stripSpaces (String a m)) 1) "2");
    destruct (Ascii.eqb (char_at (stripSpaces (String a m)) 1) "'");
    destruct (Ascii.eqb (char_at (stripSpaces (String a m)) 2) "'");
    try reflexivity;
    apply Z.leb_gt in E2; apply Z.leb_le in E3; lia.
Qed.

Lemma prefix3_data (s t : string) :
  prefix3 s = prefix3 t ->
  char_at s 0 = char_at t 0 /\
  ((2 <=? size s) = (2 <=? size t)) /\ ((3 <=? size s) = (3 <=? size t)) /\
  ((2 <=? size s) = true -> char_at s 1 = char_at t 1) /\
  ((3 <=? size s) = true -> char_at s 2 = char_at t 2).
Proof.
  unfold prefix3.
  destruct s as [|a [|b [|c s]]]; destruct t as [|a' [|b' [|c' t]]];
    cbn [substring]; intros H; try discriminate H;
    try (injection H as -> -> ->); try (injection H as -> ->);
    try (injection H as ->);
    rewrite ?size_String; cbn [char_at String.get];
    repeat split; try reflexivity; try discriminate;
    pose proof (size_nonneg s); pose proof (size_nonneg t);
    try (symmetry; apply Z.leb_le; lia);
    try (apply Z.leb_le; lia);
    try (transitivity true; [apply Z.leb_le | symmetry; apply Z.leb_le]; lia).
Qed.

(** X17.  [parseMove] is lenient: its result depends only on the first three
    characters of the move that are not white space.  White space anywhere
    in the string and every character after the third one are ignored, so
    two non-empty strings that agree on these three characters are parsed
    alike (both rejected, or both accepted with the same face, amount and
    direction). *)
Theorem parseMove_first_three (s1 s2 : string) :
  s1 <> EmptyString -> s2 <> EmptyString ->
  prefix3 (stripSpaces s1) = prefix3 (stripSpaces s2) ->
  parseMove s1 = parseMove s2.
Proof.
  intros H1 H2 Hp. rewrite !parseMove_stripped by assumption. cbv zeta.
  destruct (prefix3_data _ _ Hp) as (E0 & E2 & E3 & E1 & E2').
  rewrite <- E0, <- E2, <- E3.
  destruct (strchr "UDLRFB" (toupper (char_at (stripSpaces s1) 0))); [|reflexivity].
  destruct (2 <=? size (stripSpaces s1)) eqn:G2; [|reflexivity].
  rewrite <- (E1 eq_refl). cbn [andb].
  destruct (3 <=? size (stripSpaces s1)) eqn:G3; [|reflexivity].
  now rewrite <- (E2' eq_refl).
Qed.

Lemma parseMove_first_three_witness :
  " R 2 ' x "%string <> EmptyString /\ "R2'yes"%string <> EmptyString /\
  prefix3 (stripSpaces " R 2 ' x ") = prefix3 (stripSpaces "R2'yes") /\
  parseMove " R 2 ' x " = parseMove "R2'yes".
Proof.
  assert (H1 : " R 2 ' x "%string <> EmptyString) by discriminate.
  assert (H2 : "R2'yes"%string <> EmptyString) by discriminate.
  assert (H3 : prefix3 (stripSpaces " R 2 ' x ") = prefix3 (stripSpaces "R2'yes"))
    by reflexivity.
  exact (conj H1 (conj H2 (conj H3 (parseMove_first_three _ _ H1 H2 H3)))).
Defined.

(** * The key callback of main.cpp *)

Lemma pushMove_parse (face : ascii) (prime dbl : bool) :
  In face FACE_ORDER ->
  matchesMovePattern (pushMove face prime dbl) = true /\
  parseMove (pushMove face prime dbl) =
    Some (face, (if dbl then 2 else 1), prime && negb dbl).
Proof.
  intros H. cbn in H.
  repeat (destruct H as [<- | H]; [destruct prime, dbl; split; reflexivity|]).
  contradiction.
Qed.

Lemma queueMove_pushMove (c : Core) (face : ascii) (prime dbl : bool) :
  In face FACE_ORDER ->
  snd (queueMove c (pushMove face prime dbl)) =
  set_queue c (m_queue c ++ [pushMove face prime dbl]).
Proof.
  intros H. unfold queueMove.
  now rewrite (proj2 (pushMove_parse face prime dbl H)).
Qed.

(** X19.  A press of one of the keys U, D, L, R, F, B (the GLFW code of a
    letter key is the ASCII code of the letter) queues exactly one move and
    prints it: the face letter, followed by "2" when CTRL is held, or by "'"
    when SHIFT is held without CTRL.  That string matches the move grammar
    [UDLRFB]('|2)?, [queueMove] accepts it, and it parses as that face with
    amount 2 for CTRL and the reverse direction for SHIFT alone. *)
Theorem keyCallback_face_key (w : Window) (core : Core) (face : ascii)
        (scancode mods : Z) :
  userPointer w = Some core -> In face FACE_ORDER ->
  let prime := negb (Z.land mods GLFW_MOD_SHIFT =? 0) in
  let dbl := negb (Z.land mods GLFW_MOD_CONTROL =? 0) in
  let move := pushMove face prime dbl in
  keyCallback w (char_code face) scancode GLFW_PRESS mods =
    mkWindow (Some (set_queue core (m_queue core ++ [move]))) (shouldClose w)
             (cout w ++ [("Queued move: " ++ move)%string]) /\
  move = (String face EmptyString ++
          (if dbl then "2" else if prime then "'" else ""))%string /\
  matchesMovePattern move = true /\
  fst (queueMove core move) = true /\
  parseMove move = Some (face, (if dbl then 2 else 1), prime && negb dbl).
Proof.
  intros Hw Hface prime dbl move.
  destruct (pushMove_parse face prime dbl Hface) as [Hm Hp]. fold move in Hm, Hp.
  split; [|split; [|split; [exact Hm | split; [|exact Hp]]]].
  - unfold keyCallback. rewrite Hw. cbn [negb Z.eqb GLFW_PRESS Pos.eqb].
    fold prime dbl.
    pose proof (queueMove_pushMove core face prime dbl Hface) as Hq. fold move in Hq.
    cbn in Hface.
    repeat (destruct Hface as [<- | Hface];
            [cbn -[queueMove pushMove]; unfold push; fold move; now rewrite Hq|]).
    contradiction.
  - unfold move, pushMove. now destruct dbl, prime.
  - unfold queueMove. now rewrite Hp.
Qed.

Lemma keyCallback_face_key_witness :
  userPointer (mainWindow libm_table) = Some core0 /\ In "R"%char FACE_ORDER /\
  keyCallback (mainWindow libm_table) 82 0 GLFW_PRESS GLFW_MOD_SHIFT =
    mkWindow (Some (set_queue core0 ["R'"%string])) false ["Queued move: R'"%string].
Proof.
  assert (H1 : userPointer (mainWindow libm_table) = Some core0) by reflexivity.
  assert (H2 : In "R"%char FACE_ORDER) by (cbn; tauto).
  exact (conj H1 (conj H2
           (proj1 (keyCallback_face_key (mainWindow libm_table) core0 "R"%char 0
                     GLFW_MOD_SHIFT H1 H2)))).
Defined.

Lemma push_effect (w : Window) (core : Core) (prime dbl : bool) (face : ascii) :
  In face FACE_ORDER ->
  userPointer (push w core prime dbl face) =
    Some (set_queue core (m_queue core ++ [pushMove face prime dbl])) /\
  shouldClose (push w core prime dbl face) = shouldClose w.
Proof.
  intros H. unfold push. cbn [userPointer shouldClose].
  now rewrite queueMove_pushMove.
Qed.

(** What a key event does to the core, as an operation of the interface:
    nothing, [clearQueue], or [queueMove] of a string of the move grammar. *)
Lemma keyCallback_core (w : Window) (core : Core) (key scancode action mods : Z) :
  userPointer w = Some core ->
  exists core',
    userPointer (keyCallback w key scancode action mods) = Some core' /\
    (core' = core \/ core' = clearQueue core \/
     exists mv, matchesMovePattern mv = true /\ parseMove mv <> None /\
                properSymbol mv = true /\
                core' = set_queue core (m_queue core ++ [mv])).
Proof.
  intros Hw. unfold keyCallback.
  destruct (negb (action =? GLFW_PRESS)); [exists core; auto|]. rewrite Hw.
  set (prime := negb (Z.land mods GLFW_MOD_SHIFT =? 0)).
  set (dbl := negb (Z.land mods GLFW_MOD_CONTROL =? 0)).
  assert (P : forall face, In face FACE_ORDER ->
    exists core',
      userPointer (push w core prime dbl face) = Some core' /\
      (core' = core \/ core' = clearQueue core \/
       exists mv, matchesMovePattern mv = true /\ parseMove mv <> None /\
                  properSymbol mv = true /\
                  core' = set_queue core (m_queue core ++ [mv]))).
  { intros face Hf. eexists. split; [apply (push_effect w core prime dbl face Hf)|].
    right. right. exists (pushMove face prime dbl).
    destruct (pushMove_parse face prime dbl Hf) as [Hm Hp].
    split; [exact Hm|]. split; [now rewrite Hp|]. split; [|reflexivity].
    unfold properSymbol. rewrite Hp. now apply isFaceLetter_In. }
  destruct (key =? GLFW_KEY_U); [apply P; cbn; tauto|].
  destruct (key =? GLFW_KEY_D); [apply P; cbn; tauto|].
  destruct (key =? GLFW_KEY_L); [apply P; cbn; tauto|].
  destruct (key =? GLFW_KEY_R); [apply P; cbn; tauto|].
  destruct (key =? GLFW_KEY_F); [apply P; cbn; tauto|].
  destruct (key =? GLFW_KEY_B); [apply P; cbn; tauto|].
  destruct (key =? GLFW_KEY_SPACE); [exists (clearQueue core); cbn; auto|].
  destruct (key =? GLFW_KEY_ESCAPE); [exists core; cbn; auto|].
  exists core; auto.
Qed.

(** X20.  No key event touches the animation or the stickers.  An event that is
    not a press changes nothing at all; a press leaves the queue as it is,
    empties it (SPACE), or appends one string of the move grammar
    [UDLRFB]('|2)?: the keyboard cannot queue a move without a face
    letter. *)
Theorem keyCallback_only_queues (w : Window) (core : Core)
        (key scancode action mods : Z) :
  userPointer w = Some core ->
  (action <> GLFW_PRESS -> keyCallback w key scancode action mods = w) /\
  exists core',
    userPointer (keyCallback w key scancode action mods) = Some core' /\
    m_anim core' = m_anim core /\ m_stickers core' = m_stickers core /\
    (m_queue core' = m_queue core \/ m_queue core' = [] \/
     exists mv, matchesMovePattern mv = true /\
                m_queue core' = m_queue core ++ [mv]).
Proof.
  intros Hw. split.
  - intros Hne. unfold keyCallback. apply Z.eqb_neq in Hne. now rewrite Hne.
  - destruct (keyCallback_core w core key scancode action mods Hw)
      as (core' & Hu & [-> | [-> | (mv & Hm & _ & _ & ->)]]);
      (eexists; split; [exact Hu|]).
    + repeat split. now left.
    + repeat split. right. now left.
    + repeat split. right. right. now exists mv.
Qed.

Lemma keyCallback_only_queues_witness :
  userPointer (mainWindow libm_table) = Some core0 /\ 0 <> GLFW_PRESS /\
  keyCallback (mainWindow libm_table) 82 0 0 0 = mainWindow libm_table.
Proof.
  assert (H1 : userPointer (mainWindow libm_table) = Some core0) by reflexivity.
  assert (H2 : 0 <> GLFW_PRESS) by discriminate.
  exact (conj H1 (conj H2
           (proj1 (keyCallback_only_queues (mainWindow libm_table) core0 82 0 0 0 H1)
                  H2))).
Defined.

(** ** The loop of main.cpp *)

Lemma startNextInQueue_queue_forallb (P : string -> bool) (c : Core) :
  forallb P (m_queue c) = true -> forallb P (m_queue (startNextInQueue c)) = true.
Proof.
  intros H. unfold startNextInQueue. destruct (active (m_anim c)); [exact H|].
  destruct (m_queue c) as [|mv rest] eqn:Hq; [now rewrite Hq|].
  cbn [forallb] in H. apply andb_true_iff in H. destruct H as [_ H].
  destruct (parseMove mv) as [[[face amount] prime]|]; [|exact H].
  now rewrite (proj1 (startParsedMove_frame _ _ _ _)).
Qed.

Lemma update_queue_forallb (L : libm) (P : string -> bool) (c : Core) (dt : float) :
  forallb P (m_queue c) = true -> forallb P (m_queue (update L c dt)) = true.
Proof.
  intros H. unfold update. destruct (active (m_anim c)).
  - destruct (animationDone (m_anim c) (advancedAngle (m_anim c) dt)); [|exact H].
    now apply startNextInQueue_queue_forallb.
  - destruct (m_queue c) eqn:Hq; [now rewrite Hq|].
    apply startNextInQueue_queue_forallb. now rewrite Hq.
Qed.

Lemma appStep_invariant (L : libm) (w : Window) (ev : Event) (core : Core) :
  libm_accurate L -> userPointer w = Some core ->
  coreInvariant core -> forallb matchesMovePattern (m_queue core) = true ->
  exists core',
    userPointer (appStep L w ev) = Some core' /\
    coreInvariant core' /\ forallb matchesMovePattern (m_queue core') = true.
Proof.
  intros HL Hw Hinv Hq. destruct ev as [dt | key scancode action mods]; cbn [appStep].
  - rewrite Hw. exists (update L core dt). split; [reflexivity|].
    split; [now apply update_invariant | now apply update_queue_forallb].
  - destruct (keyCallback_core w core key scancode action mods Hw)
      as (core' & Hu & [-> | [-> | (mv & Hm & Hp & Hs & ->)]]).
    + exists core. auto.
    + exists (clearQueue core). split; [exact Hu|]. split; [|reflexivity].
      exact (step_invariant L core OpClearQueue HL eq_refl Hinv).
    + eexists. split; [exact Hu|]. split.
      * pose proof (step_invariant L core (OpQueueMove mv) HL Hs Hinv) as H.
        cbn [step] in H. unfold queueMove in H.
        destruct (parseMove mv); [exact H | contradiction].
      * cbn [m_queue set_queue]. rewrite forallb_app, Hq. cbn. now rewrite Hm.
Qed.

Lemma session_invariant (L : libm) (evs : list Event) (w : Window) (core : Core) :
  libm_accurate L -> userPointer w = Some core ->
  coreInvariant core -> forallb matchesMovePattern (m_queue core) = true ->
  exists core',
    userPointer (fold_left (appStep L) evs w) = Some core' /\
    coreInvariant core' /\ forallb matchesMovePattern (m_queue core') = true.
Proof.
  intros HL. revert w core. induction evs as [|ev evs IH]; intros w core Hw Hinv Hq.
  - exists core. auto.
  - cbn [fold_left].
    destruct (appStep_invariant L w ev core HL Hw Hinv Hq) as (c1 & H1 & H2 & H3).
    now apply (IH _ c1).
Qed.

(** X21.  The program of main.cpp, whatever keys are pressed and whatever the
    frame times are, keeps the cube well formed: after every sequence of
    frames and key events the user pointer still holds the core, its 54
    stickers occupy the 54 places of the solved cube in some order, an
    active animation has the axis, layer (+1 or -1) and angle of a face
    turn, and every queued string is of the move grammar. *)
Theorem keyboard_session_stays_valid (L : libm) (evs : list Event) :
  libm_accurate L ->
  exists core,
    userPointer (fold_left (appStep L) evs (mainWindow L)) = Some core /\
    Permutation (map placeOf (m_stickers core))
                (map placeOf (m_stickers (construct L (of_bits 0x3f666666)
                                            (of_bits 0x3cf5c28f) (of_bits 0x44340000)))) /\
    (isAnimating core = true ->
     In (axis (m_anim core)) unitAxes /\ In (layer (m_anim core)) [1; -1] /\
     In (targetAngle (m_anim core)) [f_90; f_m90; f_180]) /\
    forallb matchesMovePattern (m_queue core) = true.
Proof.
  intros HL.
  destruct (session_invariant L evs (mainWindow L) _ HL eq_refl
              (construct_invariant L _ _ _) eq_refl) as (core & Hu & (Hp & Ha & _) & Hq).
  exists core. split; [exact Hu|]. rewrite construct_places.
  split; [exact Hp|]. split; [exact Ha | exact Hq].
Qed.

Lemma keyboard_session_stays_valid_witness :
  libm_accurate libm_table /\
  exists core,
    userPointer (fold_left (appStep libm_table)
                           [EvKey 82 0 1 0; EvFrame fzero; EvFrame fone]
                           (mainWindow libm_table)) = Some core /\
    Permutation (map placeOf (m_stickers core)) (map placeOf (m_stickers core0)) /\
    (isAnimating core = true ->
     In (axis (m_anim core)) unitAxes /\ In (layer (m_anim core)) [1; -1] /\
     In (targetAngle (m_anim core)) [f_90; f_m90; f_180]) /\
    forallb matchesMovePattern (m_queue core) = true.
Proof.
  exact (conj libm_table_accurate
           (keyboard_session_stays_valid libm_table
              [EvKey 82 0 1 0; EvFrame fzero; EvFrame fone] libm_table_accurate)).
Defined.

(** * faceToColor *)

Lemma not_face_grey (face : ascii) :
  isFaceLetter face = false -> faceToColor face = grey.
Proof. ascii_cases face; intros H; try discriminate H; reflexivity. Qed.

(** X18.  The six faces have six different colours, so a colour returned by
    [getStickerColors] identifies the face the sticker belongs to; every
    character that is not one of U, D, L, R, F, B (lower-case letters
    included) gets the grey (0.2, 0.2, 0.2), which is none of the six. *)
Theorem faceToColor_injective (f g : ascii) :
  (In f FACE_ORDER -> In g FACE_ORDER -> faceToColor f = faceToColor g -> f = g) /\
  (isFaceLetter f = false -> faceToColor f = grey) /\
  (In g FACE_ORDER -> faceToColor g <> grey).
Proof.
  split; [|split].
  - intros Hf Hg. cbn in Hf, Hg.
    repeat (destruct Hf as [<- | Hf]; [
      repeat (destruct Hg as [<- | Hg];
              [intros H; first [reflexivity | discriminate H]|]); contradiction|]).
    contradiction.
  - apply not_face_grey.
  - intros Hg. cbn in Hg.
    repeat (destruct Hg as [<- | Hg]; [discriminate|]). contradiction.
Qed.

Lemma faceToColor_injective_witness :
  In "R"%char FACE_ORDER /\ isFaceLetter "r" = false /\
  faceToColor "r" = grey /\ faceToColor "R" <> grey.
Proof.
  assert (H1 : In "R"%char FACE_ORDER) by (cbn; tauto).
  assert (H2 : isFaceLetter "r" = false) by reflexivity.
  exact (conj H1 (conj H2
           (conj (proj1 (proj2 (faceToColor_injective "r" "R")) H2)
                 (proj2 (proj2 (faceToColor_injective "r" "R")) H1)))).
Defined.

(** * The start of the animation of a face turn *)

Lemma okfb_ok (a : float) : okfb a = true -> okf a.
Proof. unfold okfb, okf. now rewrite andb_true_iff. Qed.

Lemma v4_okb_ok (a : vec4) : v4_okb a = true -> v4_ok a.
Proof.
  unfold v4_okb, v4_ok. rewrite !andb_true_iff.
  intros [[[H1 H2] H3] H4]. repeat split; now apply okfb_ok.
Qed.

Lemma m4_okb_ok (a : mat4) : m4_okb a = true -> m4_ok a.
Proof.
  unfold m4_okb, m4_ok. rewrite !andb_true_iff.
  intros [[[H1 H2] H3] H4]. repeat split; now apply v4_okb_ok.
Qed.

(** X22.  While the animation of a face turn (unit axis, layer +1 or -1) is at
    angle 0, [getStickerModelMatrices] returns for every sticker, those of
    the turning layer included, a matrix that compares equal (with == on
    floats) to the sticker's base model, provided sinf(0) = 0 and
    cosf(0) = 1 and the spacing and the base models are finite. *)
Theorem face_turn_starts_without_jump (L : libm) (c : Core) :
  sinf L fzero = fzero -> cosf L fzero = fone ->
  isAnimating c = true -> currentAngle (m_anim c) = fzero ->
  In (axis (m_anim c)) unitAxes -> In (layer (m_anim c)) [1; -1] ->
  okfb (m_spacing c) = true ->
  forallb (fun s => m4_okb (baseModel s)) (m_stickers c) = true ->
  Forall2 (fun M s => mat4_eqb M (baseModel s) = true)
          (getStickerModelMatrices L c) (m_stickers c).
Proof.
  intros Hs Hc Hact Hcur Hax Hl Hsp Hall.
  apply getStickerModelMatrices_at_zero; try assumption.
  - now apply okfb_ok.
  - apply Forall_forall. intros s Hin. rewrite forallb_forall in Hall.
    now apply m4_okb_ok, Hall.
Qed.

Lemma face_turn_starts_without_jump_witness :
  sinf libm_table fzero = fzero /\ cosf libm_table fzero = fone /\
  isAnimating core0_started_R = true /\
  currentAngle (m_anim core0_started_R) = fzero /\
  In (axis (m_anim core0_started_R)) unitAxes /\
  In (layer (m_anim core0_started_R)) [1; -1] /\
  okfb (m_spacing core0_started_R) = true /\
  forallb (fun s => m4_okb (baseModel s)) (m_stickers core0_started_R) = true /\
  Forall2 (fun M s => mat4_eqb M (baseModel s) = true)
          (getStickerModelMatrices libm_table core0_started_R)
          (m_stickers core0_started_R).
Proof.
  assert (H1 : sinf libm_table fzero = fzero) by reflexivity.
  assert (H2 : cosf libm_table fzero = fone) by reflexivity.
  assert (H3 : isAnimating core0_started_R = true) by reflexivity.
  assert (H4 : currentAngle (m_anim core0_started_R) = fzero) by reflexivity.
  assert (H5 : In (axis (m_anim core0_started_R)) unitAxes) by (cbn; tauto).
  assert (H6 : In (layer (m_anim core0_started_R)) [1; -1]) by (cbn; tauto).
  assert (H7 : okfb (m_spacing core0_started_R) = true) by reflexivity.
  assert (H8 : forallb (fun s => m4_okb (baseModel s)) (m_stickers core0_started_R)
               = true) by (vm_compute; reflexivity).
  exact (conj H1 (conj H2 (conj H3 (conj H4 (conj H5 (conj H6 (conj H7 (conj H8
           (face_turn_starts_without_jump libm_table core0_started_R
              H1 H2 H3 H4 H5 H6 H7 H8))))))))).
Defined.

(** * Every animation completes *)

Lemma fmin_take_step (step rem : float) :
  valid step = true -> nonneg_finite step = true ->
  valid rem = true -> nonneg_finite rem = true ->
  fle rem step = false -> fmin step rem = step /\ Fmag step < Fmag rem.
Proof.
  intros Vs Ns Vr Nr. unfold fmin, flt, fle, SFltb, SFleb.
  rewrite (fcompare_mag rem step Vr Vs Nr Ns).
  destruct (Z.compare_spec (Fmag rem) (Fmag step)); try discriminate.
  intros _. split; [reflexivity | lia].
Qed.

Lemma fle_infinity (rem : float) :
  nonneg_finite rem = true -> fle rem (S754_infinity false) = true.
Proof. destruct rem as [| | | [] m e]; try discriminate; reflexivity. Qed.

(** The remaining angle is a finite float that is not negative. *)
Lemma remaining_ok (t c : float) :
  target_ok t -> angle_ok t c ->
  valid (fabs (fsub t c)) = true /\ nonneg_finite (fabs (fsub t c)) = true.
Proof.
  intros (s & mt & et & -> & Vt & Hnorm & Hev & Het) (Vc & Hc & Hside).
  cbn [float_sign] in Hside.
  pose proof (valid_finite_inv s mt et Vt) as (Hetr & Hmt & _ & _).
  assert (HG : 0 < p2 et) by (apply p2_pos; lia).
  destruct Hside as [Hz | (mc & ec & ->)].
  - destruct c as [zs | | |]; try discriminate. split; [exact Vt | reflexivity].
  - destruct (fsub_same_sign s mt et mc ec Vt Vc Hc) as [[Heq ->] | [Hlt Hr]].
    + split; reflexivity.
    + apply fabs_rounds_to in Hr.
      destruct (rounds_to_valid _ _ _ Hr) as [Vr Sr].
      assert (HC0 : 0 < Fmag (S754_finite s mc ec)).
      { pose proof (valid_finite_inv s mc ec Vc) as (Hec & _).
        assert (0 < p2 ec) by (apply p2_pos; lia). cbn [Fmag]. nia. }
      assert (Hb : Fmag (S754_finite s mt et) - Fmag (S754_finite s mc ec)
                   < 16777216 * p2 et) by (cbn [Fmag] in *; nia).
      destruct (rounds_to_err false _ _ et Hr ltac:(lia) Hb) as [Fr _].
      split; [exact Vr|].
      destruct Sr as [-> | [E | (m & e & ->)]]; try reflexivity.
      rewrite E in Fr. discriminate.
Qed.

(** A tick that does not cover the remaining angle advances the magnitude
    of the angle by the step, up to half a unit in the last place of the
    target. *)
Lemma advance_progress (s : bool) (mt : positive) (et : Z) (c step : float) :
  let t := S754_finite s mt et in
  target_ok t -> angle_ok t c ->
  valid step = true -> nonneg_finite step = true ->
  fle (fabs (fsub t c)) step = false ->
  2 * (Fmag c + Fmag step) <=
  2 * Fmag (fadd c (fmul (if fge t fzero then fone else fneg fone)
                         (fmin step (fabs (fsub t c))))) + p2 et.
Proof.
  intros t Ht Hc Vs Ns Hnot. subst t.
  destruct (remaining_ok _ c Ht Hc) as [Vr Nr].
  destruct (fmin_take_step step _ Vs Ns Vr Nr Hnot) as [-> Hlt].
  destruct Ht as (s' & mt' & et' & E & Vt & Hnorm & Hev & Het).
  injection E as <- <- <-.
  destruct Hc as (Vc & Hcle & Hside). cbn [float_sign] in Hside.
  pose proof (valid_finite_inv s mt et Vt) as (Hetr & Hmt & _ & _).
  assert (HG : 0 < p2 et) by (apply p2_pos; lia).
  destruct (signed_take s mt et step Vs Ns) as (Vd & Hd & Sd).
  set (d := fmul (if fge (S754_finite s mt et) fzero then fone else fneg fone) step) in *.
  destruct Hside as [Hz | (mc & ec & ->)].
  - destruct c as [zs | | |]; try discriminate. cbn [Fmag].
    destruct Sd as [Z | (m & e & Ed)].
    + destruct d; try discriminate. cbn [Fmag] in Hd.
      destruct zs, s0; cbn [fadd SFadd Fmag]; lia.
    + rewrite Ed in *. cbn [fadd SFadd]. lia.
  - set (C := Fmag (S754_finite s mc ec)) in *.
    assert (HC0 : 0 < C).
    { pose proof (valid_finite_inv s mc ec Vc) as (Hec & _).
      assert (0 < p2 ec) by (apply p2_pos; lia). unfold C. cbn [Fmag]. nia. }
    destruct Sd as [Z | (m & e & Ed)].
    + destruct d; try discriminate. cbn [Fmag] in Hd.
      change (Fmag (fadd (S754_finite s mc ec) (S754_zero s0))) with C. lia.
    + rewrite Ed in *.
      pose proof (fadd_same_sign s mc ec m e Vc Vd) as Hr. fold C in Hr.
      assert (HT : Fmag (S754_finite s mt et) = Zpos mt * p2 et) by reflexivity.
      assert (Hrem : 2 * Fmag (fabs (fsub (S754_finite s mt et) (S754_finite s mc ec)))
                     <= 2 * (Fmag (S754_finite s mt et) - C) + p2 et).
      { destruct (fsub_same_sign s mt et mc ec Vt Vc Hcle)
          as [[Heq ->] | [Hl Hs]].
        - fold C in Heq. cbn [fabs SFabs Fmag] in *. lia.
        - apply fabs_rounds_to in Hs. fold C in Hs.
          assert (Hb : Fmag (S754_finite s mt et) - C < 16777216 * p2 et) by nia.
          destruct (rounds_to_err false _ _ et Hs ltac:(lia) Hb) as [_ Er].
          exact Er. }
      assert (Hodd : Zpos mt <= 16777214).
      { destruct (Z.eq_dec (Zpos mt) 16777215) as [E1|]; [|lia].
        rewrite E1 in Hev. discriminate. }
      clearbody d. subst d. rewrite <- Hd.
      apply (rounds_to_err_lower s _ _ et Hr); [lia|]. nia.
Qed.

Lemma Fmag_nonneg (x : float) : 0 <= Fmag x.
Proof.
  destruct x as [| | | s m e]; cbn [Fmag]; try lia.
  assert (0 <= p2 e) by (unfold p2; apply Z.pow_nonneg; lia). nia.
Qed.

Lemma turnAngles_shape (t : float) :
  In t turnAngles ->
  exists s mt et, t = S754_finite s mt et /\ p2 et <= p2 (-16).
Proof.
  intros [<- | [<- | [<- | []]]].
  - exists false, 11796480%positive, (-17). split; [reflexivity|].
    apply p2_le; lia.
  - exists true, 11796480%positive, (-17). split; [reflexivity|].
    apply p2_le; lia.
  - exists false, 11796480%positive, (-16). split; [reflexivity | lia].
Qed.

Lemma finishedCore_set_currentAngle (L : libm) (c : Core) (x : float) :
  finishedCore L (set_anim c (set_currentAngle (m_anim c) x)) = finishedCore L c.
Proof. reflexivity. Qed.

Lemma update_finishedCore (L : libm) (c : Core) (dt : float) :
  m_queue c = [] -> update L (finishedCore L c) dt = finishedCore L c.
Proof.
  intros Hq. unfold update.
  rewrite (proj1 (finishedCore_fields L c)).
  destruct (finishedCore_fields L c) as (_ & _ & _ & Fq & _).
  now rewrite Fq, Hq.
Qed.

(** One tick of an active animation with an empty queue: the animation
    completes, or the angle advances by the step up to half a unit in the
    last place. *)
Lemma tick_cases (L : libm) (c : Core) (dt x : float) :
  active (m_anim c) = true -> m_queue c = [] ->
  In (targetAngle (m_anim c)) turnAngles ->
  finiteNonneg (speedDeg (m_anim c)) = true -> finiteNonneg dt = true ->
  angle_ok (targetAngle (m_anim c)) x ->
  update L (set_anim c (set_currentAngle (m_anim c) x)) dt = finishedCore L c \/
  exists x',
    update L (set_anim c (set_currentAngle (m_anim c) x)) dt =
      set_anim c (set_currentAngle (m_anim c) x') /\
    angle_ok (targetAngle (m_anim c)) x' /\
    nonneg_finite (fmul (speedDeg (m_anim c)) dt) = true /\
    2 * (Fmag x + Fmag (fmul (speedDeg (m_anim c)) dt)) <= 2 * Fmag x' + p2 (-16).
Proof.
  intros Hact Hq Ht Hs Hd Hx.
  set (cx := set_anim c (set_currentAngle (m_anim c) x)).
  assert (Hactx : active (m_anim cx) = true) by exact Hact.
  rewrite (update_active L cx dt Hactx).
  assert (Htx : In (targetAngle (m_anim cx)) turnAngles) by exact Ht.
  assert (Hxx : angle_ok (targetAngle (m_anim cx)) (currentAngle (m_anim cx)))
    by exact Hx.
  assert (Hsx : finiteNonneg (speedDeg (m_anim cx)) = true) by exact Hs.
  destruct (animationDone (m_anim cx) (advancedAngle (m_anim cx) dt)) eqn:Hdone.
  - left. unfold cx. rewrite finishedCore_set_currentAngle.
    apply startNextInQueue_idle_empty.
    + apply (finishedCore_fields L c).
    + destruct (finishedCore_fields L c) as (_ & _ & _ & Fq & _). now rewrite Fq.
  - right. exists (advancedAngle (m_anim cx) dt).
    split; [reflexivity|].
    split; [exact (proj1 (advancedAngle_ok (m_anim cx) dt Htx Hxx Hsx Hd))|].
    pose proof (step_ok_mul _ _ Hs Hd) as Hstep.
    pose proof (turnAngles_target_ok _ Ht) as Htok.
    destruct (remaining_ok _ _ Htok Hx) as [Vr Nr].
    assert (Hnot : fle (fabs (fsub (targetAngle (m_anim c)) x))
                       (fmul (speedDeg (m_anim c)) dt) = false).
    { destruct (fle (fabs (fsub (targetAngle (m_anim c)) x))
                    (fmul (speedDeg (m_anim c)) dt)) eqn:Hcov; [|reflexivity].
      pose proof (advancedAngle_reaches (m_anim cx) dt Htx Hxx Hsx Hd Hcov) as Hr.
      rewrite Hr, (animationDone_at_target _ Htx) in Hdone. discriminate. }
    assert (Hfin : nonneg_finite (fmul (speedDeg (m_anim c)) dt) = true).
    { destruct Hstep as [_ [Hf | Hinf]]; [exact Hf|].
      rewrite Hinf, (fle_infinity _ Nr) in Hnot. discriminate. }
    split; [exact Hfin|].
    destruct (turnAngles_shape _ Ht) as (s & mt & et & Et & Hp).
    unfold advancedAngle. cbn [targetAngle currentAngle speedDeg m_anim cx set_anim
                                 set_currentAngle].
    rewrite Et in *.
    pose proof (advance_progress s mt et x _ Htok Hx (proj1 Hstep) Hfin Hnot). lia.
Qed.

Lemma ticks_succ (L : libm) (dt : float) (n : nat) (c : Core) :
  ticks L dt (S n) c = update L (ticks L dt n c) dt.
Proof. reflexivity. Qed.

Lemma ticks_state (L : libm) (c : Core) (dt : float) (k : nat) :
  active (m_anim c) = true -> m_queue c = [] ->
  In (targetAngle (m_anim c)) turnAngles ->
  finiteNonneg (speedDeg (m_anim c)) = true -> finiteNonneg dt = true ->
  angle_ok (targetAngle (m_anim c)) (currentAngle (m_anim c)) ->
  ticks L dt k c = finishedCore L c \/
  exists x,
    ticks L dt k c = set_anim c (set_currentAngle (m_anim c) x) /\
    angle_ok (targetAngle (m_anim c)) x /\
    (k = 0%nat \/ nonneg_finite (fmul (speedDeg (m_anim c)) dt) = true) /\
    Z.of_nat k * (2 * Fmag (fmul (speedDeg (m_anim c)) dt) - p2 (-16)) <= 2 * Fmag x.
Proof.
  intros Hact Hq Ht Hs Hd Hx. induction k as [|k IH].
  - right. exists (currentAngle (m_anim c)).
    split; [symmetry; apply set_currentAngle_same|].
    split; [exact Hx|]. split; [now left|].
    pose proof (Fmag_nonneg (currentAngle (m_anim c))). lia.
  - rewrite ticks_succ. destruct IH as [-> | (x & -> & Hxk & _ & Hk)].
    + left. now apply update_finishedCore.
    + destruct (tick_cases L c dt x Hact Hq Ht Hs Hd Hxk)
        as [-> | (x' & -> & Hx' & Hfin & Hprog)]; [now left|].
      right. exists x'. split; [reflexivity|]. split; [exact Hx'|].
      split; [now right|]. lia.
Qed.

(** X23.  An active animation with an empty queue completes after finitely many
    ticks: if the speed and the time step are finite and not negative and
    the step speedDeg * deltaSeconds is at least 2^-16 degrees, then after
    2 * |targetAngle| / step + 1 calls of [update] (and after any larger
    number) the stickers have been mutated by [applyRotationDiscrete] with
    the axis, layer and target angle of the animation, the core is idle at
    angle 0 and nothing else has changed. *)
Theorem animation_completes (L : libm) (cubieSize gap speed : float)
        (ops : list Op) (dt : float) (n : nat) :
  finiteNonneg speed = true -> forallb opTimeOk ops = true ->
  finiteNonneg dt = true -> fle f_2em16 (fmul speed dt) = true ->
  let c := run L (construct L cubieSize gap speed) ops in
  isAnimating c = true -> m_queue c = [] ->
  (Z.to_nat (2 * Fmag (targetAngle (m_anim c)) / Fmag (fmul speed dt)) + 1 <= n)%nat ->
  ticks L dt n c = finishedCore L c /\
  isAnimating (ticks L dt n c) = false /\
  currentAngle (m_anim (ticks L dt n c)) = fzero /\
  m_stickers (ticks L dt n c) =
    m_stickers (applyRotationDiscrete L c (axis (m_anim c)) (layer (m_anim c))
                                      (targetAngle (m_anim c))).
Proof.
  intros Hspeed Hops Hdt Hmin c Hact Hq Hn. unfold isAnimating in Hact.
  destruct (construct_angleInvariant L cubieSize gap speed) as [Hinv0 Hsp0].
  destruct (run_angleInvariant L ops (construct L cubieSize gap speed))
    as [Hinv Hsp]; [now rewrite Hsp0 | exact Hops | exact Hinv0 |].
  fold c in Hinv, Hsp. rewrite Hsp0 in Hsp.
  destruct (Hinv Hact) as [Ht Hc].
  assert (Hs : finiteNonneg (speedDeg (m_anim c)) = true) by now rewrite Hsp.
  assert (E : ticks L dt n c = finishedCore L c).
  { destruct (ticks_state L c dt n Hact Hq Ht Hs Hdt Hc)
      as [E | (x & _ & (_ & Hxle & _) & Hfin & Hk)]; [exact E | exfalso].
    rewrite Hsp in Hfin, Hk.
    destruct Hfin as [-> | Hfin]; [lia|].
    pose proof (step_ok_mul _ _ Hspeed Hdt) as [Vstep _].
    assert (Hmag : p2 (-16) <= Fmag (fmul speed dt)).
    { unfold fle, SFleb in Hmin.
      rewrite (fcompare_mag f_2em16 (fmul speed dt) eq_refl Vstep eq_refl Hfin) in Hmin.
      change (Fmag f_2em16) with (p2 (-16)) in Hmin.
      destruct (Z.compare_spec (p2 (-16)) (Fmag (fmul speed dt))); try discriminate; lia. }
    assert (Hp : 0 < p2 (-16)) by (apply p2_pos; lia).
    set (St := Fmag (fmul speed dt)) in *. set (T := Fmag (targetAngle (m_anim c))) in *.
    pose proof (Fmag_nonneg (targetAngle (m_anim c))) as HT0. fold T in HT0.
    assert (Hdiv : 2 * T < St * Z.succ (2 * T / St)) by (apply Z.mul_succ_div_gt; lia).
    assert (Hdiv0 : 0 <= 2 * T / St) by (apply Z.div_pos; lia).
    assert (HN : 2 * T / St + 1 <= Z.of_nat n) by lia.
    nia. }
  rewrite E. destruct (finishedCore_fields L c) as (Fa & Fc & _ & _ & Fst).
  unfold isAnimating. now rewrite Fa, Fc, Fst.
Qed.

Lemma animation_completes_witness :
  finiteNonneg (of_bits 0x44340000) = true /\
  forallb opTimeOk [OpStartMoveImmediate "R"] = true /\
  finiteNonneg (of_bits 0x3d800000) = true /\
  fle f_2em16 (fmul (of_bits 0x44340000) (of_bits 0x3d800000)) = true /\
  isAnimating (run libm_table core0 [OpStartMoveImmediate "R"]) = true /\
  m_queue (run libm_table core0 [OpStartMoveImmediate "R"]) = [] /\
  (Z.to_nat (2 * Fmag (targetAngle (m_anim (run libm_table core0
                                               [OpStartMoveImmediate "R"])))
             / Fmag (fmul (of_bits 0x44340000) (of_bits 0x3d800000))) + 1 <= 5)%nat /\
  isAnimating (ticks libm_table (of_bits 0x3d800000) 5
                     (run libm_table core0 [OpStartMoveImmediate "R"])) = false.
Proof.
  assert (H1 : finiteNonneg (of_bits 0x44340000) = true) by reflexivity.
  assert (H2 : forallb opTimeOk [OpStartMoveImmediate "R"] = true) by reflexivity.
  assert (H3 : finiteNonneg (of_bits 0x3d800000) = true) by reflexivity.
  assert (H4 : fle f_2em16 (fmul (of_bits 0x44340000) (of_bits 0x3d800000)) = true)
    by reflexivity.
  assert (H5 : isAnimating (run libm_table core0 [OpStartMoveImmediate "R"]) = true)
    by reflexivity.
  assert (H6 : m_queue (run libm_table core0 [OpStartMoveImmediate "R"]) = [])
    by reflexivity.
  assert (H7 : (Z.to_nat (2 * Fmag (targetAngle (m_anim (run libm_table core0
                                               [OpStartMoveImmediate "R"])))
             / Fmag (fmul (of_bits 0x44340000) (of_bits 0x3d800000))) + 1 <= 5)%nat)
    by (vm_compute; repeat constructor).
  exact (conj H1 (conj H2 (conj H3 (conj H4 (conj H5 (conj H6 (conj H7
           (proj1 (proj2
              (animation_completes libm_table (of_bits 0x3f666666)
                 (of_bits 0x3cf5c28f) (of_bits 0x44340000) _ _ 5
                 H1 H2 H3 H4 H5 H6 H7)))))))))).
Defined.

(** * Queued moves are played in order *)

Lemma applyRotationDiscrete_sameBody (L : libm) (c d : Core) ax lay ang :
  sameBody c d ->
  sameBody (applyRotationDiscrete L c ax lay ang) (applyRotationDiscrete L d ax lay ang).
Proof.
  intros (Hst & Hsp & Hcs). split; [|split; [exact Hsp | exact Hcs]].
  rewrite !applyRotationDiscrete_stickers, Hst.
  apply map_ext. intros s. now apply rebuildBaseModel_ext.
Qed.

Lemma fle_turn_step (t step : float) :
  In t turnAngles -> step_ok step -> fle f_180 step = true ->
  fle (fabs (fsub t fzero)) step = true.
Proof.
  intros Ht (Vs & Hs) H180. rewrite (fsub_zero_turnAngle t Ht).
  destruct Hs as [Ns | ->].
  - assert (Hm : Fmag f_180 <= Fmag step).
    { unfold fle, SFleb in H180.
      rewrite (fcompare_mag f_180 step eq_refl Vs eq_refl Ns) in H180.
      destruct (Z.compare_spec (Fmag f_180) (Fmag step)); try discriminate; lia. }
    assert (Ht' : valid (fabs t) = true /\ nonneg_finite (fabs t) = true /\
                  Fmag (fabs t) <= Fmag f_180).
    { destruct Ht as [<- | [<- | [<- | []]]]; repeat split; vm_compute; discriminate. }
    destruct Ht' as (V & N & Hle). apply fle_of_mag; try assumption. lia.
  - destruct Ht as [<- | [<- | [<- | []]]]; reflexivity.
Qed.

(** A tick whose step is at least 180 degrees completes an animation that
    is at angle 0. *)
Lemma one_tick_completes (L : libm) (d : Core) (dt : float) :
  active (m_anim d) = true -> currentAngle (m_anim d) = fzero ->
  In (targetAngle (m_anim d)) turnAngles ->
  finiteNonneg (speedDeg (m_anim d)) = true -> finiteNonneg dt = true ->
  fle f_180 (fmul (speedDeg (m_anim d)) dt) = true ->
  update L d dt = startNextInQueue (finishedCore L d).
Proof.
  intros Hact Hcur Ht Hs Hd H180.
  pose proof (turnAngles_target_ok _ Ht) as Htok.
  assert (Hok : angle_ok (targetAngle (m_anim d)) (currentAngle (m_anim d)))
    by (rewrite Hcur; now apply angle_ok_zero).
  assert (Hreach : advancedAngle (m_anim d) dt = targetAngle (m_anim d)).
  { apply advancedAngle_reaches; try assumption.
    rewrite Hcur. apply fle_turn_step; [exact Ht | now apply step_ok_mul | exact H180]. }
  rewrite (update_active L d dt Hact), Hreach.
  now rewrite (animationDone_at_target _ Ht).
Qed.

Lemma parsedOf_Some (mv : string) p : parseMove mv = Some p -> parsedOf mv = p.
Proof. intros H. unfold parsedOf. now rewrite H. Qed.

Lemma ticks_first (L : libm) (dt : float) (n : nat) (c : Core) :
  ticks L dt (S n) c = ticks L dt n (update L c dt).
Proof. unfold ticks. apply Nat.iter_succ_r. Qed.

Lemma play_chain (L : libm) (dt speed : float) (rest : list string) :
  finiteNonneg speed = true -> finiteNonneg dt = true ->
  fle f_180 (fmul speed dt) = true ->
  forall (d body : Core) (mv : string) face amount prime,
    parseMove mv = Some (face, amount, prime) -> forallb parses rest = true ->
    m_anim d = mkAnim true (fst (faceAxisLayer face)) (snd (faceAxisLayer face))
                      (moveAngle amount prime) fzero speed ->
    m_queue d = rest -> sameBody d body ->
    sameBody (ticks L dt (List.length rest + 1) d) (playMoves L body (mv :: rest)) /\
    active (m_anim (ticks L dt (List.length rest + 1) d)) = false /\
    currentAngle (m_anim (ticks L dt (List.length rest + 1) d)) = fzero /\
    m_queue (ticks L dt (List.length rest + 1) d) = [].
Proof.
  intros Hs Hd H180.
  induction rest as [|m2 rest IH]; intros d body mv face amount prime Hp Hrest Ha Hq Hb.
  - cbn [List.length Nat.add]. unfold ticks. cbn [Nat.iter nat_rect].
    assert (E : update L d dt = finishedCore L d).
    { rewrite one_tick_completes; rewrite ?Ha; cbn [active currentAngle targetAngle speedDeg];
        try assumption; try reflexivity.
      - apply startNextInQueue_idle_empty; [reflexivity|].
        destruct (finishedCore_fields L d) as (_ & _ & _ & Fq & _). now rewrite Fq.
      - apply moveAngle_valid. now apply (parseMove_amount mv face amount prime). }
    rewrite E. split; [|split; [|split]].
    + unfold playMoves. cbn [fold_left]. rewrite (parsedOf_Some mv _ Hp).
      unfold finishedCore, completeMove. rewrite Ha. cbn [axis layer targetAngle].
      destruct (applyRotationDiscrete_sameBody L d body (fst (faceAxisLayer face))
                  (snd (faceAxisLayer face)) (moveAngle amount prime) Hb)
        as (H1 & H2 & H3).
      split; [exact H1 | split; [exact H2 | exact H3]].
    + reflexivity.
    + reflexivity.
    + destruct (finishedCore_fields L d) as (_ & _ & _ & Fq & _). now rewrite Fq.
  - cbn [forallb] in Hrest. apply andb_true_iff in Hrest. destruct Hrest as [Hm2 Hrest].
    destruct (parses_Some m2 Hm2) as (f2 & a2 & p2' & Hp2).
    cbn [List.length]. rewrite Nat.add_succ_l, ticks_first.
    set (fin := finishedCore L d).
    assert (E : update L d dt =
                startParsedMove (set_queue fin rest) f2 a2 p2').
    { rewrite one_tick_completes; rewrite ?Ha; cbn [active currentAngle targetAngle speedDeg];
        try assumption; try reflexivity.
      - apply (startNextInQueue_idle_cons _ m2 rest); [reflexivity | | exact Hp2].
        destruct (finishedCore_fields L d) as (_ & _ & _ & Fq & _). now rewrite Fq.
      - apply moveAngle_valid. now apply (parseMove_amount mv face amount prime). }
    rewrite E.
    destruct (startParsedMove_frame (set_queue fin rest) f2 a2 p2')
      as (Eq & Es & Esp & Ecs & _).
    assert (Hb' : sameBody (startParsedMove (set_queue fin rest) f2 a2 p2')
                           (completeMove L body (face, amount, prime))).
    { unfold sameBody. rewrite Es, Esp, Ecs. cbn [m_stickers m_spacing m_cubieSize set_queue].
      unfold fin, finishedCore, completeMove. rewrite Ha. cbn [axis layer targetAngle].
      destruct (applyRotationDiscrete_sameBody L d body (fst (faceAxisLayer face))
                  (snd (faceAxisLayer face)) (moveAngle amount prime) Hb)
        as (H1 & H2 & H3).
      split; [exact H1 | split; [exact H2 | exact H3]]. }
    assert (Ha' : m_anim (startParsedMove (set_queue fin rest) f2 a2 p2') =
                  mkAnim true (fst (faceAxisLayer f2)) (snd (faceAxisLayer f2))
                         (moveAngle a2 p2') fzero speed).
    { rewrite startParsedMove_anim. cbn [m_anim set_queue].
      unfold fin, finishedCore. cbn [m_anim set_anim speedDeg]. now rewrite Ha. }
    destruct (IH _ _ m2 f2 a2 p2' Hp2 Hrest Ha' Eq Hb') as (R1 & R2 & R3 & R4).
    split; [|split; [exact R2 | split; [exact R3 | exact R4]]].
    unfold playMoves in *. cbn [fold_left] in *.
    now rewrite (parsedOf_Some mv _ Hp).
Qed.

(** X24.  Queued moves are played in the order they were queued, one move per
    tick when the step of a tick is at least 180 degrees.  Starting from an
    idle core with an empty queue, after the moves have been queued and
    [update] has been called once more than there are moves, the stickers
    are exactly those that the discrete mutations of the moves, applied one
    after the other in queue order, produce; the core is idle again and the
    queue is empty.  The first tick only starts the first move; every later
    tick completes a move and starts the next one in the same call. *)
Theorem queued_moves_play_in_order (L : libm) (c : Core) (moves : list string)
        (dt : float) :
  forallb parses moves = true ->
  isAnimating c = false -> m_queue c = [] ->
  finiteNonneg (speedDeg (m_anim c)) = true -> finiteNonneg dt = true ->
  fle f_180 (fmul (speedDeg (m_anim c)) dt) = true ->
  let c' := ticks L dt (List.length moves + 1) (run L c (map OpQueueMove moves)) in
  m_stickers c' =
    m_stickers (fold_left (fun c mv => completeMove L c (parsedOf mv)) moves c) /\
  isAnimating c' = false /\ m_queue c' = [].
Proof.
  intros Hp Hidle Hq Hs Hd H180. unfold isAnimating in *.
  destruct moves as [|m1 rest].
  - cbn -[ticks]. unfold ticks. cbn [Nat.iter nat_rect]. unfold run. cbn [fold_left].
    assert (E : update L c dt = c) by (unfold update; now rewrite Hidle, Hq).
    rewrite E. auto.
  - cbv zeta.
    rewrite run_queueMoves by (exact Hp || discriminate). rewrite Hq. cbn [app].
    cbn [List.length]. rewrite Nat.add_succ_l, ticks_first.
    cbn [forallb] in Hp. apply andb_true_iff in Hp. destruct Hp as [Hm1 Hrest].
    destruct (parses_Some m1 Hm1) as (face & amount & prime & Hp1).
    assert (E : update L (set_queue c (m1 :: rest)) dt =
                startParsedMove (set_queue (set_queue c (m1 :: rest)) rest)
                                face amount prime).
    { unfold update. cbn [m_anim set_queue m_queue]. rewrite Hidle.
      now apply (startNextInQueue_idle_cons _ m1 rest). }
    rewrite E.
    destruct (startParsedMove_frame (set_queue (set_queue c (m1 :: rest)) rest)
                face amount prime) as (Eq & Es & Esp & Ecs & _).
    destruct (play_chain L dt (speedDeg (m_anim c)) rest Hs Hd H180
                (startParsedMove (set_queue (set_queue c (m1 :: rest)) rest)
                                 face amount prime)
                c m1 face amount prime Hp1 Hrest)
      as ((R1 & _) & R2 & _ & R4).
    + now rewrite startParsedMove_anim.
    + exact Eq.
    + split; [exact Es | split; [exact Esp | exact Ecs]].
    + split; [exact R1|]. split; [exact R2 | exact R4].
Qed.

Lemma queued_moves_play_in_order_witness :
  forallb parses ["R"; "U'"]%string = true /\
  isAnimating core0 = false /\ m_queue core0 = [] /\
  finiteNonneg (speedDeg (m_anim core0)) = true /\ finiteNonneg fone = true /\
  fle f_180 (fmul (speedDeg (m_anim core0)) fone) = true /\
  m_stickers (ticks libm_table fone 3
                (run libm_table core0 (map OpQueueMove ["R"; "U'"]%string))) =
    m_stickers (fold_left (fun c mv => completeMove libm_table c (parsedOf mv))
                          ["R"; "U'"]%string core0).
Proof.
  assert (H1 : forallb parses ["R"; "U'"]%string = true) by reflexivity.
  assert (H2 : isAnimating core0 = false) by reflexivity.
  assert (H3 : m_queue core0 = []) by reflexivity.
  assert (H4 : finiteNonneg (speedDeg (m_anim core0)) = true) by reflexivity.
  assert (H5 : finiteNonneg fone = true) by reflexivity.
  assert (H6 : fle f_180 (fmul (speedDeg (m_anim core0)) fone) = true) by reflexivity.
  exact (conj H1 (conj H2 (conj H3 (conj H4 (conj H5 (conj H6
           (proj1 (queued_moves_play_in_order libm_table core0 ["R"; "U'"]%string fone
                     H1 H2 H3 H4 H5 H6)))))))).
Defined.

(** * The matrices of the stickers *)

Lemma layer_count_initial (ax : vec3) (lay : Z) :
  In ax unitAxes -> In lay [1; -1] ->
  List.length (filter (fun pl : place => axisCoord ax (fst pl) =? lay) initialPlaces)
  = 21%nat.
Proof.
  intros Hax Hlay.
  destruct Hax as [<- | [<- | [<- | []]]];
    destruct Hlay as [<- | [<- | []]]; vm_compute; reflexivity.
Qed.

(** X25.  During an animation only the stickers of the turning layer are
    animated: for every other sticker [getStickerModelMatrices] returns
    the base model itself, at any angle.  When the stickers occupy the 54
    places of the cube and the animation is that of a face turn, the
    turning layer has exactly 21 stickers, so 33 of the 54 matrices are
    base models. *)
Theorem only_the_layer_is_animated (L : libm) (c : Core) :
  Forall2 (fun M s =>
             axisCoord (axis (m_anim c)) (cubePos s) <> layer (m_anim c) ->
             M = baseModel s)
          (getStickerModelMatrices L c) (m_stickers c) /\
  (Permutation (map placeOf (m_stickers c)) initialPlaces ->
   In (axis (m_anim c)) unitAxes -> In (layer (m_anim c)) [1; -1] ->
   List.length (animatedStickers c) = 21%nat).
Proof.
  split.
  - unfold getStickerModelMatrices.
    assert (H : forall l, Forall2 (fun M s =>
                  axisCoord (axis (m_anim c)) (cubePos s) <> layer (m_anim c) ->
                  M = baseModel s) (map (stickerModelMatrix L c) l) l).
    { induction l as [|s l IH]; cbn [map]; constructor; [|exact IH].
      intros Hne. apply Z.eqb_neq in Hne. unfold stickerModelMatrix.
      destruct (active (m_anim c)); cbn [negb]; [|reflexivity].
      now rewrite Hne. }
    apply H.
  - intros Hp Hax Hlay. unfold animatedStickers.
    transitivity (List.length (filter (fun pl : place =>
                     axisCoord (axis (m_anim c)) (fst pl) =? layer (m_anim c))
                     (map placeOf (m_stickers c)))).
    + now rewrite filter_map_length.
    + rewrite (filter_length_Permutation _ _ _ Hp). now apply layer_count_initial.
Qed.

Lemma only_the_layer_is_animated_witness :
  Permutation (map placeOf (m_stickers core0_started_R)) initialPlaces /\
  In (axis (m_anim core0_started_R)) unitAxes /\
  In (layer (m_anim core0_started_R)) [1; -1] /\
  List.length (animatedStickers core0_started_R) = 21%nat.
Proof.
  assert (H1 : Permutation (map placeOf (m_stickers core0_started_R)) initialPlaces)
    by apply Permutation_refl.
  assert (H2 : In (axis (m_anim core0_started_R)) unitAxes) by (cbn; tauto).
  assert (H3 : In (layer (m_anim core0_started_R)) [1; -1]) by (cbn; tauto).
  exact (conj H1 (conj H2 (conj H3
           (proj2 (only_the_layer_is_animated libm_table core0_started_R) H1 H2 H3)))).
Defined.

(** ** The position in the base model *)

Lemma rebuildBaseModel_factored (L : libm) (c : Core) (s : Sticker) :
  baseModel (rebuildBaseModel L c s) =
  mat4_mul (mat4_mul (translate mat4_identity (stickerPos c s))
                     (toMat4 (stickerQuat L s)))
           (scale mat4_identity
                  (Vec3 (fmul (m_cubieSize c) f_0_92) (fmul (m_cubieSize c) f_0_92) fone)).
Proof. reflexivity. Qed.

Lemma feq_okf (a b : float) : feq a b -> okf b -> okf a.
Proof. intros [-> | [H _]] Hb; [exact Hb | now apply okf_of_zero]. Qed.

Lemma v4_feq_ok (a b : vec4) : v4_feq a b -> v4_ok b -> v4_ok a.
Proof.
  intros (A1 & A2 & A3 & A4) (B1 & B2 & B3 & B4).
  repeat split; eapply feq_okf; eassumption.
Qed.

Lemma m4_feq_ok (a b : mat4) : m4_feq a b -> m4_ok b -> m4_ok a.
Proof.
  intros (A1 & A2 & A3 & A4) (B1 & B2 & B3 & B4).
  repeat split; eapply v4_feq_ok; eassumption.
Qed.

(** A translation leaves a direction (a column with w = 0) as it is. *)
Lemma translation_direction (v : vec3) (b : vec4) :
  v3_ok v -> v4_ok b -> is_zero (w4 b) = true ->
  v4_feq (mat4_mul_col (translation v) b) b.
Proof.
  intros ([_ Fx] & [_ Fy] & [_ Fz]) ([V0 F0] & [V1 F1] & [V2 F2] & [V3 F3]) Zw.
  rewrite mat4_mul_col_dot4. unfold translation.
  cbn [col0 col1 col2 col3 x4 y4 z4 w4]. unfold dot4.
  repeat split; cbn [x4 y4 z4 w4].
  - rewrite (fmul_one_l _ V0).
    repeat apply fadd_pick_l; try assumption; try apply feq_refl;
      first [now apply fmul_zero_l | now apply fmul_zero_r].
  - rewrite (fmul_one_l _ V1).
    apply fadd_pick_l; [| assumption | now apply fmul_zero_r].
    apply fadd_pick_l; [| assumption | now apply fmul_zero_l].
    apply fadd_pick_r; [now apply fmul_zero_l | apply feq_refl | assumption].
  - rewrite (fmul_one_l _ V2).
    apply fadd_pick_l; [| assumption | now apply fmul_zero_r].
    apply fadd_pick_r; [| apply feq_refl | assumption].
    apply fadd_zero_zero; now apply fmul_zero_l.
  - rewrite (fmul_one_l _ V3).
    apply fadd_pick_r; [| apply feq_refl | assumption].
    apply fadd_zero_zero; [|now apply fmul_zero_l].
    apply fadd_zero_zero; now apply fmul_zero_l.
Qed.

Lemma toMat4_shape (q : quat) :
  is_zero (w4 (col0 (toMat4 q))) = true /\ is_zero (w4 (col1 (toMat4 q))) = true /\
  is_zero (w4 (col2 (toMat4 q))) = true /\
  col3 (toMat4 q) = Vec4 fzero fzero fzero fone.
Proof. repeat split. Qed.

Lemma v3_okb_ok (a : vec3) : v3_okb a = true -> v3_ok a.
Proof.
  unfold v3_okb, v3_ok. rewrite !andb_true_iff.
  intros [[H1 H2] H3]. repeat split; now apply okfb_ok.
Qed.

(** The product of the translation to [v] with a rotation matrix: the
    columns of the rotation, and [v] as the last column. *)
Lemma translate_rotation (v : vec3) (q : quat) :
  v3_ok v -> m4_ok (toMat4 q) ->
  m4_feq (mat4_mul (translate mat4_identity v) (toMat4 q))
         (Mat4 (col0 (toMat4 q)) (col1 (toMat4 q)) (col2 (toMat4 q))
               (Vec4 (x3 v) (y3 v) (z3 v) fone)).
Proof.
  intros Hv HR. pose proof HR as (R0 & R1 & R2 & R3).
  destruct (toMat4_shape q) as (Z0 & Z1 & Z2 & E3).
  apply m4_feq_trans with (mat4_mul (translation v) (toMat4 q)).
  - apply mat4_mul_feq; [now apply translate_feq | apply m4_feq_refl].
  - unfold mat4_mul. split; [|split; [|split]]; cbn [col0 col1 col2 col3].
    + now apply translation_direction.
    + now apply translation_direction.
    + now apply translation_direction.
    + rewrite E3.
      destruct (mat4_mul_id_r (translation v) (translation_ok v Hv)) as (_ & _ & _ & H).
      exact H.
Qed.

(** X26.  [rebuildBaseModel] places the sticker where the source says: the
    last column of the base model, the image of the centre of the sticker
    quad, compares equal (with == on floats) to
    cubePos * m_spacing + normal * (0.5 * m_cubieSize + 0.001) with w = 1,
    provided that position and the entries of the rotation matrix of the
    chosen quaternion are finite. *)
Theorem base_model_position (L : libm) (c : Core) (s : Sticker) :
  v3_okb (stickerPos c s) = true -> m4_okb (toMat4 (stickerQuat L s)) = true ->
  vec4_eqb (col3 (baseModel (rebuildBaseModel L c s)))
           (Vec4 (fadd (fmul (of_int (ix (cubePos s))) (m_spacing c))
                       (fmul (of_int (ix (normal s)))
                             (fadd (fmul fhalf (m_cubieSize c)) f_0_001)))
                 (fadd (fmul (of_int (iy (cubePos s))) (m_spacing c))
                       (fmul (of_int (iy (normal s)))
                             (fadd (fmul fhalf (m_cubieSize c)) f_0_001)))
                 (fadd (fmul (of_int (iz (cubePos s))) (m_spacing c))
                       (fmul (of_int (iz (normal s)))
                             (fadd (fmul fhalf (m_cubieSize c)) f_0_001)))
                 fone) = true.
Proof.
  intros Hpos HR. apply v3_okb_ok in Hpos. apply m4_okb_ok in HR.
  rewrite rebuildBaseModel_factored.
  set (A := mat4_mul (translate mat4_identity (stickerPos c s))
                     (toMat4 (stickerQuat L s))).
  set (B := Mat4 (col0 (toMat4 (stickerQuat L s))) (col1 (toMat4 (stickerQuat L s)))
                 (col2 (toMat4 (stickerQuat L s)))
                 (Vec4 (x3 (stickerPos c s)) (y3 (stickerPos c s))
                       (z3 (stickerPos c s)) fone)).
  assert (HAB : m4_feq A B) by now apply translate_rotation.
  assert (HB : m4_ok B).
  { destruct HR as (R0 & R1 & R2 & _). destruct Hpos as (Px & Py & Pz).
    split; [exact R0|]. split; [exact R1|]. split; [exact R2|].
    repeat split; try apply Px; try apply Py; try apply Pz. }
  assert (HA : m4_ok A) by now apply (m4_feq_ok A B).
  destruct (mat4_mul_id_r A HA) as (_ & _ & _ & H3).
  destruct HAB as (_ & _ & _ & HAB3).
  pose proof (v4_feq_trans _ _ _ H3 HAB3) as (Ex & Ey & Ez & Ew).
  destruct Hpos as ([_ Fx] & [_ Fy] & [_ Fz]).
  unfold mat4_mul in *. cbn [col0 col1 col2 col3 scale mat4_identity] in *.
  unfold vec4_eqb. cbn [x4 y4 z4 w4] in *.
  repeat (apply andb_true_iff; split); now apply feq_feqb.
Qed.

Lemma base_model_position_witness :
  v3_okb (stickerPos core0 (mkSticker (IVec3 (-1) 1 1) (IVec3 0 1 0) white
                                      mat4_identity)) = true /\
  m4_okb (toMat4 (stickerQuat libm_table
                    (mkSticker (IVec3 (-1) 1 1) (IVec3 0 1 0) white mat4_identity)))
    = true /\
  vec4_eqb
    (col3 (baseModel (rebuildBaseModel libm_table core0
                        (mkSticker (IVec3 (-1) 1 1) (IVec3 0 1 0) white mat4_identity))))
    (Vec4 (x3 (stickerPos core0 (mkSticker (IVec3 (-1) 1 1) (IVec3 0 1 0) white
                                           mat4_identity)))
          (y3 (stickerPos core0 (mkSticker (IVec3 (-1) 1 1) (IVec3 0 1 0) white
                                           mat4_identity)))
          (z3 (stickerPos core0 (mkSticker (IVec3 (-1) 1 1) (IVec3 0 1 0) white
                                           mat4_identity)))
          fone) = true.
Proof.
  assert (H1 : v3_okb (stickerPos core0 (mkSticker (IVec3 (-1) 1 1) (IVec3 0 1 0) white
                                      mat4_identity)) = true) by reflexivity.
  assert (H2 : m4_okb (toMat4 (stickerQuat libm_table
                    (mkSticker (IVec3 (-1) 1 1) (IVec3 0 1 0) white mat4_identity)))
               = true) by reflexivity.
  exact (conj H1 (conj H2
           (base_model_position libm_table core0
              (mkSticker (IVec3 (-1) 1 1) (IVec3 0 1 0) white mat4_identity) H1 H2))).
Defined.
